(** * voltdbclient: the connection / dispatch engine of conn.go

    A shallow embedding of [voltdbclient/conn.go].  Go values are modelled
    as follows.

    - [int64] is a [Z] kept in range by [wrap64] (two's complement).
    - Pointers are addresses ([positive]) into typed heaps held by [World];
      Go maps are reference objects and live in heaps of their own, so that
      every copy of a [VoltConn] struct aliases the same two maps.
    - Every method of [VoltConn] has a value receiver: it works on a copy of
      the struct.  The embedding passes the struct by value, exactly as the
      Go signature does, and [via] dereferences a [*VoltConn] for a call.
    - A panic and a goroutine that blocks for ever are outcomes of their own.
    - What the other goroutines and the network do is an input of the
      operation that observes it: the value a channel receive yields, the
      outcome of [reflect.Select], the health of the TCP stream.  What the
      listener goroutine does to its own registry is a step of its own. *)

From stdpp Require Import gmap list strings.
From Stdlib Require Import ZArith.

Local Open Scope Z_scope.

(** ** Machine integers *)

Definition int64_min : Z := - 2 ^ 63.

Definition wrap64 (z : Z) : Z := (z + 2 ^ 63) mod 2 ^ 64 - 2 ^ 63.
Definition wrap32 (z : Z) : Z := (z + 2 ^ 31) mod 2 ^ 32 - 2 ^ 31.

(** [atomic.AddInt64(addr, delta)]: the new value, wrapped. *)
Definition atomic_AddInt64 (old delta : Z) : Z := wrap64 (old + delta).

(** ** Values that cross the package boundary *)

Abbreviation loc := positive.
Abbreviation chan := positive.

(** A non-nil Go [error] is represented by its message. *)
Abbreviation error := string.

Definition errors_New (msg : string) : option error := Some msg.

(** Modelled from the spec: struct [VoltRows] (the "decoded result set") is
    declared outside conn.go.  conn.go uses its zero value [VoltRows{}] and
    its accessor [error()]; the decoded tables are kept as opaque data. *)
Record VoltRows := { vr_tables : list (list Z); vr_err : option error }.

Definition VoltRows_zero : VoltRows := {| vr_tables := []; vr_err := None |}.
Definition VoltRows_error (r : VoltRows) : option error := vr_err r.

(** Modelled from the spec: struct [VoltResult] (the "decoded mutation
    result") is declared outside conn.go, which uses only [VoltResult{}]. *)
Record VoltResult := { vres_rowsAff : list Z }.

Definition VoltResult_zero : VoltResult := {| vres_rowsAff := [] |}.

(** A value of interface type [driver.Rows]: nil, a [VoltRows], or an
    implementation from elsewhere. *)
Inductive driver_Rows :=
| RowsNil
| RowsVolt (r : VoltRows)
| RowsForeign (tag : nat).

(** A value of interface type [driver.Result]. *)
Inductive driver_Result :=
| ResultNil
| ResultVolt (r : VoltResult)
| ResultForeign (tag : nat).

(** What [reflect.Select] hands back for a receive case: a [reflect.Value]
    with its kind and the dynamic value behind [Interface()]. *)
Inductive reflect_Kind := KInterface | KOther.

Inductive dyn :=
| DynRows (r : driver_Rows)
| DynNotRows (tag : nat).

Record reflect_Value := { rv_Kind : reflect_Kind; rv_Interface : dyn }.

(** The type assertion [val.Interface().(driver.Rows)] in its two-result
    form: a nil interface value or a value of another type fails it. *)
Definition assert_driver_Rows (d : dyn) : driver_Rows * bool :=
  match d with
  | DynRows RowsNil => (RowsNil, false)
  | DynRows r => (r, true)
  | DynNotRows _ => (RowsNil, false)
  end.

(** ** Structs of conn.go *)

Record connectionData := {
  hostId : Z;
  connId : Z;
  leaderAddr : Z;
  buildString : string
}.

(** [sync.WaitGroup], a struct held BY VALUE in [VoltConn.nlwg]: its state is
    its counter, and a copy of the struct is a counter of its own. *)
Record WaitGroup := { wg_counter : Z }.

Definition WaitGroup_zero : WaitGroup := {| wg_counter := 0 |}.
Definition WaitGroup_Add (delta : Z) (wg : WaitGroup) : WaitGroup :=
  {| wg_counter := wg_counter wg + delta |}.

(** [wg.Wait()] returns at once when the counter is zero and blocks
    otherwise. *)
Definition WaitGroup_Wait_ready (wg : WaitGroup) : bool := wg_counter wg =? 0.

Record VoltConn := {
  reader : option loc;            (* io.Reader: nil or a stream object *)
  writer : option loc;            (* io.Writer: nil or a stream object *)
  connData : option connectionData;
  execs : loc;                    (* map[int64]*VoltExecResult *)
  queries : loc;                  (* map[int64]*VoltQueryResult *)
  netListener : loc;              (* *NetworkListener *)
  nlwg : WaitGroup;
  isOpen : bool
}.

(** The field [conn *VoltConn] of a pending result is [&vc], the address of
    the receiver copy made for the call of [QueryAsync] / [ExecAsync].
    Nothing writes through that pointer (all [VoltConn] methods take their
    receiver by value), so the pointee is kept as the struct value. *)
Record VoltQueryResult := {
  vqr_conn : VoltConn;
  vqr_han : Z;
  vqr_ch : chan;
  vqr_rows : driver_Rows;
  vqr_err : option error;
  vqr_active : bool
}.

Record VoltExecResult := {
  ver_conn : VoltConn;
  ver_han : Z;
  ver_ch : chan;
  ver_result : driver_Result;
  ver_err : option error;
  ver_active : bool
}.

(** ** Collaborators outside conn.go *)

(** Modelled from the spec: the Network Listener (its file is not part of
    the sources at hand).  It owns a registry of pending handles, each with
    its delivery channel; [start] launches the read loop, [stop] signals
    the loop to terminate without closing the stream, and the loop signals
    its own completion on the wait group it was given.  [newListener]
    receives that wait group as an argument, that is, as a copy. *)
Record NetworkListener := {
  nl_reader : option loc;
  nl_execs : gmap Z chan;
  nl_queries : gmap Z chan;
  nl_wg : WaitGroup;
  nl_stopRequested : bool;
  nl_loopRunning : bool
}.

(** A byte stream: a [*net.TCPConn] or some other reader / writer. *)
Record Stream := {
  st_isTCP : bool;
  st_closed : bool;               (* Close() has been called on it *)
  st_peerGone : bool;             (* the network fails every write *)
  st_out : list (list Z)          (* what has been written, newest first *)
}.

(** Ghost record of the channel operations a goroutine performs. *)
Inductive Event :=
| EvRecv (c : chan)
| EvSelect (cases : list chan).

(** ** The process state *)

Record World := {
  qHandle : Z;                                  (* var qHandle int64 *)
  handle_log : list Z;                          (* ghost: handles handed out, newest first *)
  conn_heap : gmap loc VoltConn;
  exec_maps : gmap loc (gmap Z loc);
  query_maps : gmap loc (gmap Z loc);
  vqr_heap : gmap loc VoltQueryResult;
  ver_heap : gmap loc VoltExecResult;
  listeners : gmap loc NetworkListener;
  streams : gmap loc Stream;
  chan_count : positive;                        (* channels made so far *)
  events : list Event                           (* ghost, newest first *)
}.

Definition World_init : World :=
  {| qHandle := 0; handle_log := []; conn_heap := ∅; exec_maps := ∅;
     query_maps := ∅; vqr_heap := ∅; ver_heap := ∅; listeners := ∅;
     streams := ∅; chan_count := 1%positive; events := [] |}.

Definition set_qHandle (q : Z) (w : World) : World :=
  {| qHandle := q; handle_log := q :: handle_log w; conn_heap := conn_heap w;
     exec_maps := exec_maps w; query_maps := query_maps w;
     vqr_heap := vqr_heap w; ver_heap := ver_heap w; listeners := listeners w;
     streams := streams w; chan_count := chan_count w; events := events w |}.

Definition set_conn_heap (h : gmap loc VoltConn) (w : World) : World :=
  {| qHandle := qHandle w; handle_log := handle_log w; conn_heap := h;
     exec_maps := exec_maps w; query_maps := query_maps w;
     vqr_heap := vqr_heap w; ver_heap := ver_heap w; listeners := listeners w;
     streams := streams w; chan_count := chan_count w; events := events w |}.

Definition set_exec_maps (h : gmap loc (gmap Z loc)) (w : World) : World :=
  {| qHandle := qHandle w; handle_log := handle_log w; conn_heap := conn_heap w;
     exec_maps := h; query_maps := query_maps w;
     vqr_heap := vqr_heap w; ver_heap := ver_heap w; listeners := listeners w;
     streams := streams w; chan_count := chan_count w; events := events w |}.

Definition set_query_maps (h : gmap loc (gmap Z loc)) (w : World) : World :=
  {| qHandle := qHandle w; handle_log := handle_log w; conn_heap := conn_heap w;
     exec_maps := exec_maps w; query_maps := h;
     vqr_heap := vqr_heap w; ver_heap := ver_heap w; listeners := listeners w;
     streams := streams w; chan_count := chan_count w; events := events w |}.

Definition set_vqr_heap (h : gmap loc VoltQueryResult) (w : World) : World :=
  {| qHandle := qHandle w; handle_log := handle_log w; conn_heap := conn_heap w;
     exec_maps := exec_maps w; query_maps := query_maps w;
     vqr_heap := h; ver_heap := ver_heap w; listeners := listeners w;
     streams := streams w; chan_count := chan_count w; events := events w |}.

Definition set_ver_heap (h : gmap loc VoltExecResult) (w : World) : World :=
  {| qHandle := qHandle w; handle_log := handle_log w; conn_heap := conn_heap w;
     exec_maps := exec_maps w; query_maps := query_maps w;
     vqr_heap := vqr_heap w; ver_heap := h; listeners := listeners w;
     streams := streams w; chan_count := chan_count w; events := events w |}.

Definition set_listeners (h : gmap loc NetworkListener) (w : World) : World :=
  {| qHandle := qHandle w; handle_log := handle_log w; conn_heap := conn_heap w;
     exec_maps := exec_maps w; query_maps := query_maps w;
     vqr_heap := vqr_heap w; ver_heap := ver_heap w; listeners := h;
     streams := streams w; chan_count := chan_count w; events := events w |}.

Definition set_streams (h : gmap loc Stream) (w : World) : World :=
  {| qHandle := qHandle w; handle_log := handle_log w; conn_heap := conn_heap w;
     exec_maps := exec_maps w; query_maps := query_maps w;
     vqr_heap := vqr_heap w; ver_heap := ver_heap w; listeners := listeners w;
     streams := h; chan_count := chan_count w; events := events w |}.

Definition set_chan_count (n : positive) (w : World) : World :=
  {| qHandle := qHandle w; handle_log := handle_log w; conn_heap := conn_heap w;
     exec_maps := exec_maps w; query_maps := query_maps w;
     vqr_heap := vqr_heap w; ver_heap := ver_heap w; listeners := listeners w;
     streams := streams w; chan_count := n; events := events w |}.

Definition log_event (e : Event) (w : World) : World :=
  {| qHandle := qHandle w; handle_log := handle_log w; conn_heap := conn_heap w;
     exec_maps := exec_maps w; query_maps := query_maps w;
     vqr_heap := vqr_heap w; ver_heap := ver_heap w; listeners := listeners w;
     streams := streams w; chan_count := chan_count w; events := e :: events w |}.

(** ** Outcomes of a call *)

Inductive Outcome (A : Type) : Type :=
| Ret (a : A) (w : World)        (* the call returns *)
| Panic (msg : string)           (* the goroutine panics *)
| Blocked (w : World).           (* the goroutine never gets past a receive *)

Arguments Ret {A} a w.
Arguments Panic {A} msg.
Arguments Blocked {A} w.

Definition M (A : Type) : Type := World → Outcome A.

Definition ret {A} (a : A) : M A := fun w => Ret a w.

Definition bind {A B} (m : M A) (k : A → M B) : M B :=
  fun w => match m w with
           | Ret a w' => k a w'
           | Panic msg => Panic msg
           | Blocked w' => Blocked w'
           end.

Definition panic {A} (msg : string) : M A := fun _ => Panic msg.
Definition modify (f : World → World) : M unit := fun w => Ret tt (f w).

Notation "'let!' x := m 'in' k" := (bind m (fun x => k))
  (at level 10, x name, m at level 100, k at level 200,
   format "'[v' 'let!'  x  :=  m  'in' '/' k ']'").
Notation "'let!' ( x , y ) := m 'in' k" := (bind m (fun '(x, y) => k))
  (at level 10, x name, y name, m at level 100, k at level 200,
   format "'[v' 'let!'  ( x ,  y )  :=  m  'in' '/' k ']'").
Notation "m ;; k" := (bind m (fun _ => k))
  (at level 100, k at level 200, right associativity).

(** Dereferencing: a nil or dangling pointer panics. *)
Definition deref {A} (heap : World → gmap loc A) (p : loc) : M A :=
  fun w => match heap w !! p with
           | Some a => Ret a w
           | None => Panic "invalid memory address or nil pointer dereference"
           end.

(** [new(T)] / [make(...)]: a fresh address in the heap of that type. *)
Definition alloc {A} (heap : World → gmap loc A)
    (set : gmap loc A → World → World) (a : A) : M loc :=
  fun w => let p := fresh (dom (heap w)) in Ret p (set (<[p := a]> (heap w)) w).

(** Writing a struct back through a pointer known to be good. *)
Definition store {A} (heap : World → gmap loc A)
    (set : gmap loc A → World → World) (p : loc) (a : A) : M unit :=
  fun w => Ret tt (set (<[p := a]> (heap w)) w).

(** [make(chan T, ...)]: channels are never reused. *)
Definition make_chan : M chan :=
  fun w => Ret (chan_count w) (set_chan_count (Pos.succ (chan_count w)) w).

(** What a receive meets: a value sent by the listener, a closed channel, or
    a channel nothing is ever sent on. *)
Inductive Recv (A : Type) : Type :=
| Delivered (a : A)
| ChanClosed
| NeverReady.

Arguments Delivered {A} a.
Arguments ChanClosed {A}.
Arguments NeverReady {A}.

(** [<-c]: a closed channel yields the zero value of the element type. *)
Definition chan_recv {A} (zero : A) (c : chan) (d : Recv A) : M A :=
  fun w => match d with
           | Delivered a => Ret a (log_event (EvRecv c) w)
           | ChanClosed => Ret zero (log_event (EvRecv c) w)
           | NeverReady => Blocked (log_event (EvRecv c) w)
           end.

(** [<-c] inside a call that registered the handle of [c] with the listener
    itself and has not returned since ([Exec], [Query]): a response can only
    come out of [c] through the listener's delivery for that handle, so
    that step of the listener goroutine, [deliver], lies within the call.
    A receive on the channel of a pending result ([Rows()], [Result()],
    [Drain]) is different: the channel has a slot for the response, the
    listener may have delivered at any time since the asynchronous call,
    and its delivery is a step of the process of its own ([step_deliverExec],
    [step_deliverQuery]); the receive itself only takes the value. *)
Definition recv_from_listener {A} (zero : A) (deliver : M unit)
    (c : chan) (d : Recv A) : M A :=
  match d with
  | Delivered _ => deliver ;; chan_recv zero c d
  | ChanClosed | NeverReady => chan_recv zero c d
  end.

(** ** Go maps held by reference

    An address with no map behind it is the nil map: reading it finds
    nothing, [delete] does nothing, assignment panics. *)

Definition map_read (heap : World → gmap loc (gmap Z loc)) (m : loc) (w : World)
    : gmap Z loc :=
  default ∅ (heap w !! m).

Definition map_assign (heap : World → gmap loc (gmap Z loc))
    (set : gmap loc (gmap Z loc) → World → World)
    (m : loc) (k : Z) (v : loc) : M unit :=
  fun w => match heap w !! m with
           | Some o => Ret tt (set (<[m := <[k := v]> o]> (heap w)) w)
           | None => Panic "assignment to entry in nil map"
           end.

Definition map_delete (heap : World → gmap loc (gmap Z loc))
    (set : gmap loc (gmap Z loc) → World → World)
    (m : loc) (k : Z) : M unit :=
  fun w => match heap w !! m with
           | Some o => Ret tt (set (<[m := delete k o]> (heap w)) w)
           | None => Ret tt w
           end.

(** ** The stream *)

Definition Stream_failing (s : Stream) : bool := st_closed s || st_peerGone s.

(** [w.Write(data)] on a stream object: the bytes written and the error. *)
Definition Stream_Write (p : loc) (data : list Z) : M (Z * option error) :=
  let! s := deref streams p in
  if Stream_failing s then ret (0, Some "write: broken pipe"%string)
  else
    store streams set_streams p
      {| st_isTCP := st_isTCP s; st_closed := st_closed s;
         st_peerGone := st_peerGone s; st_out := data :: st_out s |} ;;
    ret (Z.of_nat (length data), None).

(** [io.Copy(writer, &buf)] for a non-empty [bytes.Buffer]: one [Write] on
    the destination; a nil [io.Writer] panics at the method call. *)
Definition io_Copy (dst : option loc) (data : list Z) : M (Z * option error) :=
  match dst with
  | None => panic "invalid memory address or nil pointer dereference"
  | Some p => Stream_Write p data
  end.

(** [tcpConn.Close()]. *)
Definition TCPConn_Close (p : loc) : M (option error) :=
  let! s := deref streams p in
  if st_closed s then ret (Some "use of closed network connection"%string)
  else
    store streams set_streams p
      {| st_isTCP := st_isTCP s; st_closed := true;
         st_peerGone := st_peerGone s; st_out := st_out s |} ;;
    ret None.

(** The type assertion of [vc.reader] to a pointer to [net.TCPConn]. *)
Definition assert_TCPConn (p : loc) : M loc :=
  let! s := deref streams p in
  if st_isTCP s then ret p
  else panic "interface conversion: io.Reader is not *net.TCPConn".

(** Modelled from the spec: [writeInt], declared outside conn.go, appends a
    4-byte big-endian integer ("4-byte big-endian length prefix"). *)
Definition writeInt (buf : list Z) (v : Z) : list Z :=
  let u := v mod 2 ^ 32 in
  buf ++ [Z.land (Z.shiftr u 24) 255; Z.land (Z.shiftr u 16) 255;
          Z.land (Z.shiftr u 8) 255; Z.land u 255].

(** ** The Network Listener, as conn.go uses it *)

Definition set_nl_execs (m : gmap Z chan) (nl : NetworkListener) : NetworkListener :=
  {| nl_reader := nl_reader nl; nl_execs := m; nl_queries := nl_queries nl;
     nl_wg := nl_wg nl; nl_stopRequested := nl_stopRequested nl;
     nl_loopRunning := nl_loopRunning nl |}.

Definition set_nl_queries (m : gmap Z chan) (nl : NetworkListener) : NetworkListener :=
  {| nl_reader := nl_reader nl; nl_execs := nl_execs nl; nl_queries := m;
     nl_wg := nl_wg nl; nl_stopRequested := nl_stopRequested nl;
     nl_loopRunning := nl_loopRunning nl |}.

(** Modelled from the spec: [newListener(reader, wg)].  The wait group is a
    parameter of struct type, so the listener keeps a copy of the caller's. *)
Definition newListener (rd : option loc) (wg : WaitGroup) : M loc :=
  alloc listeners set_listeners
    {| nl_reader := rd; nl_execs := ∅; nl_queries := ∅; nl_wg := wg;
       nl_stopRequested := false; nl_loopRunning := false |}.

(** Modelled from the spec: [start()] launches the loop, which will signal
    its completion on the listener's wait group. *)
Definition NetworkListener_start (p : loc) : M unit :=
  let! nl := deref listeners p in
  store listeners set_listeners p
    {| nl_reader := nl_reader nl; nl_execs := nl_execs nl;
       nl_queries := nl_queries nl; nl_wg := WaitGroup_Add 1 (nl_wg nl);
       nl_stopRequested := nl_stopRequested nl; nl_loopRunning := true |}.

(** Modelled from the spec: [stop()] "signals loop termination ... without
    itself closing the stream"; the loop exits later, on its own goroutine. *)
Definition NetworkListener_stop (p : loc) : M unit :=
  let! nl := deref listeners p in
  store listeners set_listeners p
    {| nl_reader := nl_reader nl; nl_execs := nl_execs nl;
       nl_queries := nl_queries nl; nl_wg := nl_wg nl;
       nl_stopRequested := true; nl_loopRunning := nl_loopRunning nl |}.

(** Modelled from the spec: the step of the listener goroutine that leaves
    the loop once a stop was requested and "signals its own completion". *)
Definition NetworkListener_loopExit (p : loc) : M unit :=
  let! nl := deref listeners p in
  if nl_stopRequested nl && nl_loopRunning nl then
    store listeners set_listeners p
      {| nl_reader := nl_reader nl; nl_execs := nl_execs nl;
         nl_queries := nl_queries nl; nl_wg := WaitGroup_Add (-1) (nl_wg nl);
         nl_stopRequested := true; nl_loopRunning := false |}
  else ret tt.

(** Modelled from the spec: registering a handle yields its delivery
    channel; removing it forgets the handle. *)
Definition NetworkListener_registerExec (p : loc) (handle : Z) : M chan :=
  let! nl := deref listeners p in
  let! c := make_chan in
  store listeners set_listeners p (set_nl_execs (<[handle := c]> (nl_execs nl)) nl) ;;
  ret c.

Definition NetworkListener_registerQuery (p : loc) (handle : Z) : M chan :=
  let! nl := deref listeners p in
  let! c := make_chan in
  store listeners set_listeners p (set_nl_queries (<[handle := c]> (nl_queries nl)) nl) ;;
  ret c.

Definition NetworkListener_removeExec (p : loc) (handle : Z) : M unit :=
  let! nl := deref listeners p in
  store listeners set_listeners p (set_nl_execs (delete handle (nl_execs nl)) nl).

Definition NetworkListener_removeQuery (p : loc) (handle : Z) : M unit :=
  let! nl := deref listeners p in
  store listeners set_listeners p (set_nl_queries (delete handle (nl_queries nl)) nl).

(** Modelled from the spec: the step of the listener goroutine that handles
    one response frame.  It "looks up the handle ..., delivers the decoded
    value into that Pending Future's delivery channel, then removes the
    handle from the map"; a frame whose handle is not registered "is
    discarded rather than fatal".  The value sent shows up as the input of
    the receive that takes it. *)
Definition NetworkListener_deliverExec (p : loc) (handle : Z) : M unit :=
  let! nl := deref listeners p in
  store listeners set_listeners p (set_nl_execs (delete handle (nl_execs nl)) nl).

Definition NetworkListener_deliverQuery (p : loc) (handle : Z) : M unit :=
  let! nl := deref listeners p in
  store listeners set_listeners p (set_nl_queries (delete handle (nl_queries nl)) nl).

(** ** conn.go *)

(** [atomic.AddInt64(&qHandle, 1)]. *)
Definition next_handle : M Z :=
  fun w => let h := atomic_AddInt64 (qHandle w) 1 in Ret h (set_qHandle h w).

(** A method call through a [*VoltConn]: the receiver is a copy of the
    pointee. *)
Definition via {A} (p : loc) (method : VoltConn → M A) : M A :=
  let! vc := deref conn_heap p in method vc.

(** [newVoltConn(reader, writer, connData)].  The argument [connData] is not
    stored: the field keeps its zero value.  [vc.nlwg] is passed to
    [newListener] by value. *)
Definition newVoltConn (rd wr : option loc) (cd : option connectionData) : M loc :=
  let! ex := alloc exec_maps set_exec_maps ∅ in
  let! qs := alloc query_maps set_query_maps ∅ in
  let wg := WaitGroup_zero in
  let! nl := newListener rd wg in
  NetworkListener_start nl ;;
  alloc conn_heap set_conn_heap
    {| reader := rd; writer := wr; connData := None; execs := ex;
       queries := qs; netListener := nl; nlwg := wg; isOpen := true |}.

(** The body of [Close], with the receiver copy as it stands at [return]. *)
Definition VoltConn_Close_body (vc : VoltConn) : M (option error * VoltConn) :=
  NetworkListener_stop (netListener vc) ;;
  (fun w => if WaitGroup_Wait_ready (nlwg vc) then Ret tt w else Blocked w) ;;
  let! err :=
    match reader vc with
    | Some r => let! tcpConn := assert_TCPConn r in TCPConn_Close tcpConn
    | None => ret None
    end in
  ret (err,
       {| reader := None; writer := None; connData := None; execs := execs vc;
          queries := queries vc; netListener := netListener vc;
          nlwg := nlwg vc; isOpen := false |}).

(** [func (vc VoltConn) Close() (err error)]: the receiver copy dies with
    the call. *)
Definition VoltConn_Close (vc : VoltConn) : M (option error) :=
  let! (err, _) := VoltConn_Close_body vc in ret err.

(** [vc.execs[handle] = ver] and its three siblings: the receiver is a copy,
    the map behind its field is the connection's. *)
Definition VoltConn_registerExec (vc : VoltConn) (handle : Z) (ver : loc) : M unit :=
  map_assign exec_maps set_exec_maps (execs vc) handle ver.

Definition VoltConn_registerQuery (vc : VoltConn) (handle : Z) (vcr : loc) : M unit :=
  map_assign query_maps set_query_maps (queries vc) handle vcr.

Definition VoltConn_removeExec (vc : VoltConn) (han : Z) : M unit :=
  map_delete exec_maps set_exec_maps (execs vc) han.

Definition VoltConn_removeQuery (vc : VoltConn) (han : Z) : M unit :=
  map_delete query_maps set_query_maps (queries vc) han.

(** *** Pending query results *)

Definition newVoltQueryResult (conn : VoltConn) (han : Z) (ch : chan) : M loc :=
  alloc vqr_heap set_vqr_heap
    {| vqr_conn := conn; vqr_han := han; vqr_ch := ch; vqr_rows := RowsNil;
       vqr_err := None; vqr_active := true |}.

Definition VoltQueryResult_isActive (vqr : loc) : M bool :=
  let! f := deref vqr_heap vqr in ret (vqr_active f).

Definition VoltQueryResult_channel (vqr : loc) : M chan :=
  let! f := deref vqr_heap vqr in ret (vqr_ch f).

Definition VoltQueryResult_handle (vqr : loc) : M Z :=
  let! f := deref vqr_heap vqr in ret (vqr_han f).

(** [setError] and [setRows]: store, mark inactive, remove the handle from
    [vqr.conn]'s map.  Neither looks at [active] first. *)
Definition VoltQueryResult_setError (vqr : loc) (err : option error) : M unit :=
  let! f := deref vqr_heap vqr in
  store vqr_heap set_vqr_heap vqr
    {| vqr_conn := vqr_conn f; vqr_han := vqr_han f; vqr_ch := vqr_ch f;
       vqr_rows := vqr_rows f; vqr_err := err; vqr_active := false |} ;;
  VoltConn_removeQuery (vqr_conn f) (vqr_han f).

Definition VoltQueryResult_setRows (vqr : loc) (rows : driver_Rows) : M unit :=
  let! f := deref vqr_heap vqr in
  store vqr_heap set_vqr_heap vqr
    {| vqr_conn := vqr_conn f; vqr_han := vqr_han f; vqr_ch := vqr_ch f;
       vqr_rows := rows; vqr_err := vqr_err f; vqr_active := false |} ;;
  VoltConn_removeQuery (vqr_conn f) (vqr_han f).

(** The type assertion [rows.(VoltRows)] in its one-result form. *)
Definition assert_VoltRows (rows : driver_Rows) : M VoltRows :=
  match rows with
  | RowsVolt vrows => ret vrows
  | RowsNil => panic "interface conversion: interface is nil, not voltdbclient.VoltRows"
  | RowsForeign _ => panic "interface conversion: driver.Rows is not voltdbclient.VoltRows"
  end.

(** [Rows()]: the stored outcome of a resolved result; otherwise one receive
    on the channel, whose outcome is stored. *)
Definition VoltQueryResult_Rows (vqr : loc) (d : Recv driver_Rows)
    : M (driver_Rows * option error) :=
  let! f := deref vqr_heap vqr in
  if negb (vqr_active f) then
    match vqr_err f with
    | Some e => ret (RowsNil, Some e)
    | None => ret (vqr_rows f, None)
    end
  else
    let! rows := chan_recv RowsNil (vqr_ch f) d in
    let! vrows := assert_VoltRows rows in
    match VoltRows_error vrows with
    | Some err =>
        VoltQueryResult_setError vqr (Some err) ;;
        ret (RowsNil, Some err)
    | None =>
        VoltQueryResult_setRows vqr rows ;;
        let! f' := deref vqr_heap vqr in
        ret (vqr_rows f', None)
    end.

(** *** Pending exec results *)

Definition newVoltExecResult (conn : VoltConn) (han : Z) (ch : chan) : M loc :=
  alloc ver_heap set_ver_heap
    {| ver_conn := conn; ver_han := han; ver_ch := ch; ver_result := ResultNil;
       ver_err := None; ver_active := true |}.

Definition VoltExecResult_isActive (ver : loc) : M bool :=
  let! f := deref ver_heap ver in ret (ver_active f).

Definition VoltExecResult_channel (ver : loc) : M chan :=
  let! f := deref ver_heap ver in ret (ver_ch f).

Definition VoltExecResult_handle (ver : loc) : M Z :=
  let! f := deref ver_heap ver in ret (ver_han f).

(** [setError]: in the order of the source, [err], the map, [active]. *)
Definition VoltExecResult_setError (ver : loc) (err : option error) : M unit :=
  let! f := deref ver_heap ver in
  store ver_heap set_ver_heap ver
    {| ver_conn := ver_conn f; ver_han := ver_han f; ver_ch := ver_ch f;
       ver_result := ver_result f; ver_err := err; ver_active := ver_active f |} ;;
  VoltConn_removeExec (ver_conn f) (ver_han f) ;;
  store ver_heap set_ver_heap ver
    {| ver_conn := ver_conn f; ver_han := ver_han f; ver_ch := ver_ch f;
       ver_result := ver_result f; ver_err := err; ver_active := false |}.

(** [setResult]: the one setter that panics on a resolved result. *)
Definition VoltExecResult_setResult (ver : loc) (result : driver_Result) : M unit :=
  let! f := deref ver_heap ver in
  if negb (ver_active f) then panic "Tried to set result on inactive exec result"
  else
    store ver_heap set_ver_heap ver
      {| ver_conn := ver_conn f; ver_han := ver_han f; ver_ch := ver_ch f;
         ver_result := result; ver_err := ver_err f; ver_active := ver_active f |} ;;
    VoltConn_removeExec (ver_conn f) (ver_han f) ;;
    store ver_heap set_ver_heap ver
      {| ver_conn := ver_conn f; ver_han := ver_han f; ver_ch := ver_ch f;
         ver_result := result; ver_err := ver_err f; ver_active := false |}.

(** [Result()]. *)
Definition VoltExecResult_Result (ver : loc) (d : Recv driver_Result)
    : M (driver_Result * option error) :=
  let! f := deref ver_heap ver in
  if negb (ver_active f) then ret (ver_result f, ver_err f)
  else
    let! result := chan_recv ResultNil (ver_ch f) d in
    VoltExecResult_setResult ver result ;;
    let! f' := deref ver_heap ver in
    ret (ver_result f', None).

(** *** Calls, parameterised by the collaborators *)

(** The outcome of one [reflect.Select] over receive cases. *)
Record SelectResult := {
  sel_chosen : nat;
  sel_val : reflect_Value;
  sel_ok : bool
}.

Section Conn.

(** [driver.Value], and the serializer of a procedure call, which lives
    outside conn.go: it yields the payload and an error. *)
Variable driver_Value : Type.
Variable serializeStatement :
  string → Z → list driver_Value → list Z * option error.

(** The order in which [range] walks a Go map is not specified: [map_range]
    is the enumeration the runtime happens to produce on a given occasion. *)
Variable map_range : nat → gmap Z loc → list (Z * loc).
Hypothesis map_range_perm : ∀ seed m, map_range seed m ≡ₚ map_to_list m.

(** [serializeQuery]: the length prefix and the payload go out in one
    [io.Copy], whose two results are dropped; the only error returned is
    the serializer's. *)
Definition VoltConn_serializeQuery (vc : VoltConn) (wr : option loc)
    (procedure : string) (handle : Z) (args : list driver_Value)
    : M (option error) :=
  let '(call, err) := serializeStatement procedure handle args in
  match err with
  | Some e => ret (Some e)
  | None =>
      let netmsg := writeInt [] (wrap32 (Z.of_nat (length call))) in
      let netmsg := netmsg ++ call in
      io_Copy wr netmsg ;;
      ret None
  end.

(** [Exec] and [Query] end in [return <-c, nil], a receive that the
    listener answers while the call is still running; [ExecAsync] and
    [QueryAsync] file the pending result in the connection's map before
    they send, and on a send error deregister with the listener only. *)
Definition VoltConn_Exec (vc : VoltConn) (query : string)
    (args : list driver_Value) (d : Recv driver_Result)
    : M (driver_Result * option error) :=
  if negb (isOpen vc) then ret (ResultNil, errors_New "Connection is closed")
  else
    let! handle := next_handle in
    let! c := NetworkListener_registerExec (netListener vc) handle in
    let! err := VoltConn_serializeQuery vc (writer vc) query handle args in
    match err with
    | Some e =>
        NetworkListener_removeExec (netListener vc) handle ;;
        ret (ResultVolt VoltResult_zero, Some e)
    | None =>
        let! r := recv_from_listener ResultNil
                    (NetworkListener_deliverExec (netListener vc) handle) c d in
        ret (r, None)
    end.

Definition VoltConn_ExecAsync (vc : VoltConn) (query : string)
    (args : list driver_Value) : M (option loc * option error) :=
  if negb (isOpen vc) then ret (None, errors_New "Connection is closed")
  else
    let! handle := next_handle in
    let! c := NetworkListener_registerExec (netListener vc) handle in
    let! ver := newVoltExecResult vc handle c in
    VoltConn_registerExec vc handle ver ;;
    let! err := VoltConn_serializeQuery vc (writer vc) query handle args in
    match err with
    | Some e =>
        NetworkListener_removeExec (netListener vc) handle ;;
        ret (None, Some e)
    | None => ret (Some ver, None)
    end.

Definition VoltConn_Query (vc : VoltConn) (query : string)
    (args : list driver_Value) (d : Recv driver_Rows)
    : M (driver_Rows * option error) :=
  if negb (isOpen vc) then ret (RowsNil, errors_New "Connection is closed")
  else
    let! handle := next_handle in
    let! c := NetworkListener_registerQuery (netListener vc) handle in
    let! err := VoltConn_serializeQuery vc (writer vc) query handle args in
    match err with
    | Some e =>
        NetworkListener_removeQuery (netListener vc) handle ;;
        ret (RowsVolt VoltRows_zero, Some e)
    | None =>
        let! r := recv_from_listener RowsNil
                    (NetworkListener_deliverQuery (netListener vc) handle) c d in
        ret (r, None)
    end.

Definition VoltConn_QueryAsync (vc : VoltConn) (query : string)
    (args : list driver_Value) : M (option loc * option error) :=
  if negb (isOpen vc) then ret (None, errors_New "Connection is closed")
  else
    let! handle := next_handle in
    let! c := NetworkListener_registerQuery (netListener vc) handle in
    let! vqr := newVoltQueryResult vc handle c in
    VoltConn_registerQuery vc handle vqr ;;
    let! err := VoltConn_serializeQuery vc (writer vc) query handle args in
    match err with
    | Some e =>
        NetworkListener_removeQuery (netListener vc) handle ;;
        ret (None, Some e)
    | None => ret (Some vqr, None)
    end.

(** *** Drain *)

(** The first loop of [Drain]: the indices and channels of the results that
    are active. *)
Fixpoint Drain_collect (vqrs : list loc) (idx : nat)
    (idxs : list nat) (cases : list chan) : M (list nat * list chan) :=
  match vqrs with
  | [] => ret (idxs, cases)
  | vqr :: rest =>
      let! active := VoltQueryResult_isActive vqr in
      if active then
        let! ch := VoltQueryResult_channel vqr in
        Drain_collect rest (S idx) (idxs ++ [idx]) (cases ++ [ch])
      else Drain_collect rest (S idx) idxs cases
  end.

(** [s[i] = s[len(s)-1]; s = s[:len(s)-1]], with Go's bounds checks. *)
Definition swap_remove {A} (s : list A) (i : nat) : M (list A) :=
  match s !! (length s - 1)%nat with
  | Some x =>
      if decide (i < length s)%nat
      then ret (take (length s - 1) (<[i := x]> s))
      else panic "index out of range"
  | None => panic "index out of range"
  end.

(** What the body of the second loop does with the value received. *)
Definition Drain_deliver (chosenQuery : loc) (val : reflect_Value) (ok : bool)
    : M unit :=
  if negb ok then
    VoltQueryResult_setError chosenQuery
      (errors_New "Result was not available, channel was closed")
  else
    match rv_Kind val with
    | KOther =>
        VoltQueryResult_setError chosenQuery
          (errors_New "unexpected return type, not an interface")
    | KInterface =>
        let '(rows, ok) := assert_driver_Rows (rv_Interface val) in
        if negb ok then
          VoltQueryResult_setError chosenQuery
            (errors_New "unexpected return type, not driver.Rows")
        else
          let! vrows := assert_VoltRows rows in
          match VoltRows_error vrows with
          | Some e => VoltQueryResult_setError chosenQuery (Some e)
          | None => VoltQueryResult_setRows chosenQuery rows
          end
    end.

(** [reflect.Select] takes at most 65536 cases and panics when given
    more, before it waits on anything. *)
Definition reflect_Select_max : Z := 65536.

Definition too_many_cases (cases : list chan) : bool :=
  reflect_Select_max <? Z.of_nat (length cases).

Arguments too_many_cases : simpl never.

(** The second loop of [Drain]; [sched] lists what the successive calls of
    [reflect.Select] return, and a call with nothing left to return never
    does. *)
Fixpoint Drain_loop (sched : list SelectResult) (vqrs : list loc)
    (idxs : list nat) (cases : list chan) : M unit :=
  match idxs with
  | [] => ret tt
  | _ :: _ =>
      if too_many_cases cases
      then panic "reflect.Select: too many cases (max 65536)"
      else
        match sched with
        | [] => fun w => Blocked (log_event (EvSelect cases) w)
        | r :: sched' =>
            modify (log_event (EvSelect cases)) ;;
            let chosen := sel_chosen r in
            match idxs !! chosen with
            | None => panic "index out of range"
            | Some idx =>
                let! idxs' := swap_remove idxs chosen in
                let! cases' := swap_remove cases chosen in
                match vqrs !! idx with
                | None => panic "index out of range"
                | Some chosenQuery =>
                    Drain_deliver chosenQuery (sel_val r) (sel_ok r) ;;
                    Drain_loop sched' vqrs idxs' cases'
                end
            end
        end
  end.

(** [Drain(vqrs)]. *)
Definition VoltConn_Drain (vc : VoltConn) (vqrs : list loc)
    (sched : list SelectResult) : M unit :=
  let! (idxs, cases) := Drain_collect vqrs 0 [] [] in
  Drain_loop sched vqrs idxs cases.

(** [ExecutingQueries()]: a fresh slice with the values of [vc.queries], in
    the order [range] yields them. *)
Definition VoltConn_ExecutingQueries (vc : VoltConn) (seed : nat) : M (list loc) :=
  fun w => Ret (map_range seed (map_read query_maps (queries vc) w)).*2 w.

(** [DrainAll()]: the same snapshot loop as [ExecutingQueries], then
    [Drain] on it. *)
Definition VoltConn_DrainAll (vc : VoltConn) (seed : nat)
    (sched : list SelectResult) : M (list loc) :=
  let! result := VoltConn_ExecutingQueries vc seed in
  VoltConn_Drain vc result sched ;;
  ret result.

(** ** Runs of the process

    Calls are taken one at a time (callers serialise their use of a
    connection).  A call that returns, or that blocks for ever, leaves a
    world behind; a panic ends the process. *)

Definition after {A} (o : Outcome A) (w' : World) : Prop :=
  match o with
  | Ret _ w1 => w1 = w'
  | Blocked w1 => w1 = w'
  | Panic _ => False
  end.

Definition Stream_lose (p : loc) : M unit :=
  let! s := deref streams p in
  store streams set_streams p
    {| st_isTCP := st_isTCP s; st_closed := st_closed s; st_peerGone := true;
       st_out := st_out s |}.

(** One step of the process: the network produces a stream ([step_dial],
    the dial of [OpenConn]) or loses one, the listener goroutine leaves its
    loop or delivers the response for a handle, or the caller makes one call
    of the package's interface;
    [step_open] is the [newVoltConn] that ends [OpenConn]. *)
Inductive step : World → World → Prop :=
| step_dial s w w' :
    after (alloc streams set_streams s w) w' → step w w'
| step_lose s w w' :
    after (Stream_lose s w) w' → step w w'
| step_loopExit nl w w' :
    after (NetworkListener_loopExit nl w) w' → step w w'
| step_deliverExec nl handle w w' :
    after (NetworkListener_deliverExec nl handle w) w' → step w w'
| step_deliverQuery nl handle w w' :
    after (NetworkListener_deliverQuery nl handle w) w' → step w w'
| step_open rd wr cd w w' :
    after (newVoltConn rd wr cd w) w' → step w w'
| step_Close p w w' :
    after (via p VoltConn_Close w) w' → step w w'
| step_Exec p query args d w w' :
    after (via p (λ vc, VoltConn_Exec vc query args d) w) w' → step w w'
| step_ExecAsync p query args w w' :
    after (via p (λ vc, VoltConn_ExecAsync vc query args) w) w' → step w w'
| step_Query p query args d w w' :
    after (via p (λ vc, VoltConn_Query vc query args d) w) w' → step w w'
| step_QueryAsync p query args w w' :
    after (via p (λ vc, VoltConn_QueryAsync vc query args) w) w' → step w w'
| step_Drain p vqrs sched w w' :
    after (via p (λ vc, VoltConn_Drain vc vqrs sched) w) w' → step w w'
| step_DrainAll p seed sched w w' :
    after (via p (λ vc, VoltConn_DrainAll vc seed sched) w) w' → step w w'
| step_ExecutingQueries p seed w w' :
    after (via p (λ vc, VoltConn_ExecutingQueries vc seed) w) w' → step w w'
| step_Rows vqr d w w' :
    after (VoltQueryResult_Rows vqr d w) w' → step w w'
| step_Result ver d w w' :
    after (VoltExecResult_Result ver d w) w' → step w w'.

(** The worlds a process can be in. *)
Definition reachable (w : World) : Prop := rtc step World_init w.

End Conn.

Arguments VoltConn_serializeQuery {driver_Value} serializeStatement.
Arguments VoltConn_Exec {driver_Value} serializeStatement.
Arguments VoltConn_ExecAsync {driver_Value} serializeStatement.
Arguments VoltConn_Query {driver_Value} serializeStatement.
Arguments VoltConn_QueryAsync {driver_Value} serializeStatement.
Arguments step {driver_Value} serializeStatement map_range.
Arguments reachable {driver_Value} serializeStatement map_range.

(** ** Properties of worlds *)

(** The handles handed out so far, oldest first. *)
Definition handles_issued (w : World) : list Z := reverse (handle_log w).


(** Every pending result held in a connection's map is active, sits under
    its own handle, and belongs to that map. *)
Definition queries_hold_active (w : World) : Prop :=
  ∀ m o k p, query_maps w !! m = Some o → o !! k = Some p →
    ∃ f, vqr_heap w !! p = Some f ∧ vqr_active f = true ∧
         vqr_han f = k ∧ queries (vqr_conn f) = m.

Definition execs_hold_active (w : World) : Prop :=
  ∀ m o k p, exec_maps w !! m = Some o → o !! k = Some p →
    ∃ f, ver_heap w !! p = Some f ∧ ver_active f = true ∧
         ver_han f = k ∧ execs (ver_conn f) = m.

(** The wait group inside every connection struct has never been added to. *)
Definition conns_unwaited (w : World) : Prop :=
  ∀ p vc, conn_heap w !! p = Some vc → nlwg vc = WaitGroup_zero.

(** The handle counter and its ghost log. *)
Definition handles_counted (w : World) : Prop :=
  qHandle w = wrap64 (Z.of_nat (length (handle_log w))) ∧
  ∀ i h, handles_issued w !! i = Some h → h = wrap64 (Z.of_nat (S i)).

Definition is_resolved_query (w : World) (p : loc) : Prop :=
  ∃ f, vqr_heap w !! p = Some f ∧ vqr_active f = false.

Definition is_active_query (w : World) (p : loc) : Prop :=
  ∃ f, vqr_heap w !! p = Some f ∧ vqr_active f = true.

(** The stored outcome of a resolved query result: the error if one is
    stored, the rows otherwise; of an exec result: both fields. *)
Definition query_outcome (f : VoltQueryResult) : driver_Rows * option error :=
  match vqr_err f with
  | Some e => (RowsNil, Some e)
  | None => (vqr_rows f, None)
  end.

Definition exec_outcome (f : VoltExecResult) : driver_Result * option error :=
  (ver_result f, ver_err f).

(** The invariant of the process state. *)
Definition Inv (w : World) : Prop :=
  queries_hold_active w ∧ execs_hold_active w ∧
  conns_unwaited w ∧ handles_counted w.

(** A call preserves [I] when every world it leaves behind satisfies it. *)
Definition preserves {A} (I : World → Prop) (m : M A) : Prop :=
  ∀ w w', I w → after (m w) w' → I w'.

(** The part of the world the invariant reads. *)
Definition same_core (w w' : World) : Prop :=
  qHandle w' = qHandle w ∧ handle_log w' = handle_log w ∧
  conn_heap w' = conn_heap w ∧ exec_maps w' = exec_maps w ∧
  query_maps w' = query_maps w ∧ vqr_heap w' = vqr_heap w ∧
  ver_heap w' = ver_heap w.

Definition keeps_core {A} (m : M A) : Prop :=
  ∀ w w', after (m w) w' → same_core w w'.

Definition is_resolved_exec (w : World) (p : loc) : Prop :=
  ∃ f, ver_heap w !! p = Some f ∧ ver_active f = false.

(** The error a call hands back is the closed-connection error or the
    serializer's; nothing else reaches the caller. *)
Definition send_error {driver_Value : Type}
    (serializeStatement : string → Z → list driver_Value → list Z * option error)
    (vc : VoltConn) (query : string)
    (args : list driver_Value) (w : World) (err : option error) : Prop :=
  err = None ∨
  (isOpen vc = false ∧ err = errors_New "Connection is closed") ∨
  (isOpen vc = true ∧
   err = snd (serializeStatement query (atomic_AddInt64 (qHandle w) 1) args)).

(** A setter of a query result, when it returns, has rewritten that one
    result as resolved and left every other result and the ghost log of
    channel operations alone. *)
Definition resolves (p : loc) (w w' : World) : Prop :=
  ∃ f f', vqr_heap w !! p = Some f ∧
          vqr_heap w' = <[p := f']> (vqr_heap w) ∧
          vqr_active f' = false ∧ events w' = events w.

(** A [reflect.Select] outcome on which the body of the second loop of
    [Drain] panics: a value behind [driver.Rows] that is not a [VoltRows]. *)
Definition delivery_panics (r : SelectResult) : bool :=
  sel_ok r &&
  match rv_Kind (sel_val r), rv_Interface (sel_val r) with
  | KInterface, DynRows (RowsForeign _) => true
  | _, _ => false
  end.

(** [sched] answers [n] calls of [reflect.Select], each time with a case
    that is still waited on. *)
Fixpoint sched_serves (n : nat) (sched : list SelectResult) : Prop :=
  match n, sched with
  | O, _ => True
  | S k, [] => False
  | S k, r :: rest =>
      (sel_chosen r < S k)%nat ∧ delivery_panics r = false ∧ sched_serves k rest
  end.

(** ** Observing an outcome *)

Definition world_of {A} (o : Outcome A) : World :=
  match o with
  | Ret _ w => w
  | Blocked w => w
  | Panic _ => World_init
  end.

Definition returns_or_blocks {A} (o : Outcome A) : bool :=
  match o with
  | Panic _ => false
  | _ => true
  end.

(** What a call returned, if it did. *)
Definition result_of {A} (o : Outcome A) : option A :=
  match o with
  | Ret a _ => Some a
  | _ => None
  end.

(** ** A concrete process, for the examples

    A serializer that rejects the empty procedure name, one TCP stream, one
    connection opened on it. *)

Definition demo_serialize (procedure : string) (handle : Z) (args : list Z)
    : list Z * option error :=
  if decide (procedure = ""%string) then ([], Some "no procedure"%string)
  else (handle :: args, None).

Definition demo_range (seed : nat) (m : gmap Z loc) : list (Z * loc) :=
  map_to_list m.

Definition demo_stream : Stream :=
  {| st_isTCP := true; st_closed := false; st_peerGone := false; st_out := [] |}.

(** The world after [OpenConn]: stream 1, connection 1 around it. *)
Definition demo_dialled : World :=
  world_of (alloc streams set_streams demo_stream World_init).

Definition demo_open : World :=
  world_of (newVoltConn (Some 1%positive) (Some 1%positive) None demo_dialled).

(** The struct behind the caller's pointer. *)
Definition demo_conn : VoltConn :=
  {| reader := Some 1%positive; writer := Some 1%positive; connData := None;
     execs := 1%positive; queries := 1%positive; netListener := 1%positive;
     nlwg := WaitGroup_zero; isOpen := true |}.

Definition demo_rows : VoltRows := {| vr_tables := [[1; 2]]; vr_err := None |}.
Definition demo_rows_failed : VoltRows :=
  {| vr_tables := []; vr_err := Some "procedure failed"%string |}.
Definition demo_result : VoltResult := {| vres_rowsAff := [1] |}.

(** One query result and one exec result, both asked for asynchronously and
    both read once. *)
Definition demo_resolved : World :=
  world_of ((via 1%positive (λ vc, VoltConn_QueryAsync demo_serialize vc "P" [7]) ;;
             via 1%positive (λ vc, VoltConn_ExecAsync demo_serialize vc "Q" [8]) ;;
             VoltQueryResult_Rows 1%positive (Delivered (RowsVolt demo_rows)) ;;
             VoltExecResult_Result 1%positive (Delivered (ResultVolt demo_result)))
            demo_open).

(** The peer of the stream has gone away: every write fails from now on. *)
Definition demo_open_peer_gone : World :=
  world_of (Stream_lose 1%positive demo_open).

(** The caller has closed connection 1. *)
Definition demo_closed : World :=
  world_of (via 1%positive VoltConn_Close demo_open).

(** Two queries asked for asynchronously, of which the first has been read:
    result 1 is resolved, result 2 is pending under handle 2. *)
Definition demo_asked_once : World :=
  world_of (via 1%positive (λ vc, VoltConn_QueryAsync demo_serialize vc "P" [7])
              demo_open).

Definition demo_asked_twice : World :=
  world_of (via 1%positive (λ vc, VoltConn_QueryAsync demo_serialize vc "Q" [8])
              demo_asked_once).

Definition demo_pending : World :=
  world_of (VoltQueryResult_Rows 1%positive (Delivered (RowsVolt demo_rows))
              demo_asked_twice).

(** A synchronous query the serializer refuses: it takes a handle and
    returns at once. *)
Definition demo_refused_query (w : World) : World :=
  world_of (via 1%positive
              (λ vc, VoltConn_Query demo_serialize vc "" [] NeverReady) w).

(** Three queries asked for asynchronously; the second has been read and is
    resolved, the first and the third are pending. *)
Definition demo_three : World :=
  world_of ((via 1%positive (λ vc, VoltConn_QueryAsync demo_serialize vc "P" [7]) ;;
             via 1%positive (λ vc, VoltConn_QueryAsync demo_serialize vc "Q" [8]) ;;
             via 1%positive (λ vc, VoltConn_QueryAsync demo_serialize vc "R" [9]) ;;
             VoltQueryResult_Rows 2%positive (Delivered (RowsVolt demo_rows)))
            demo_open).

(** The third query completes first, then the first one, with an error. *)
Definition demo_sched : list SelectResult :=
  [ {| sel_chosen := 1;
       sel_val := {| rv_Kind := KInterface;
                     rv_Interface := DynRows (RowsVolt demo_rows) |};
       sel_ok := true |};
    {| sel_chosen := 0;
       sel_val := {| rv_Kind := KInterface;
                     rv_Interface := DynRows (RowsVolt demo_rows_failed) |};
       sel_ok := true |} ].

(** A connection struct that is not open, as [VoltConn{}] is. *)
Definition demo_conn_shut : VoltConn :=
  {| reader := None; writer := None; connData := None; execs := 1%positive;
     queries := 1%positive; netListener := 1%positive; nlwg := WaitGroup_zero;
     isOpen := false |}.

(** ** Further properties of worlds *)

(** Everything but the query results, the [queries] maps and the ghost log
    of channel operations is the same in [w'] as in [w]. *)
Definition only_queries_changed (w w' : World) : Prop :=
  qHandle w' = qHandle w ∧ handle_log w' = handle_log w ∧
  conn_heap w' = conn_heap w ∧ exec_maps w' = exec_maps w ∧
  ver_heap w' = ver_heap w ∧ listeners w' = listeners w ∧
  streams w' = streams w ∧ chan_count w' = chan_count w.

(** The two slices of [Drain] go together: the case at a position is the
    channel of the result whose index is at that position. *)
Definition aligned (w : World) (vqrs : list loc) (idxs : list nat)
    (cases : list chan) : Prop :=
  length idxs = length cases ∧
  ∀ k idx c, idxs !! k = Some idx → cases !! k = Some c →
    ∃ p f, vqrs !! idx = Some p ∧ vqr_heap w !! p = Some f ∧ vqr_ch f = c.

(** What [Drain] stores on a result for one outcome of [reflect.Select],
    when the body of the loop does not panic: the rows and the error the
    result holds afterwards. *)
Definition drained_outcome (f : VoltQueryResult) (val : reflect_Value)
    (ok : bool) : driver_Rows * option error :=
  if negb ok then
    (vqr_rows f, Some "Result was not available, channel was closed"%string)
  else
    match rv_Kind val, rv_Interface val with
    | KOther, _ =>
        (vqr_rows f, Some "unexpected return type, not an interface"%string)
    | KInterface, DynRows (RowsVolt r) =>
        match vr_err r with
        | Some e => (vqr_rows f, Some e)
        | None => (RowsVolt r, vqr_err f)
        end
    | KInterface, _ =>
        (vqr_rows f, Some "unexpected return type, not driver.Rows"%string)
    end.

(** The identity of a result: its connection, handle and channel. *)
Definition same_identity (f f' : VoltQueryResult) : Prop :=
  vqr_conn f' = vqr_conn f ∧ vqr_han f' = vqr_han f ∧ vqr_ch f' = vqr_ch f.

(** What a run of [Drain]'s loop may change: only query results in [T] are
    rewritten, no result changes identity, and the [queries] maps only lose
    entries. *)
Definition Drain_frame (T : loc → Prop) (w w' : World) : Prop :=
  only_queries_changed w w' ∧
  (∀ q, ¬ T q → vqr_heap w' !! q = vqr_heap w !! q) ∧
  (∀ m k p, map_read query_maps m w' !! k = Some p →
            map_read query_maps m w !! k = Some p) ∧
  (∀ q f', vqr_heap w' !! q = Some f' →
           ∃ f, vqr_heap w !! q = Some f ∧ same_identity f f').

(** The world [Drain] leaves when the third query completes first. *)
Definition demo_three_drained : World :=
  world_of (VoltConn_Drain demo_conn [1; 2; 3]%positive demo_sched demo_three).

(** A call leaves the handle counter and its log alone. *)
Definition keeps_handles {A} (m : M A) : Prop :=
  ∀ w w', after (m w) w' →
    qHandle w' = qHandle w ∧ handle_log w' = handle_log w.

(** [DrainAll] on the connection with one pending query, whose rows then
    arrive. *)
Definition demo_one_arrival : list SelectResult :=
  [ {| sel_chosen := 0;
       sel_val := {| rv_Kind := KInterface;
                     rv_Interface := DynRows (RowsVolt demo_rows) |};
       sel_ok := true |} ].

Definition demo_pending_drained : World :=
  world_of (VoltConn_DrainAll demo_range demo_conn 0 demo_one_arrival
              demo_pending).

(** ** The handshake of [OpenConn] *)

(** What the network answers on one occasion: the outcome of [net.DialTCP]
    (a stream, whose peer may already be gone, or an error) and of reading
    the login response (a message, an error, or nothing at all). *)
Inductive DialOutcome :=
| DialOk (peerGone : bool)
| DialErr (e : error).

Inductive ReadOutcome :=
| ReadOk (buf : list Z)
| ReadErr (e : error)
| ReadNever.

Section Open.

(** The collaborators of the handshake, none of them in conn.go:
    [net.ResolveTCPAddr] (its error, if any; the address itself only travels
    on to the dial), [serializeLoginMessage], [deserializeLoginResponse]. *)
Variable net_ResolveTCPAddr : string → option error.
Variable serializeLoginMessage : string → string → list Z * option error.
Variable deserializeLoginResponse :
  list Z → option connectionData * option error.

(** Modelled from the spec: [writeProtoVersion] and
    [writePasswordHashVersion], declared outside conn.go, append one byte
    each ("a 1-byte protocol-version and 1-byte password-hash-version field,
    counted in the length"). *)
Variable protoVersion : Z.
Variable passwordHashVersion : Z.

Definition writeProtoVersion (buf : list Z) : list Z := buf ++ [protoVersion].
Definition writePasswordHashVersion (buf : list Z) : list Z :=
  buf ++ [passwordHashVersion].

(** [writeLoginMessage]: one [io.Copy] to the writer, results dropped; the
    function returns nothing. *)
Definition writeLoginMessage (wr : option loc) (buf : list Z) : M unit :=
  let length := Z.of_nat (length buf) + 2 in
  let netmsg := writeInt [] (wrap32 length) in
  let netmsg := writeProtoVersion netmsg in
  let netmsg := writePasswordHashVersion netmsg in
  let netmsg := netmsg ++ buf in
  io_Copy wr netmsg ;;
  ret tt.

(** Modelled from the spec: [readMessage], declared outside conn.go, "blocks
    until a full length-prefixed frame is available" and fails "on stream
    closure or malformed length". *)
Definition readMessage (rd : loc) (r : ReadOutcome)
    : M (list Z * option error) :=
  fun w => match r with
           | ReadOk buf => Ret (buf, None) w
           | ReadErr e => Ret ([], Some e) w
           | ReadNever => Blocked w
           end.

Definition readLoginResponse (rd : loc) (r : ReadOutcome)
    : M (option connectionData * option error) :=
  let! (buf, err) := readMessage rd r in
  match err with
  | Some e => ret (None, Some e)
  | None => ret (deserializeLoginResponse buf)
  end.

(** [OpenConn(connInfo)]. *)
Definition OpenConn (connInfo : string) (dial : DialOutcome) (r : ReadOutcome)
    : M (option loc * option error) :=
  match net_ResolveTCPAddr connInfo with
  | Some _ => ret (None, Some ("Error resolving " +:+ connInfo +:+ "."))
  | None =>
      match dial with
      | DialErr e => ret (None, Some e)
      | DialOk gone =>
          let! tcpConn :=
            alloc streams set_streams
              {| st_isTCP := true; st_closed := false; st_peerGone := gone;
                 st_out := [] |} in
          let '(login, err) := serializeLoginMessage "" "" in
          match err with
          | Some e => ret (None, Some e)
          | None =>
              writeLoginMessage (Some tcpConn) login ;;
              let! (connData, err) := readLoginResponse tcpConn r in
              match err with
              | Some e => ret (None, Some e)
              | None =>
                  let! vc := newVoltConn (Some tcpConn) (Some tcpConn) connData in
                  ret (Some vc, None)
              end
          end
      end
  end.

End Open.

(** The unsigned integer a reader of the wire takes from a big-endian byte
    string, as for the 4-byte length prefix of a frame. *)
Definition be_uint (bs : list Z) : Z :=
  fold_left (λ acc b, acc * 256 + b) bs 0.

(** A handshake for the examples: any address resolves, the login message is
    three bytes, every response decodes. *)
Definition demo_resolve (connInfo : string) : option error :=
  if decide (connInfo = ""%string) then Some "missing address"%string else None.
Definition demo_login (user password : string) : list Z * option error :=
  ([10; 11; 12], None).
Definition demo_decode (buf : list Z) : option connectionData * option error :=
  match buf with
  | [] => (None, Some "short login response"%string)
  | b :: _ =>
      (Some {| hostId := b; connId := 0; leaderAddr := 0;
               buildString := "v" |}, None)
  end.

(** [Close] through the caller's pointer while one query is pending. *)
Definition demo_asked_then_closed : World :=
  world_of (via 1%positive VoltConn_Close demo_asked_once).

(** * Verification *)

(** ** The outcome monad *)

Lemma bind_Ret_inv {A B} (m : M A) (k : A → M B) w b w' :
  bind m k w = Ret b w' → ∃ a w1, m w = Ret a w1 ∧ k a w1 = Ret b w'.
Proof.
  unfold bind. destruct (m w) as [a w1| |]; [eauto | discriminate..].
Qed.

Lemma bind_Ret {A B} (m : M A) (k : A → M B) w a w1 :
  m w = Ret a w1 → bind m k w = k a w1.
Proof. unfold bind. by intros ->. Qed.

Lemma bind_after_inv {A B} (m : M A) (k : A → M B) w w' :
  after (bind m k w) w' →
  m w = Blocked w' ∨ ∃ a w1, m w = Ret a w1 ∧ after (k a w1) w'.
Proof.
  unfold bind. destruct (m w) as [a w1| |w1]; simpl.
  - eauto.
  - done.
  - intros ->. by left.
Qed.

Lemma deref_Ret {A} (heap : World → gmap loc A) p a w :
  heap w !! p = Some a → deref heap p w = Ret a w.
Proof. unfold deref. by intros ->. Qed.

(** ** Reading a resolved result *)

Lemma Rows_resolved vqr f d w :
  vqr_heap w !! vqr = Some f → vqr_active f = false →
  VoltQueryResult_Rows vqr d w = Ret (query_outcome f) w.
Proof.
  intros Hf Hact. unfold VoltQueryResult_Rows.
  rewrite (bind_Ret _ _ _ _ _ (deref_Ret vqr_heap _ _ _ Hf)).
  rewrite Hact. unfold query_outcome. simpl. by destruct (vqr_err f).
Qed.

Lemma Result_resolved ver f d w :
  ver_heap w !! ver = Some f → ver_active f = false →
  VoltExecResult_Result ver d w = Ret (exec_outcome f) w.
Proof.
  intros Hf Hact. unfold VoltExecResult_Result.
  rewrite (bind_Ret _ _ _ _ _ (deref_Ret ver_heap _ _ _ Hf)).
  by rewrite Hact.
Qed.

(** C6.  Reading a resolved result is repeatable: [Rows()] on a resolved
    query result and [Result()] on a resolved exec result return the stored
    outcome whatever the channel holds (so without receiving or blocking)
    and leave the world as it was, so that a second read returns the same
    outcome again. *)
Theorem resolved_read_repeatable :
  (∀ w vqr f d1 d2,
     vqr_heap w !! vqr = Some f → vqr_active f = false →
     VoltQueryResult_Rows vqr d1 w = Ret (query_outcome f) w ∧
     (VoltQueryResult_Rows vqr d1 ;; VoltQueryResult_Rows vqr d2) w
       = Ret (query_outcome f) w) ∧
  (∀ w ver f d1 d2,
     ver_heap w !! ver = Some f → ver_active f = false →
     VoltExecResult_Result ver d1 w = Ret (exec_outcome f) w ∧
     (VoltExecResult_Result ver d1 ;; VoltExecResult_Result ver d2) w
       = Ret (exec_outcome f) w).
Proof.
  split.
  - intros w vqr f d1 d2 Hf Hact.
    pose proof (Rows_resolved vqr f d1 w Hf Hact) as H1.
    split; [done |].
    rewrite (bind_Ret _ _ _ _ _ H1). by apply Rows_resolved.
  - intros w ver f d1 d2 Hf Hact.
    pose proof (Result_resolved ver f d1 w Hf Hact) as H1.
    split; [done |].
    rewrite (bind_Ret _ _ _ _ _ H1). by apply Result_resolved.
Qed.

Lemma resolved_read_repeatable_witness :
  (VoltQueryResult_Rows 1%positive NeverReady ;;
   VoltQueryResult_Rows 1%positive ChanClosed) demo_resolved
    = Ret (RowsVolt demo_rows, None) demo_resolved ∧
  (VoltExecResult_Result 1%positive NeverReady ;;
   VoltExecResult_Result 1%positive ChanClosed) demo_resolved
    = Ret (ResultVolt demo_result, None) demo_resolved.
Proof.
  split.
  - refine (proj2 (proj1 resolved_read_repeatable demo_resolved 1%positive
      {| vqr_conn := _; vqr_han := 1; vqr_ch := 1%positive;
         vqr_rows := RowsVolt demo_rows; vqr_err := None; vqr_active := false |}
      NeverReady ChanClosed _ _)); reflexivity.
  - refine (proj2 (proj2 resolved_read_repeatable demo_resolved 1%positive
      {| ver_conn := _; ver_han := 2; ver_ch := 2%positive;
         ver_result := ResultVolt demo_result; ver_err := None;
         ver_active := false |}
      NeverReady ChanClosed _ _)); reflexivity.
Defined.

(** ** Resolving a result *)

Lemma setRows_spec vqr f rows w :
  vqr_heap w !! vqr = Some f →
  VoltQueryResult_setRows vqr rows w
  = map_delete query_maps set_query_maps (queries (vqr_conn f)) (vqr_han f)
      (set_vqr_heap
         (<[vqr := {| vqr_conn := vqr_conn f; vqr_han := vqr_han f;
                      vqr_ch := vqr_ch f; vqr_rows := rows;
                      vqr_err := vqr_err f; vqr_active := false |}]> (vqr_heap w)) w).
Proof.
  intros Hf. unfold VoltQueryResult_setRows, bind, deref. by rewrite Hf.
Qed.

Lemma query_setError_spec vqr f err w :
  vqr_heap w !! vqr = Some f →
  VoltQueryResult_setError vqr err w
  = map_delete query_maps set_query_maps (queries (vqr_conn f)) (vqr_han f)
      (set_vqr_heap
         (<[vqr := {| vqr_conn := vqr_conn f; vqr_han := vqr_han f;
                      vqr_ch := vqr_ch f; vqr_rows := vqr_rows f;
                      vqr_err := err; vqr_active := false |}]> (vqr_heap w)) w).
Proof.
  intros Hf. unfold VoltQueryResult_setError, bind, deref. by rewrite Hf.
Qed.

Lemma map_delete_returns heap set m k w :
  ∃ w', map_delete heap set m k w = Ret tt w'.
Proof. unfold map_delete. destruct (heap w !! m); eauto. Qed.

Lemma map_delete_query_frame m k w w' :
  map_delete query_maps set_query_maps m k w = Ret tt w' →
  vqr_heap w' = vqr_heap w ∧ ver_heap w' = ver_heap w ∧
  exec_maps w' = exec_maps w ∧ conn_heap w' = conn_heap w ∧
  listeners w' = listeners w ∧ streams w' = streams w ∧
  qHandle w' = qHandle w ∧ handle_log w' = handle_log w ∧
  events w' = events w ∧ chan_count w' = chan_count w.
Proof.
  unfold map_delete. destruct (query_maps w !! m); intros [= <-]; done.
Qed.

Lemma map_delete_exec_frame m k w w' :
  map_delete exec_maps set_exec_maps m k w = Ret tt w' →
  vqr_heap w' = vqr_heap w ∧ ver_heap w' = ver_heap w ∧
  query_maps w' = query_maps w ∧ conn_heap w' = conn_heap w ∧
  listeners w' = listeners w ∧ streams w' = streams w ∧
  qHandle w' = qHandle w ∧ handle_log w' = handle_log w ∧
  events w' = events w ∧ chan_count w' = chan_count w.
Proof.
  unfold map_delete. destruct (exec_maps w !! m); intros [= <-]; done.
Qed.

Lemma map_delete_gone heap set m k w w'
    (Hset : ∀ h w0, heap (set h w0) = h) :
  map_delete heap set m k w = Ret tt w' → map_read heap m w' !! k = None.
Proof.
  unfold map_delete, map_read. destruct (heap w !! m) as [o|] eqn:Hm.
  - intros [= <-]. rewrite Hset, lookup_insert_eq. simpl. apply lookup_delete_eq.
  - intros [= <-]. by rewrite Hm.
Qed.

(** Resolving a query result a second time goes through: [setRows] and
    [setError] store the new outcome whatever the state of the result. *)
Lemma query_resolve_unguarded vqr f w :
  vqr_heap w !! vqr = Some f →
  (∀ rows, ∃ w' f', VoltQueryResult_setRows vqr rows w = Ret tt w' ∧
      vqr_heap w' !! vqr = Some f' ∧ vqr_rows f' = rows ∧ vqr_active f' = false) ∧
  (∀ err, ∃ w' f', VoltQueryResult_setError vqr err w = Ret tt w' ∧
      vqr_heap w' !! vqr = Some f' ∧ vqr_err f' = err ∧ vqr_active f' = false).
Proof.
  intros Hf. split.
  - intros rows. rewrite (setRows_spec _ _ _ _ Hf).
    edestruct map_delete_returns as [w' Hw']. exists w'. eexists.
    split; [exact Hw' |].
    apply map_delete_query_frame in Hw' as (-> & _). simpl.
    by rewrite lookup_insert_eq.
  - intros err. rewrite (query_setError_spec _ _ _ _ Hf).
    edestruct map_delete_returns as [w' Hw']. exists w'. eexists.
    split; [exact Hw' |].
    apply map_delete_query_frame in Hw' as (-> & _). simpl.
    by rewrite lookup_insert_eq.
Qed.

(** Only [setResult] checks: on a resolved exec result it panics. *)
Lemma setResult_guarded ver f result w :
  ver_heap w !! ver = Some f → ver_active f = false →
  VoltExecResult_setResult ver result w
  = Panic "Tried to set result on inactive exec result".
Proof.
  intros Hf Hact. unfold VoltExecResult_setResult, bind, deref.
  by rewrite Hf, Hact.
Qed.

Lemma exec_setError_unguarded ver f err w :
  ver_heap w !! ver = Some f →
  ∃ w' f', VoltExecResult_setError ver err w = Ret tt w' ∧
    ver_heap w' !! ver = Some f' ∧ ver_err f' = err ∧ ver_active f' = false ∧
    ver_result f' = ver_result f.
Proof.
  intros Hf. unfold VoltExecResult_setError, bind, deref, store. rewrite Hf.
  unfold VoltConn_removeExec.
  edestruct (map_delete_returns exec_maps set_exec_maps) as [w1 Hw1].
  rewrite Hw1. eexists _, _. split; [reflexivity |]. simpl.
  by rewrite lookup_insert_eq.
Qed.

(** C2, evaluated.  A query result that was resolved with rows accepts a
    second [setRows] and a [setError]: both return normally and replace the
    stored outcome, which a later read reports.  The same holds for
    [setError] on a resolved exec result.  Of the four setters only
    [setResult] panics on a resolved result. *)
Theorem second_resolution_overwrites :
  result_of (VoltQueryResult_Rows 1%positive NeverReady demo_resolved)
    = Some (RowsVolt demo_rows, None) ∧
  result_of ((VoltQueryResult_setRows 1%positive (RowsVolt demo_rows_failed) ;;
              VoltQueryResult_Rows 1%positive NeverReady) demo_resolved)
    = Some (RowsVolt demo_rows_failed, None) ∧
  result_of ((VoltQueryResult_setError 1%positive (Some "late"%string) ;;
              VoltQueryResult_Rows 1%positive NeverReady) demo_resolved)
    = Some (RowsNil, Some "late"%string) ∧
  result_of ((VoltExecResult_setError 1%positive (Some "late"%string) ;;
              VoltExecResult_Result 1%positive NeverReady) demo_resolved)
    = Some (ResultVolt demo_result, Some "late"%string) ∧
  VoltExecResult_setResult 1%positive ResultNil demo_resolved
    = Panic "Tried to set result on inactive exec result".
Proof. repeat split; vm_compute; reflexivity. Qed.

(** ** Sending a request *)

Lemma next_handle_spec w :
  next_handle w
  = Ret (atomic_AddInt64 (qHandle w) 1)
        (set_qHandle (atomic_AddInt64 (qHandle w) 1) w).
Proof. reflexivity. Qed.

Lemma io_Copy_returns p s data w :
  streams w !! p = Some s →
  ∃ r w', io_Copy (Some p) data w = Ret r w' ∧
    (Stream_failing s = true → w' = w ∧ is_Some (snd r)).
Proof.
  intros Hs. unfold io_Copy, Stream_Write, bind, deref. rewrite Hs.
  destruct (Stream_failing s); simpl.
  - eexists _, _. split; [reflexivity |]. intros _. split; [done | by eexists].
  - eexists _, _. split; [reflexivity |]. done.
Qed.

Section Calls.

Context {driver_Value : Type}.
Variable serializeStatement :
  string → Z → list driver_Value → list Z * option error.

Lemma serializeQuery_returns vc wr s procedure handle args w :
  streams w !! wr = Some s →
  ∃ w', VoltConn_serializeQuery serializeStatement vc (Some wr)
          procedure handle args w
        = Ret (snd (serializeStatement procedure handle args)) w' ∧
        (Stream_failing s = true → w' = w).
Proof.
  intros Hs. unfold VoltConn_serializeQuery.
  destruct (serializeStatement procedure handle args) as [call [e|]]; cbn [snd].
  - exists w. split; [reflexivity | done].
  - unfold bind.
    match goal with
    | |- context [io_Copy (Some wr) ?data w] =>
        destruct (io_Copy_returns wr s data w Hs) as (r & w' & Hr & Hfail)
    end.
    exists w'. rewrite Hr. split; [done |].
    intros Hf. by destruct (Hfail Hf).
Qed.

Lemma serializeQuery_error vc wr procedure handle args w err w' :
  VoltConn_serializeQuery serializeStatement vc wr procedure handle args w
    = Ret err w' →
  err = snd (serializeStatement procedure handle args).
Proof.
  unfold VoltConn_serializeQuery.
  destruct (serializeStatement procedure handle args) as [call [e|]]; simpl.
  - by intros [= <- _].
  - intros H. apply bind_Ret_inv in H as (r & w1 & _ & H). by injection H.
Qed.

Lemma recv_from_listener_Ret {A} (zero : A) deliver c d w y w' :
  recv_from_listener zero deliver c d w = Ret y w' →
  d = Delivered y ∨ (d = ChanClosed ∧ y = zero).
Proof.
  unfold recv_from_listener. destruct d as [a | |]; [| | done].
  - intros H. apply bind_Ret_inv in H as ([] & w1 & _ & H).
    unfold chan_recv in H. injection H as <- _. by left.
  - unfold chan_recv. intros [= <- _]. by right.
Qed.

Ltac open_call H :=
  match type of H with
  | context [isOpen ?vc] =>
      destruct (isOpen vc) eqn:?; simpl in H;
      [ | injection H as <- <- <-; right; left; done ]
  end;
  unfold bind at 1 in H; rewrite next_handle_spec in H.

Ltac split_bind H :=
  let E := fresh "E" in
  apply bind_Ret_inv in H as (? & ? & E & H).

Lemma Exec_error vc query args d w r err w' :
  VoltConn_Exec serializeStatement vc query args d w = Ret (r, err) w' →
  send_error serializeStatement vc query args w err.
Proof.
  unfold VoltConn_Exec. intros H. open_call H.
  split_bind H. split_bind H.
  apply serializeQuery_error in E0. destruct x1 as [e|].
  - split_bind H. injection H as <- <- <-. right; right. done.
  - split_bind H. injection H as <- <- <-. by left.
Qed.

Lemma Query_error vc query args d w r err w' :
  VoltConn_Query serializeStatement vc query args d w = Ret (r, err) w' →
  send_error serializeStatement vc query args w err.
Proof.
  unfold VoltConn_Query. intros H. open_call H.
  split_bind H. split_bind H.
  apply serializeQuery_error in E0. destruct x1 as [e|].
  - split_bind H. injection H as <- <- <-. right; right. done.
  - split_bind H. injection H as <- <- <-. by left.
Qed.

Lemma ExecAsync_error vc query args w r err w' :
  VoltConn_ExecAsync serializeStatement vc query args w = Ret (r, err) w' →
  send_error serializeStatement vc query args w err.
Proof.
  unfold VoltConn_ExecAsync. intros H. open_call H.
  split_bind H. split_bind H. split_bind H. split_bind H.
  apply serializeQuery_error in E2. destruct x5 as [e|].
  - split_bind H. injection H as <- <- <-. right; right. done.
  - injection H as <- <- <-. by left.
Qed.

Lemma QueryAsync_error vc query args w r err w' :
  VoltConn_QueryAsync serializeStatement vc query args w = Ret (r, err) w' →
  send_error serializeStatement vc query args w err.
Proof.
  unfold VoltConn_QueryAsync. intros H. open_call H.
  split_bind H. split_bind H. split_bind H. split_bind H.
  apply serializeQuery_error in E2. destruct x5 as [e|].
  - split_bind H. injection H as <- <- <-. right; right. done.
  - injection H as <- <- <-. by left.
Qed.

End Calls.

(** C10.  [serializeQuery] returns exactly the error of
    [serializeStatement]: with any stream behind the writer, healthy or
    failing, it returns, and its error is non-nil if and only if the
    serializer's is (it is the serializer's).  The outcome of the two
    [io.Copy] calls is dropped, so a failed write is never reported; and on
    an open connection an error returned by [Exec], [ExecAsync], [Query] or
    [QueryAsync] is the serializer's error for the handle just allocated. *)
Theorem serializeQuery_reports_only_serializer_errors
    {driver_Value : Type}
    (serializeStatement : string → Z → list driver_Value → list Z * option error)
    (vc : VoltConn) (wr : loc) (s : Stream) (procedure : string) (handle : Z)
    (args : list driver_Value) (w : World) :
  streams w !! wr = Some s →
  (∃ w', VoltConn_serializeQuery serializeStatement vc (Some wr)
           procedure handle args w
         = Ret (snd (serializeStatement procedure handle args)) w' ∧
         (Stream_failing s = true → w' = w)) ∧
  (isOpen vc = true → ∀ e w',
     ((∃ d r, VoltConn_Exec serializeStatement vc procedure args d w
                = Ret (r, Some e) w') ∨
      (∃ r, VoltConn_ExecAsync serializeStatement vc procedure args w
              = Ret (r, Some e) w') ∨
      (∃ d r, VoltConn_Query serializeStatement vc procedure args d w
                = Ret (r, Some e) w') ∨
      (∃ r, VoltConn_QueryAsync serializeStatement vc procedure args w
              = Ret (r, Some e) w')) →
     snd (serializeStatement procedure (atomic_AddInt64 (qHandle w) 1) args)
       = Some e).
Proof.
  intros Hs. split; [by eapply serializeQuery_returns |].
  intros Hopen e w' H.
  assert (send_error serializeStatement vc procedure args w (Some e)) as Hse.
  { destruct H as [(d & r & H) | [(r & H) | [(d & r & H) | (r & H)]]].
    - by eapply Exec_error.
    - by eapply ExecAsync_error.
    - by eapply Query_error.
    - by eapply QueryAsync_error. }
  destruct Hse as [? | [[? _] | [_ ?]]]; congruence.
Qed.

Lemma serializeQuery_reports_only_serializer_errors_witness :
  (∃ w', VoltConn_serializeQuery demo_serialize
           demo_conn
           (Some 1%positive) "P" 1 [7] demo_open_peer_gone
         = Ret None w' ∧ w' = demo_open_peer_gone) ∧
  (∃ w', VoltConn_serializeQuery demo_serialize
           demo_conn
           (Some 1%positive) "" 1 [7] demo_open_peer_gone
         = Ret (Some "no procedure"%string) w' ∧ w' = demo_open_peer_gone).
Proof.
  split.
  - destruct (proj1 (serializeQuery_reports_only_serializer_errors
      demo_serialize
      demo_conn
      1%positive
      {| st_isTCP := true; st_closed := false; st_peerGone := true;
         st_out := [] |}
      "P" 1 [7] demo_open_peer_gone eq_refl)) as (w' & Hr & Hw).
    exists w'. split; [exact Hr | by apply Hw].
  - destruct (proj1 (serializeQuery_reports_only_serializer_errors
      demo_serialize
      demo_conn
      1%positive
      {| st_isTCP := true; st_closed := false; st_peerGone := true;
         st_out := [] |}
      "" 1 [7] demo_open_peer_gone eq_refl)) as (w' & Hr & Hw).
    exists w'. split; [exact Hr | by apply Hw].
Defined.

(** ** What the calls do at particular inputs *)

(** Once the request has gone out, a synchronous call hands back what the
    channel delivered, with a nil error, whatever the delivery carries. *)
Lemma sync_call_returns_delivery {driver_Value : Type}
    (serializeStatement : string → Z → list driver_Value → list Z * option error)
    vc query args w :
  isOpen vc = true →
  snd (serializeStatement query (atomic_AddInt64 (qHandle w) 1) args) = None →
  (∀ x r err w',
     VoltConn_Query serializeStatement vc query args (Delivered x) w
       = Ret (r, err) w' → r = x ∧ err = None) ∧
  (∀ x r err w',
     VoltConn_Exec serializeStatement vc query args (Delivered x) w
       = Ret (r, err) w' → r = x ∧ err = None).
Proof.
  intros Hopen Hser. split; intros x r err w' H.
  - unfold VoltConn_Query in H. rewrite Hopen in H. simpl in H.
    unfold bind at 1 in H. rewrite next_handle_spec in H.
    apply bind_Ret_inv in H as (c & w1 & _ & H).
    apply bind_Ret_inv in H as (e & w2 & He & H).
    apply serializeQuery_error in He. rewrite Hser in He. subst e.
    apply bind_Ret_inv in H as (y & w3 & Hrecv & H).
    apply bind_Ret_inv in Hrecv as ([] & w4 & _ & Hrecv).
    unfold chan_recv in Hrecv. injection Hrecv as <- _. by injection H as <- <- _.
  - unfold VoltConn_Exec in H. rewrite Hopen in H. simpl in H.
    unfold bind at 1 in H. rewrite next_handle_spec in H.
    apply bind_Ret_inv in H as (c & w1 & _ & H).
    apply bind_Ret_inv in H as (e & w2 & He & H).
    apply serializeQuery_error in He. rewrite Hser in He. subst e.
    apply bind_Ret_inv in H as (y & w3 & Hrecv & H).
    apply bind_Ret_inv in Hrecv as ([] & w4 & _ & Hrecv).
    unfold chan_recv in Hrecv. injection Hrecv as <- _. by injection H as <- <- _.
Qed.

(** C7, evaluated.  A synchronous [Query] whose request went out and whose
    response carries an error returns the response object with a nil error,
    so the caller has to look inside the rows.  [Rows()] on the result of
    [QueryAsync] for the same delivery does return the error. *)
Theorem Query_returns_failed_rows_without_error :
  result_of (via 1%positive (λ vc,
      VoltConn_Query demo_serialize vc "P" [7]
        (Delivered (RowsVolt demo_rows_failed))) demo_open)
    = Some (RowsVolt demo_rows_failed, None) ∧
  VoltRows_error demo_rows_failed = Some "procedure failed"%string ∧
  result_of ((via 1%positive (λ vc, VoltConn_QueryAsync demo_serialize vc "P" [7]) ;;
              VoltQueryResult_Rows 1%positive
                (Delivered (RowsVolt demo_rows_failed))) demo_open)
    = Some (RowsNil, Some "procedure failed"%string).
Proof. repeat split; vm_compute; reflexivity. Qed.

(** C3, evaluated.  With the peer gone every write on the stream fails.
    [QueryAsync] nevertheless returns a pending result and a nil error; the
    handle stays registered with the listener and in the connection's
    [queries] map, and nothing went out.  The synchronous [Query] then waits
    on its channel.  When it is the serializer that fails, [ExecAsync]
    returns the error and clears the listener's registry, but the handle
    stays in the connection's [execs] map. *)
Theorem failed_write_is_not_reported :
  let o := via 1%positive (λ vc, VoltConn_QueryAsync demo_serialize vc "P" [7])
             demo_open_peer_gone in
  let o' := via 1%positive (λ vc, VoltConn_ExecAsync demo_serialize vc "" [7])
              demo_open in
  result_of o = Some (Some 1%positive, None) ∧
  (listeners (world_of o) !! 1%positive) ≫= (λ nl, nl_queries nl !! 1)
    = Some 1%positive ∧
  (query_maps (world_of o) !! 1%positive) ≫= (λ m, m !! 1) = Some 1%positive ∧
  st_out <$> streams (world_of o) !! 1%positive = Some [] ∧
  (∃ w', via 1%positive (λ vc, VoltConn_Query demo_serialize vc "P" [7] NeverReady)
           demo_open_peer_gone = Blocked w') ∧
  result_of o' = Some (None, Some "no procedure"%string) ∧
  (listeners (world_of o') !! 1%positive) ≫= (λ nl, nl_execs nl !! 1) = None ∧
  (exec_maps (world_of o') !! 1%positive) ≫= (λ m, m !! 1) = Some 1%positive.
Proof.
  cbv zeta. repeat split; try (vm_compute; reflexivity).
  eexists. vm_compute. reflexivity.
Qed.

(** [Close] works on a copy of the struct: whatever it returns, the struct
    the caller's pointer leads to is the one it was. *)
Lemma Close_keeps_struct p w w' :
  after (via p VoltConn_Close w) w' → conn_heap w' = conn_heap w.
Proof.
  unfold via, VoltConn_Close, VoltConn_Close_body, bind, deref.
  destruct (conn_heap w !! p) as [vc|]; [| done].
  unfold NetworkListener_stop, bind, deref, store.
  destruct (listeners w !! netListener vc) as [nl|]; [| done].
  destruct (WaitGroup_Wait_ready (nlwg vc)); simpl; [| by intros <-].
  destruct (reader vc) as [r|]; simpl; [| by intros <-].
  unfold assert_TCPConn, TCPConn_Close, bind, deref, store, ret, panic. simpl.
  destruct (streams w !! r) as [s|] eqn:Hs; [| done].
  destruct (st_isTCP s); [| done]. simpl. rewrite Hs.
  destruct (st_closed s); simpl; by intros <-.
Qed.

(** X1.  The guard of the four calls: on a struct whose [isOpen] is false each
    of them returns the connection-closed error at once and leaves the
    world as it was: no handle is taken, nothing is registered, nothing is
    written. *)
Theorem closed_struct_refuses_calls
    {driver_Value : Type}
    (serializeStatement : string → Z → list driver_Value → list Z * option error)
    (vc : VoltConn) (query : string) (args : list driver_Value) (w : World) :
  isOpen vc = false →
  (∀ d, VoltConn_Exec serializeStatement vc query args d w
          = Ret (ResultNil, Some "Connection is closed"%string) w) ∧
  VoltConn_ExecAsync serializeStatement vc query args w
    = Ret (None, Some "Connection is closed"%string) w ∧
  (∀ d, VoltConn_Query serializeStatement vc query args d w
          = Ret (RowsNil, Some "Connection is closed"%string) w) ∧
  VoltConn_QueryAsync serializeStatement vc query args w
    = Ret (None, Some "Connection is closed"%string) w.
Proof.
  intros Hshut.
  unfold VoltConn_Exec, VoltConn_ExecAsync, VoltConn_Query, VoltConn_QueryAsync.
  rewrite Hshut. done.
Qed.

Lemma closed_struct_refuses_calls_witness :
  VoltConn_Exec demo_serialize demo_conn_shut "P" [7] NeverReady demo_open
    = Ret (ResultNil, Some "Connection is closed"%string) demo_open ∧
  VoltConn_QueryAsync demo_serialize demo_conn_shut "P" [7] demo_open
    = Ret (None, Some "Connection is closed"%string) demo_open.
Proof.
  destruct (closed_struct_refuses_calls demo_serialize demo_conn_shut "P" [7]
              demo_open eq_refl) as (HExec & _ & _ & HQueryAsync).
  split; [apply HExec | exact HQueryAsync].
Defined.

(** C1, evaluated.  After [Close()] through the caller's pointer the struct
    behind the pointer still says [isOpen = true]: the assignments of
    [Close] went to the receiver copy.  A following [Exec] passes the guard,
    allocates handle 1, registers it with the listener and then waits on
    the channel; given a delivery it returns it with a nil error. *)
Theorem Close_leaves_connection_open :
  let o := via 1%positive (λ vc, VoltConn_Exec demo_serialize vc "P" [7] NeverReady)
             demo_closed in
  result_of (via 1%positive VoltConn_Close demo_open) = Some None ∧
  isOpen <$> conn_heap demo_closed !! 1%positive = Some true ∧
  st_closed <$> streams demo_closed !! 1%positive = Some true ∧
  qHandle demo_closed = 0 ∧
  (∃ w', o = Blocked w') ∧
  qHandle (world_of o) = 1 ∧
  (listeners (world_of o) !! 1%positive) ≫= (λ nl, nl_execs nl !! 1)
    = Some 1%positive ∧
  result_of (via 1%positive (λ vc,
      VoltConn_Exec demo_serialize vc "P" [7] (Delivered (ResultVolt demo_result)))
      demo_closed)
    = Some (ResultVolt demo_result, None).
Proof.
  cbv zeta. repeat split; try (vm_compute; reflexivity).
  eexists. vm_compute. reflexivity.
Qed.

(** ** Invariants of the process state *)

Lemma preserves_ret {A} I (a : A) : preserves I (ret a).
Proof. intros w w' HI. simpl. by intros <-. Qed.

Lemma preserves_panic {A} I msg : preserves I (@panic A msg).
Proof. intros w w' HI. done. Qed.

Lemma preserves_bind {A B} I (m : M A) (k : A → M B) :
  preserves I m → (∀ a, preserves I (k a)) → preserves I (bind m k).
Proof.
  intros Hm Hk w w' HI H.
  apply bind_after_inv in H as [H | (a & w1 & H1 & H2)].
  - apply (Hm w w' HI). by rewrite H.
  - apply (Hk a w1 w'); [| done]. apply (Hm w w1 HI). by rewrite H1.
Qed.

Lemma keeps_core_ret {A} (a : A) : keeps_core (ret a).
Proof. intros w w'. simpl. by intros <-. Qed.

Lemma keeps_core_panic {A} msg : keeps_core (@panic A msg).
Proof. intros w w'. done. Qed.

Lemma same_core_trans w1 w2 w3 :
  same_core w1 w2 → same_core w2 w3 → same_core w1 w3.
Proof. unfold same_core. intros (?&?&?&?&?&?&?) (?&?&?&?&?&?&?). repeat split; congruence. Qed.

Lemma keeps_core_bind {A B} (m : M A) (k : A → M B) :
  keeps_core m → (∀ a, keeps_core (k a)) → keeps_core (bind m k).
Proof.
  intros Hm Hk w w' H.
  apply bind_after_inv in H as [H | (a & w1 & H1 & H2)].
  - apply Hm. by rewrite H.
  - eapply same_core_trans; [| by eapply Hk]. apply Hm. by rewrite H1.
Qed.

Lemma Inv_same_core w w' : same_core w w' → Inv w → Inv w'.
Proof.
  unfold same_core, Inv, queries_hold_active, execs_hold_active,
    conns_unwaited, handles_counted, handles_issued.
  intros (-> & -> & -> & -> & -> & -> & ->). done.
Qed.

Lemma keeps_core_preserves {A} (m : M A) : keeps_core m → preserves Inv m.
Proof. intros Hm w w' HI H. eapply Inv_same_core; [by apply Hm | done]. Qed.

Lemma keeps_core_deref {A} (heap : World → gmap loc A) p :
  keeps_core (deref heap p).
Proof.
  intros w w'. unfold deref. destruct (heap w !! p); [| done].
  simpl. by intros <-.
Qed.

Lemma keeps_core_make_chan : keeps_core make_chan.
Proof. intros w w'. simpl. by intros <-. Qed.

Lemma keeps_core_chan_recv {A} (zero : A) c d : keeps_core (chan_recv zero c d).
Proof. intros w w'. unfold chan_recv. destruct d; simpl; by intros <-. Qed.

Lemma keeps_core_log e : keeps_core (modify (log_event e)).
Proof. intros w w'. simpl. by intros <-. Qed.

Lemma keeps_core_store_listeners p nl : keeps_core (store listeners set_listeners p nl).
Proof. intros w w'. simpl. by intros <-. Qed.

Lemma keeps_core_alloc_listeners nl : keeps_core (alloc listeners set_listeners nl).
Proof. intros w w'. simpl. by intros <-. Qed.

Lemma keeps_core_store_streams p s : keeps_core (store streams set_streams p s).
Proof. intros w w'. simpl. by intros <-. Qed.

Lemma keeps_core_alloc_streams s : keeps_core (alloc streams set_streams s).
Proof. intros w w'. simpl. by intros <-. Qed.

Create HintDb core_frame discriminated.

#[local] Hint Resolve keeps_core_ret keeps_core_panic keeps_core_deref
  keeps_core_make_chan keeps_core_chan_recv keeps_core_log
  keeps_core_store_listeners keeps_core_alloc_listeners
  keeps_core_store_streams keeps_core_alloc_streams : core_frame.

(** Walks the binds and branches of a call. *)
Ltac frame_walk :=
  repeat first
    [ solve [eauto with core_frame]
    | apply keeps_core_bind; [| intros ?]
    | match goal with
      | |- keeps_core (if ?b then _ else _) => destruct b
      | |- keeps_core (match ?x with _ => _ end) => destruct x
      end ].

Lemma keeps_core_Stream_Write p data : keeps_core (Stream_Write p data).
Proof. unfold Stream_Write. frame_walk. Qed.

Lemma keeps_core_io_Copy dst data : keeps_core (io_Copy dst data).
Proof. unfold io_Copy. destruct dst; [apply keeps_core_Stream_Write | frame_walk]. Qed.

Lemma keeps_core_TCPConn_Close p : keeps_core (TCPConn_Close p).
Proof. unfold TCPConn_Close. frame_walk. Qed.

Lemma keeps_core_assert_TCPConn p : keeps_core (assert_TCPConn p).
Proof. unfold assert_TCPConn. frame_walk. Qed.

Lemma keeps_core_Stream_lose p : keeps_core (Stream_lose p).
Proof. unfold Stream_lose. frame_walk. Qed.

Lemma keeps_core_newListener rd wg : keeps_core (newListener rd wg).
Proof. unfold newListener. frame_walk. Qed.

Lemma keeps_core_start p : keeps_core (NetworkListener_start p).
Proof. unfold NetworkListener_start. frame_walk. Qed.

Lemma keeps_core_stop p : keeps_core (NetworkListener_stop p).
Proof. unfold NetworkListener_stop. frame_walk. Qed.

Lemma keeps_core_loopExit p : keeps_core (NetworkListener_loopExit p).
Proof. unfold NetworkListener_loopExit. frame_walk. Qed.

Lemma keeps_core_registerExec p h : keeps_core (NetworkListener_registerExec p h).
Proof. unfold NetworkListener_registerExec. frame_walk. Qed.

Lemma keeps_core_registerQuery p h : keeps_core (NetworkListener_registerQuery p h).
Proof. unfold NetworkListener_registerQuery. frame_walk. Qed.

Lemma keeps_core_removeExec p h : keeps_core (NetworkListener_removeExec p h).
Proof. unfold NetworkListener_removeExec. frame_walk. Qed.

Lemma keeps_core_removeQuery p h : keeps_core (NetworkListener_removeQuery p h).
Proof. unfold NetworkListener_removeQuery. frame_walk. Qed.

Lemma keeps_core_deliverExec p h : keeps_core (NetworkListener_deliverExec p h).
Proof. unfold NetworkListener_deliverExec. frame_walk. Qed.

Lemma keeps_core_deliverQuery p h : keeps_core (NetworkListener_deliverQuery p h).
Proof. unfold NetworkListener_deliverQuery. frame_walk. Qed.

Lemma keeps_core_recv_from_listener {A} (zero : A) deliver c d :
  keeps_core deliver → keeps_core (recv_from_listener zero deliver c d).
Proof.
  intros Hd. unfold recv_from_listener. destruct d; [| frame_walk..].
  apply keeps_core_bind; [exact Hd | intros _; frame_walk].
Qed.

#[local] Hint Resolve keeps_core_Stream_Write keeps_core_io_Copy
  keeps_core_TCPConn_Close keeps_core_assert_TCPConn keeps_core_Stream_lose
  keeps_core_newListener keeps_core_start keeps_core_stop keeps_core_loopExit
  keeps_core_registerExec keeps_core_registerQuery keeps_core_removeExec
  keeps_core_removeQuery keeps_core_deliverExec keeps_core_deliverQuery
  keeps_core_recv_from_listener : core_frame.

Lemma keeps_core_Close_body vc : keeps_core (VoltConn_Close_body vc).
Proof.
  unfold VoltConn_Close_body. apply keeps_core_bind; [eauto with core_frame |].
  intros _. apply keeps_core_bind.
  - intros w w'. destruct (WaitGroup_Wait_ready (nlwg vc)); simpl; by intros <-.
  - intros _. frame_walk.
Qed.

Lemma keeps_core_Close vc : keeps_core (VoltConn_Close vc).
Proof.
  unfold VoltConn_Close. apply keeps_core_bind; [apply keeps_core_Close_body |].
  intros [err vc']. frame_walk.
Qed.

Lemma keeps_core_isActive vqr : keeps_core (VoltQueryResult_isActive vqr).
Proof. unfold VoltQueryResult_isActive. frame_walk. Qed.

Lemma keeps_core_channel vqr : keeps_core (VoltQueryResult_channel vqr).
Proof. unfold VoltQueryResult_channel. frame_walk. Qed.

#[local] Hint Resolve keeps_core_Close keeps_core_isActive keeps_core_channel
  : core_frame.

(** *** The handle counter *)

Lemma wrap64_succ z : wrap64 (wrap64 z + 1) = wrap64 (z + 1).
Proof.
  unfold wrap64.
  replace ((z + 2 ^ 63) `mod` 2 ^ 64 - 2 ^ 63 + 1 + 2 ^ 63)
    with ((z + 2 ^ 63) `mod` 2 ^ 64 + 1) by lia.
  rewrite Zplus_mod_idemp_l. f_equal. f_equal. lia.
Qed.


Lemma preserves_next_handle : preserves Inv next_handle.
Proof.
  intros w w' (Hq & He & Hc & Hcount & Hlog) H. simpl in H. subst w'.
  split; [done |]. split; [done |]. split; [done |].
  unfold handles_counted, handles_issued in *. simpl. split.
  - unfold atomic_AddInt64. rewrite Hcount, wrap64_succ. f_equal. lia.
  - intros i h. rewrite reverse_cons. intros Hi.
    apply lookup_app_Some in Hi as [Hi | [Hlen Hi]]; [by apply Hlog |].
    apply list_lookup_singleton_Some in Hi as [Hi <-].
    rewrite length_reverse in *.
    unfold atomic_AddInt64. rewrite Hcount, wrap64_succ. f_equal. lia.
Qed.

(** *** Allocation *)

Lemma fresh_lookup_None {A} (h : gmap loc A) : h !! fresh (dom h) = None.
Proof. apply not_elem_of_dom. apply is_fresh. Qed.

Lemma preserves_alloc_query_map : preserves Inv (alloc query_maps set_query_maps ∅).
Proof.
  intros w w' (Hq & He & Hc & Hn) H. simpl in H. subst w'.
  split; [| done]. intros m o k p. simpl. intros Hm Hk.
  destruct (decide (m = fresh (dom (query_maps w)))) as [-> | Hne].
  - rewrite lookup_insert_eq in Hm. by simplify_eq.
  - rewrite lookup_insert_ne in Hm by done. by eapply Hq.
Qed.

Lemma preserves_alloc_exec_map : preserves Inv (alloc exec_maps set_exec_maps ∅).
Proof.
  intros w w' (Hq & He & Hc & Hn) H. simpl in H. subst w'.
  split; [done |]. split; [| done]. intros m o k p. simpl. intros Hm Hk.
  destruct (decide (m = fresh (dom (exec_maps w)))) as [-> | Hne].
  - rewrite lookup_insert_eq in Hm. by simplify_eq.
  - rewrite lookup_insert_ne in Hm by done. by eapply He.
Qed.

Lemma preserves_alloc_conn vc :
  nlwg vc = WaitGroup_zero → preserves Inv (alloc conn_heap set_conn_heap vc).
Proof.
  intros Hwg w w' (Hq & He & Hc & Hn) H. simpl in H. subst w'.
  split; [done |]. split; [done |]. split; [| done].
  intros p vc'. simpl. intros Hp.
  apply lookup_insert_Some in Hp as [[_ <-] | [_ Hp]]; [done | by eapply Hc].
Qed.

(** *** Registering a pending result *)

Lemma preserves_register_query {B} vc handle c (k : loc → M B) :
  (∀ vqr, preserves Inv (k vqr)) →
  preserves Inv
    (let! vqr := newVoltQueryResult vc handle c in
     VoltConn_registerQuery vc handle vqr ;; k vqr).
Proof.
  intros Hk w w' HI H.
  unfold bind at 1 in H. unfold newVoltQueryResult, alloc in H.
  set (p := fresh (dom (vqr_heap w))) in *.
  unfold bind at 1 in H.
  unfold VoltConn_registerQuery, map_assign in H. simpl in H.
  destruct (query_maps w !! queries vc) as [o|] eqn:Hm; [| done].
  eapply Hk; [| exact H].
  destruct HI as (Hq & He & Hc & Hn).
  split; [| done]. intros m o' k' p'. simpl. intros Hm' Hk'.
  assert (vqr_heap w !! p = None) as Hfresh by apply fresh_lookup_None.
  assert (∀ k0 p0 m0 o0, query_maps w !! m0 = Some o0 → o0 !! k0 = Some p0 →
            ∃ f, <[p := {| vqr_conn := vc; vqr_han := handle; vqr_ch := c;
                          vqr_rows := RowsNil; vqr_err := None;
                          vqr_active := true |}]> (vqr_heap w) !! p0 = Some f ∧
                 vqr_active f = true ∧ vqr_han f = k0 ∧
                 queries (vqr_conn f) = m0) as Hold.
  { intros k0 p0 m0 o0 H1 H2. destruct (Hq _ _ _ _ H1 H2) as (f & Hf & ?).
    exists f. split; [| done]. rewrite lookup_insert_ne; [done |].
    intros <-. congruence. }
  apply lookup_insert_Some in Hm' as [[<- <-] | [Hne Hm']].
  - apply lookup_insert_Some in Hk' as [[<- <-] | [Hne Hk']].
    + eexists. split; [apply lookup_insert_eq | done].
    + by eapply Hold.
  - by eapply Hold.
Qed.

Lemma preserves_register_exec {B} vc handle c (k : loc → M B) :
  (∀ ver, preserves Inv (k ver)) →
  preserves Inv
    (let! ver := newVoltExecResult vc handle c in
     VoltConn_registerExec vc handle ver ;; k ver).
Proof.
  intros Hk w w' HI H.
  unfold bind at 1 in H. unfold newVoltExecResult, alloc in H.
  set (p := fresh (dom (ver_heap w))) in *.
  unfold bind at 1 in H.
  unfold VoltConn_registerExec, map_assign in H. simpl in H.
  destruct (exec_maps w !! execs vc) as [o|] eqn:Hm; [| done].
  eapply Hk; [| exact H].
  destruct HI as (Hq & He & Hc & Hn).
  split; [done |]. split; [| done]. intros m o' k' p'. simpl. intros Hm' Hk'.
  assert (ver_heap w !! p = None) as Hfresh by apply fresh_lookup_None.
  assert (∀ k0 p0 m0 o0, exec_maps w !! m0 = Some o0 → o0 !! k0 = Some p0 →
            ∃ f, <[p := {| ver_conn := vc; ver_han := handle; ver_ch := c;
                          ver_result := ResultNil; ver_err := None;
                          ver_active := true |}]> (ver_heap w) !! p0 = Some f ∧
                 ver_active f = true ∧ ver_han f = k0 ∧
                 execs (ver_conn f) = m0) as Hold.
  { intros k0 p0 m0 o0 H1 H2. destruct (He _ _ _ _ H1 H2) as (f & Hf & ?).
    exists f. split; [| done]. rewrite lookup_insert_ne; [done |].
    intros <-. congruence. }
  apply lookup_insert_Some in Hm' as [[<- <-] | [Hne Hm']].
  - apply lookup_insert_Some in Hk' as [[<- <-] | [Hne Hk']].
    + eexists. split; [apply lookup_insert_eq | done].
    + by eapply Hold.
  - by eapply Hold.
Qed.

(** *** Resolving a pending result *)

(** Once the handle of [p] is out of the owning map, nothing in any map
    leads to [p], whatever is stored at [p]. *)
Lemma query_resolved_Inv w w' p f f' :
  Inv w → vqr_heap w !! p = Some f →
  vqr_heap w' = <[p := f']> (vqr_heap w) →
  query_maps w' =
    match query_maps w !! queries (vqr_conn f) with
    | Some o => <[queries (vqr_conn f) := delete (vqr_han f) o]> (query_maps w)
    | None => query_maps w
    end →
  exec_maps w' = exec_maps w → ver_heap w' = ver_heap w →
  conn_heap w' = conn_heap w → qHandle w' = qHandle w →
  handle_log w' = handle_log w →
  Inv w'.
Proof.
  intros (Hq & He & Hc & Hn) Hf Hheap Hmaps Hem Hvh Hch Hqh Hlog.
  split; [| split; [| split]].
  - intros m o k p' Hm Hk. rewrite Hheap.
    assert (∃ o0, query_maps w !! m = Some o0 ∧ o0 !! k = Some p' ∧
              (m = queries (vqr_conn f) → k ≠ vqr_han f)) as (o0 & Hm0 & Hk0 & Hne).
    { rewrite Hmaps in Hm.
      destruct (query_maps w !! queries (vqr_conn f)) as [o1|] eqn:Ho1.
      - apply lookup_insert_Some in Hm as [[<- <-] | [Hne Hm]].
        + apply lookup_delete_Some in Hk as [Hne Hk]. eauto.
        + exists o. eauto.
      - exists o. repeat split; [done.. |]. intros ->. congruence. }
    destruct (Hq _ _ _ _ Hm0 Hk0) as (f1 & Hf1 & Hact & Hhan & Hown).
    exists f1. split; [| done]. rewrite lookup_insert_ne; [done |].
    intros <-. simplify_eq. by apply Hne.
  - unfold execs_hold_active. rewrite Hem, Hvh. exact He.
  - unfold conns_unwaited. rewrite Hch. exact Hc.
  - unfold handles_counted, handles_issued. rewrite Hqh, Hlog. exact Hn.
Qed.

Lemma exec_resolved_Inv w w' p f f' :
  Inv w → ver_heap w !! p = Some f →
  ver_heap w' = <[p := f']> (ver_heap w) →
  exec_maps w' =
    match exec_maps w !! execs (ver_conn f) with
    | Some o => <[execs (ver_conn f) := delete (ver_han f) o]> (exec_maps w)
    | None => exec_maps w
    end →
  query_maps w' = query_maps w → vqr_heap w' = vqr_heap w →
  conn_heap w' = conn_heap w → qHandle w' = qHandle w →
  handle_log w' = handle_log w →
  Inv w'.
Proof.
  intros (Hq & He & Hc & Hn) Hf Hheap Hmaps Hqm Hvh Hch Hqh Hlog.
  split; [| split; [| split]].
  - unfold queries_hold_active. rewrite Hqm, Hvh. exact Hq.
  - intros m o k p' Hm Hk. rewrite Hheap.
    assert (∃ o0, exec_maps w !! m = Some o0 ∧ o0 !! k = Some p' ∧
              (m = execs (ver_conn f) → k ≠ ver_han f)) as (o0 & Hm0 & Hk0 & Hne).
    { rewrite Hmaps in Hm.
      destruct (exec_maps w !! execs (ver_conn f)) as [o1|] eqn:Ho1.
      - apply lookup_insert_Some in Hm as [[<- <-] | [Hne Hm]].
        + apply lookup_delete_Some in Hk as [Hne Hk]. eauto.
        + exists o. eauto.
      - exists o. repeat split; [done.. |]. intros ->. congruence. }
    destruct (He _ _ _ _ Hm0 Hk0) as (f1 & Hf1 & Hact & Hhan & Hown).
    exists f1. split; [| done]. rewrite lookup_insert_ne; [done |].
    intros <-. simplify_eq. by apply Hne.
  - unfold conns_unwaited. rewrite Hch. exact Hc.
  - unfold handles_counted, handles_issued. rewrite Hqh, Hlog. exact Hn.
Qed.

Lemma preserves_setRows vqr rows : preserves Inv (VoltQueryResult_setRows vqr rows).
Proof.
  intros w w' HI H. destruct (vqr_heap w !! vqr) as [f|] eqn:Hf.
  - rewrite (setRows_spec _ _ _ _ Hf) in H. unfold map_delete in H. simpl in H.
    eapply (query_resolved_Inv w w' vqr f); [done | done | ..];
      destruct (query_maps w !! queries (vqr_conn f)); simpl in H; by subst w'.
  - unfold VoltQueryResult_setRows, bind, deref in H. by rewrite Hf in H.
Qed.

Lemma preserves_query_setError vqr err :
  preserves Inv (VoltQueryResult_setError vqr err).
Proof.
  intros w w' HI H. destruct (vqr_heap w !! vqr) as [f|] eqn:Hf.
  - rewrite (query_setError_spec _ _ _ _ Hf) in H. unfold map_delete in H.
    simpl in H.
    eapply (query_resolved_Inv w w' vqr f); [done | done | ..];
      destruct (query_maps w !! queries (vqr_conn f)); simpl in H; by subst w'.
  - unfold VoltQueryResult_setError, bind, deref in H. by rewrite Hf in H.
Qed.

Lemma preserves_exec_setError ver err :
  preserves Inv (VoltExecResult_setError ver err).
Proof.
  intros w w' HI H.
  unfold VoltExecResult_setError, bind, deref, store, VoltConn_removeExec,
    map_delete in H.
  destruct (ver_heap w !! ver) as [f|] eqn:Hf; [| done]. simpl in H.
  eapply (exec_resolved_Inv w w' ver f); [done | done | ..];
    destruct (exec_maps w !! execs (ver_conn f)); simpl in H; subst w'; simpl;
    try done; by rewrite insert_insert_eq.
Qed.

Lemma preserves_setResult ver result :
  preserves Inv (VoltExecResult_setResult ver result).
Proof.
  intros w w' HI H.
  unfold VoltExecResult_setResult, bind, deref, store, VoltConn_removeExec,
    map_delete, panic in H.
  destruct (ver_heap w !! ver) as [f|] eqn:Hf; [| done].
  destruct (ver_active f); [| done]. simpl in H.
  eapply (exec_resolved_Inv w w' ver f); [done | done | ..];
    destruct (exec_maps w !! execs (ver_conn f)); simpl in H; subst w'; simpl;
    try done; by rewrite insert_insert_eq.
Qed.

(** *** Every call preserves the invariant *)

Create HintDb inv_pres discriminated.

#[local] Hint Resolve preserves_ret preserves_panic preserves_next_handle
  preserves_alloc_query_map preserves_alloc_exec_map preserves_setRows
  preserves_query_setError preserves_exec_setError preserves_setResult
  : inv_pres.

Ltac inv_walk :=
  repeat first
    [ solve [eauto with inv_pres]
    | solve [apply keeps_core_preserves; frame_walk]
    | apply preserves_register_query; intros ?
    | apply preserves_register_exec; intros ?
    | apply preserves_bind; [| intros ?]
    | match goal with
      | |- preserves _ (if ?b then _ else _) => destruct b
      | |- preserves _ (match ?x with _ => _ end) => destruct x
      end ].

Lemma preserves_via {A} I p (method : VoltConn → M A) :
  (∀ vc, preserves I (method vc)) → preserves I (via p method).
Proof.
  intros Hm w w' HI. unfold via, bind, deref.
  destruct (conn_heap w !! p) as [vc|]; [| done]. by apply Hm.
Qed.

Lemma keeps_core_assert_VoltRows rows : keeps_core (assert_VoltRows rows).
Proof. unfold assert_VoltRows. frame_walk. Qed.

#[local] Hint Resolve keeps_core_assert_VoltRows : core_frame.

Lemma preserves_Rows vqr d : preserves Inv (VoltQueryResult_Rows vqr d).
Proof. unfold VoltQueryResult_Rows. inv_walk. Qed.

Lemma preserves_Result ver d : preserves Inv (VoltExecResult_Result ver d).
Proof. unfold VoltExecResult_Result. inv_walk. Qed.

Lemma preserves_newVoltConn rd wr cd : preserves Inv (newVoltConn rd wr cd).
Proof.
  unfold newVoltConn. inv_walk. by apply preserves_alloc_conn.
Qed.

Lemma keeps_core_swap_remove {A} (s : list A) i : keeps_core (swap_remove s i).
Proof. unfold swap_remove. frame_walk. Qed.

#[local] Hint Resolve keeps_core_swap_remove : core_frame.

Lemma preserves_Drain_deliver vqr val ok : preserves Inv (Drain_deliver vqr val ok).
Proof. unfold Drain_deliver. inv_walk. Qed.

Lemma keeps_core_Drain_collect vqrs idx idxs cases :
  keeps_core (Drain_collect vqrs idx idxs cases).
Proof.
  revert idx idxs cases. induction vqrs as [| vqr rest IH]; intros; simpl.
  - frame_walk.
  - apply keeps_core_bind; [eauto with core_frame |]. intros [].
    + apply keeps_core_bind; [eauto with core_frame | intros; apply IH].
    + apply IH.
Qed.

Lemma preserves_Drain_loop sched vqrs idxs cases :
  preserves Inv (Drain_loop sched vqrs idxs cases).
Proof.
  revert idxs cases. induction sched as [| r sched' IH]; intros idxs cases.
  - destruct idxs; simpl; [inv_walk |].
    destruct (too_many_cases cases); [inv_walk |].
    intros w w' HI. simpl. intros <-. by eapply Inv_same_core.
  - destruct idxs as [| i0 idxs0]; simpl; [inv_walk |].
    destruct (too_many_cases cases); [inv_walk |].
    apply preserves_bind; [apply keeps_core_preserves; frame_walk | intros _].
    destruct ((i0 :: idxs0) !! sel_chosen r); [| inv_walk].
    apply preserves_bind; [apply keeps_core_preserves; frame_walk | intros ?].
    apply preserves_bind; [apply keeps_core_preserves; frame_walk | intros ?].
    destruct (vqrs !! n); [| inv_walk].
    apply preserves_bind; [apply preserves_Drain_deliver | intros _]. apply IH.
Qed.

Lemma preserves_Drain vc vqrs sched : preserves Inv (VoltConn_Drain vc vqrs sched).
Proof.
  unfold VoltConn_Drain. apply preserves_bind.
  - apply keeps_core_preserves, keeps_core_Drain_collect.
  - intros [idxs cases]. apply preserves_Drain_loop.
Qed.

Section Runs.

Context {driver_Value : Type}.
Variable serializeStatement :
  string → Z → list driver_Value → list Z * option error.
Variable map_range : nat → gmap Z loc → list (Z * loc).

Lemma keeps_core_serializeQuery vc wr procedure handle args :
  keeps_core (VoltConn_serializeQuery serializeStatement vc wr procedure handle args).
Proof.
  unfold VoltConn_serializeQuery.
  destruct (serializeStatement procedure handle args) as [call [e|]]; frame_walk.
Qed.

Hint Resolve keeps_core_serializeQuery : core_frame.

Lemma preserves_Exec vc query args d :
  preserves Inv (VoltConn_Exec serializeStatement vc query args d).
Proof. unfold VoltConn_Exec. inv_walk. Qed.

Lemma preserves_Query vc query args d :
  preserves Inv (VoltConn_Query serializeStatement vc query args d).
Proof. unfold VoltConn_Query. inv_walk. Qed.

Lemma preserves_ExecAsync vc query args :
  preserves Inv (VoltConn_ExecAsync serializeStatement vc query args).
Proof. unfold VoltConn_ExecAsync. inv_walk. Qed.

Lemma preserves_QueryAsync vc query args :
  preserves Inv (VoltConn_QueryAsync serializeStatement vc query args).
Proof. unfold VoltConn_QueryAsync. inv_walk. Qed.

Lemma keeps_core_ExecutingQueries vc seed :
  keeps_core (VoltConn_ExecutingQueries map_range vc seed).
Proof. intros w w'. simpl. by intros <-. Qed.

Lemma preserves_DrainAll vc seed sched :
  preserves Inv (VoltConn_DrainAll map_range vc seed sched).
Proof.
  unfold VoltConn_DrainAll. apply preserves_bind.
  - apply keeps_core_preserves, keeps_core_ExecutingQueries.
  - intros result. apply preserves_bind; [apply preserves_Drain | intros _].
    apply preserves_ret.
Qed.

Lemma step_Inv w w' : step serializeStatement map_range w w' → Inv w → Inv w'.
Proof.
  intros Hstep HI. destruct Hstep as
    [ s w w' H | s w w' H | nl w w' H | nl handle w w' H | nl handle w w' H
    | rd wr cd w w' H | p w w' H
    | p query args d w w' H | p query args w w' H | p query args d w w' H
    | p query args w w' H | p vqrs sched w w' H | p seed sched w w' H
    | p seed w w' H | vqr d w w' H | ver d w w' H ].
  - exact (keeps_core_preserves _ (keeps_core_alloc_streams s) w w' HI H).
  - exact (keeps_core_preserves _ (keeps_core_Stream_lose s) w w' HI H).
  - exact (keeps_core_preserves _ (keeps_core_loopExit nl) w w' HI H).
  - exact (keeps_core_preserves _ (keeps_core_deliverExec nl handle) w w' HI H).
  - exact (keeps_core_preserves _ (keeps_core_deliverQuery nl handle) w w' HI H).
  - exact (preserves_newVoltConn rd wr cd w w' HI H).
  - exact (preserves_via Inv p _
             (λ vc, keeps_core_preserves _ (keeps_core_Close vc)) w w' HI H).
  - exact (preserves_via Inv p _
             (λ vc, preserves_Exec vc query args d) w w' HI H).
  - exact (preserves_via Inv p _
             (λ vc, preserves_ExecAsync vc query args) w w' HI H).
  - exact (preserves_via Inv p _
             (λ vc, preserves_Query vc query args d) w w' HI H).
  - exact (preserves_via Inv p _
             (λ vc, preserves_QueryAsync vc query args) w w' HI H).
  - exact (preserves_via Inv p _
             (λ vc, preserves_Drain vc vqrs sched) w w' HI H).
  - exact (preserves_via Inv p _
             (λ vc, preserves_DrainAll vc seed sched) w w' HI H).
  - exact (preserves_via Inv p _
             (λ vc, keeps_core_preserves _ (keeps_core_ExecutingQueries vc seed))
             w w' HI H).
  - exact (preserves_Rows vqr d w w' HI H).
  - exact (preserves_Result ver d w w' HI H).
Qed.

Lemma Inv_init : Inv World_init.
Proof.
  split; [| split; [| split]].
  - intros m o k p. simpl. by rewrite lookup_empty.
  - intros m o k p. simpl. by rewrite lookup_empty.
  - intros p vc. simpl. by rewrite lookup_empty.
  - split; [reflexivity |]. intros i h. unfold handles_issued. simpl.
    rewrite reverse_nil. by rewrite lookup_nil.
Qed.

Lemma reachable_Inv w : reachable serializeStatement map_range w → Inv w.
Proof.
  unfold reachable. revert w. apply rtc_ind_r; [apply Inv_init |].
  intros w1 w2 _ Hstep IH. by eapply step_Inv.
Qed.

End Runs.

(** ** Pending results and the connection's maps *)

Lemma setRows_leaves_map vqr f rows w w' :
  vqr_heap w !! vqr = Some f →
  VoltQueryResult_setRows vqr rows w = Ret tt w' →
  is_resolved_query w' vqr ∧
  map_read query_maps (queries (vqr_conn f)) w' !! vqr_han f = None.
Proof.
  intros Hf H. rewrite (setRows_spec _ _ _ _ Hf) in H. split.
  - apply map_delete_query_frame in H as (Hh & _). eexists. rewrite Hh. simpl.
    split; [apply lookup_insert_eq | done].
  - by apply (map_delete_gone query_maps set_query_maps) in H.
Qed.

Lemma query_setError_leaves_map vqr f err w w' :
  vqr_heap w !! vqr = Some f →
  VoltQueryResult_setError vqr err w = Ret tt w' →
  is_resolved_query w' vqr ∧
  map_read query_maps (queries (vqr_conn f)) w' !! vqr_han f = None.
Proof.
  intros Hf H. rewrite (query_setError_spec _ _ _ _ Hf) in H. split.
  - apply map_delete_query_frame in H as (Hh & _). eexists. rewrite Hh. simpl.
    split; [apply lookup_insert_eq | done].
  - by apply (map_delete_gone query_maps set_query_maps) in H.
Qed.

Lemma exec_setError_leaves_map ver f err w w' :
  ver_heap w !! ver = Some f →
  VoltExecResult_setError ver err w = Ret tt w' →
  is_resolved_exec w' ver ∧
  map_read exec_maps (execs (ver_conn f)) w' !! ver_han f = None.
Proof.
  intros Hf H.
  unfold VoltExecResult_setError, bind, deref, store, VoltConn_removeExec in H.
  rewrite Hf in H.
  destruct (map_delete exec_maps set_exec_maps _ _ _) as [[] w1| |] eqn:Hd;
    [| done..].
  injection H as <-. split.
  - eexists. simpl. split; [apply lookup_insert_eq | done].
  - apply (map_delete_gone exec_maps set_exec_maps) in Hd; done.
Qed.

Lemma setResult_leaves_map ver f result w w' :
  ver_heap w !! ver = Some f →
  VoltExecResult_setResult ver result w = Ret tt w' →
  is_resolved_exec w' ver ∧
  map_read exec_maps (execs (ver_conn f)) w' !! ver_han f = None.
Proof.
  intros Hf H.
  unfold VoltExecResult_setResult, bind, deref, store, VoltConn_removeExec,
    panic in H.
  rewrite Hf in H. destruct (ver_active f); [| done]. simpl in H.
  destruct (map_delete exec_maps set_exec_maps _ _ _) as [[] w1| |] eqn:Hd;
    [| done..].
  injection H as <-. split.
  - eexists. simpl. split; [apply lookup_insert_eq | done].
  - apply (map_delete_gone exec_maps set_exec_maps) in Hd; done.
Qed.

Lemma range_elem (map_range : nat → gmap Z loc → list (Z * loc)) seed m p :
  (∀ seed m, map_range seed m ≡ₚ map_to_list m) →
  p ∈ (map_range seed m).*2 → ∃ k, m !! k = Some p.
Proof.
  intros Hperm Hp. apply list_elem_of_fmap in Hp as ([k p'] & -> & Hin).
  rewrite (Hperm seed m) in Hin. apply elem_of_map_to_list in Hin. eauto.
Qed.

Lemma Drain_collect_cons vqr rest idx idxs cases w :
  Drain_collect (vqr :: rest) idx idxs cases w
  = match vqr_heap w !! vqr with
    | None => Panic "invalid memory address or nil pointer dereference"
    | Some f =>
        if vqr_active f
        then Drain_collect rest (S idx) (idxs ++ [idx]) (cases ++ [vqr_ch f]) w
        else Drain_collect rest (S idx) idxs cases w
    end.
Proof.
  cbn [Drain_collect].
  unfold VoltQueryResult_isActive, VoltQueryResult_channel.
  unfold bind, deref, ret.
  destruct (vqr_heap w !! vqr) as [f|] eqn:Hf; [| done].
  destruct (vqr_active f); [by rewrite Hf | done].
Qed.

Lemma Drain_collect_world vqrs idx idxs cases w r w' :
  Drain_collect vqrs idx idxs cases w = Ret r w' → w' = w.
Proof.
  revert idx idxs cases. induction vqrs as [| vqr rest IH]; intros idx idxs cases.
  - simpl. by intros [= _ <-].
  - rewrite Drain_collect_cons.
    destruct (vqr_heap w !! vqr) as [f|]; [| done].
    destruct (vqr_active f); apply IH.
Qed.

(** C9.  Each of the four setters, when it returns, leaves the result
    resolved and its handle absent from the map of the connection that owns
    it.  In every world the process can reach, each pending result found in
    a connection's [queries] or [execs] map is active (and filed under its
    own handle in its own connection's map); so the results listed by
    [ExecutingQueries], and those [DrainAll] takes up and returns, are all
    active when the call starts. *)
Theorem resolved_results_leave_the_maps
    {driver_Value : Type}
    (serializeStatement : string → Z → list driver_Value → list Z * option error)
    (map_range : nat → gmap Z loc → list (Z * loc)) :
  (∀ seed m, map_range seed m ≡ₚ map_to_list m) →
  (∀ vqr f w w',
     vqr_heap w !! vqr = Some f →
     (∃ rows, VoltQueryResult_setRows vqr rows w = Ret tt w') ∨
     (∃ err, VoltQueryResult_setError vqr err w = Ret tt w') →
     is_resolved_query w' vqr ∧
     map_read query_maps (queries (vqr_conn f)) w' !! vqr_han f = None) ∧
  (∀ ver f w w',
     ver_heap w !! ver = Some f →
     (∃ result, VoltExecResult_setResult ver result w = Ret tt w') ∨
     (∃ err, VoltExecResult_setError ver err w = Ret tt w') →
     is_resolved_exec w' ver ∧
     map_read exec_maps (execs (ver_conn f)) w' !! ver_han f = None) ∧
  (∀ w, reachable serializeStatement map_range w →
     queries_hold_active w ∧ execs_hold_active w ∧
     ∀ vc seed l w',
       (VoltConn_ExecutingQueries map_range vc seed w = Ret l w' ∨
        ∃ sched, VoltConn_DrainAll map_range vc seed sched w = Ret l w') →
       Forall (is_active_query w) l).
Proof.
  intros Hperm. split; [| split].
  - intros vqr f w w' Hf [[rows H] | [err H]].
    + by eapply setRows_leaves_map.
    + by eapply query_setError_leaves_map.
  - intros ver f w w' Hf [[result H] | [err H]].
    + by eapply setResult_leaves_map.
    + by eapply exec_setError_leaves_map.
  - intros w Hreach.
    destruct (reachable_Inv _ _ _ Hreach) as (Hq & He & _).
    split; [done |]. split; [done |].
    intros vc seed l w' H.
    assert (l = (map_range seed (map_read query_maps (queries vc) w)).*2) as ->.
    { destruct H as [H | [sched H]].
      - unfold VoltConn_ExecutingQueries in H. by injection H as <- _.
      - unfold VoltConn_DrainAll in H.
        apply bind_Ret_inv in H as (l0 & w1 & H1 & H).
        apply bind_Ret_inv in H as (? & w2 & _ & H).
        unfold VoltConn_ExecutingQueries in H1. injection H1 as <- <-.
        by injection H as <- _. }
    apply Forall_forall. intros p Hp.
    apply (range_elem map_range) in Hp as [k Hk]; [| done].
    unfold map_read in Hk.
    destruct (query_maps w !! queries vc) as [o|] eqn:Hm; simpl in Hk;
      [| by rewrite lookup_empty in Hk].
    destruct (Hq _ _ _ _ Hm Hk) as (f & Hf & Hact & _). by exists f.
Qed.

(** *** The example worlds are worlds of a run *)

Lemma after_world_of {A} (o : Outcome A) :
  returns_or_blocks o = true → after o (world_of o).
Proof. by destruct o. Qed.

Lemma demo_open_reachable : reachable demo_serialize demo_range demo_open.
Proof.
  eapply rtc_l.
  { apply (step_dial _ _ _ demo_stream World_init demo_dialled).
    by apply after_world_of. }
  eapply rtc_l; [| apply rtc_refl].
  apply (step_open _ _ _ (Some 1%positive) (Some 1%positive) None
           demo_dialled demo_open).
  by apply after_world_of.
Qed.

Lemma demo_pending_reachable : reachable demo_serialize demo_range demo_pending.
Proof.
  eapply rtc_trans; [apply demo_open_reachable |].
  eapply rtc_l.
  { apply (step_QueryAsync _ _ _ 1%positive "P" [7] demo_open demo_asked_once).
    unfold demo_asked_once. apply after_world_of. vm_compute. reflexivity. }
  eapply rtc_l.
  { apply (step_QueryAsync _ _ _ 1%positive "Q" [8] demo_asked_once demo_asked_twice).
    unfold demo_asked_twice. apply after_world_of. vm_compute. reflexivity. }
  eapply rtc_l; [| apply rtc_refl].
  apply (step_Rows _ _ _ 1%positive (Delivered (RowsVolt demo_rows))
           demo_asked_twice demo_pending).
  unfold demo_pending. apply after_world_of. vm_compute. reflexivity.
Qed.

Lemma resolved_results_leave_the_maps_witness :
  queries_hold_active demo_pending ∧
  VoltConn_ExecutingQueries demo_range demo_conn 0 demo_pending
    = Ret [2%positive] demo_pending ∧
  Forall (is_active_query demo_pending) [2%positive].
Proof.
  destruct (resolved_results_leave_the_maps demo_serialize demo_range
              (λ seed m, reflexivity (map_to_list m))) as (_ & _ & H).
  destruct (H demo_pending demo_pending_reachable) as (Hq & _ & Hl).
  split; [exact Hq |]. split; [reflexivity |].
  apply (Hl demo_conn 0%nat [2%positive] demo_pending). by left.
Defined.

(** ** Close and the listener *)

Lemma reachable_conn_unwaited {driver_Value : Type}
    (serializeStatement : string → Z → list driver_Value → list Z * option error)
    (map_range : nat → gmap Z loc → list (Z * loc)) w p vc :
  reachable serializeStatement map_range w →
  conn_heap w !! p = Some vc → WaitGroup_Wait_ready (nlwg vc) = true.
Proof.
  intros Hreach Hp. destruct (reachable_Inv _ _ _ Hreach) as (_ & _ & Hc & _).
  by rewrite (Hc p vc Hp).
Qed.

(** C8, on the code.  The wait group [Close] waits on is the [nlwg] field of
    its receiver copy; the listener was given a copy of that field when the
    connection was made, and nothing ever adds to the field itself.  So in
    every world of a run, [Close] on a connection whose listener loop is
    running does not block: it requests the stop, finds the counter at zero,
    closes the stream and returns, and the loop is still running then. *)
Theorem Close_does_not_wait_for_listener
    {driver_Value : Type}
    (serializeStatement : string → Z → list driver_Value → list Z * option error)
    (map_range : nat → gmap Z loc → list (Z * loc))
    (w : World) (p : loc) (vc : VoltConn) (nl : NetworkListener)
    (r : loc) (s : Stream) :
  reachable serializeStatement map_range w →
  conn_heap w !! p = Some vc →
  listeners w !! netListener vc = Some nl → nl_loopRunning nl = true →
  reader vc = Some r → streams w !! r = Some s → st_isTCP s = true →
  ∃ err w' nl' s',
    via p VoltConn_Close w = Ret err w' ∧
    listeners w' !! netListener vc = Some nl' ∧
    nl_stopRequested nl' = true ∧ nl_loopRunning nl' = true ∧
    nl_wg nl' = nl_wg nl ∧
    streams w' !! r = Some s' ∧ st_closed s' = true.
Proof.
  intros Hreach Hp Hnl Hrun Hr Hs Htcp.
  pose proof (reachable_conn_unwaited _ _ _ _ _ Hreach Hp) as Hready.
  unfold via, VoltConn_Close, VoltConn_Close_body, NetworkListener_stop,
    assert_TCPConn, TCPConn_Close.
  unfold bind, deref, store, ret. rewrite Hp, Hnl, Hready, Hr. simpl.
  rewrite Hs, Htcp. simpl. rewrite Hs.
  destruct (st_closed s) eqn:Hcl; simpl.
  - eexists _, _, _, _. split; [reflexivity |]. simpl.
    rewrite lookup_insert_eq. repeat split; done.
  - eexists _, _, _, _. split; [reflexivity |]. simpl.
    rewrite !lookup_insert_eq. repeat split; done.
Qed.

Lemma Close_does_not_wait_for_listener_witness :
  ∃ w' nl' s',
    via 1%positive VoltConn_Close demo_open = Ret None w' ∧
    listeners w' !! 1%positive = Some nl' ∧
    nl_stopRequested nl' = true ∧ nl_loopRunning nl' = true ∧
    nl_wg nl' = {| wg_counter := 1 |} ∧
    streams w' !! 1%positive = Some s' ∧ st_closed s' = true.
Proof.
  destruct (Close_does_not_wait_for_listener demo_serialize demo_range
              demo_open 1%positive demo_conn
              {| nl_reader := Some 1%positive; nl_execs := ∅; nl_queries := ∅;
                 nl_wg := {| wg_counter := 1 |}; nl_stopRequested := false;
                 nl_loopRunning := true |}
              1%positive demo_stream demo_open_reachable
              eq_refl eq_refl eq_refl eq_refl eq_refl eq_refl)
    as (err & w' & nl' & s' & Hret & Hrest).
  exists w', nl', s'. split; [| exact Hrest].
  rewrite Hret. f_equal.
  assert (result_of (via 1%positive VoltConn_Close demo_open) = Some None) as Hv
    by reflexivity.
  rewrite Hret in Hv. by injection Hv.
Defined.

(** ** Handles *)


Lemma issued_length w : length (handles_issued w) = length (handle_log w).
Proof. unfold handles_issued. apply length_reverse. Qed.



(** The handle a pending result is filed under is the one the call has just
    taken from the counter. *)
Lemma QueryAsync_files_under_new_handle {driver_Value : Type}
    (serializeStatement : string → Z → list driver_Value → list Z * option error)
    vc query args w vqr w' :
  VoltConn_QueryAsync serializeStatement vc query args w
    = Ret (Some vqr, None) w' →
  ∃ f, vqr_heap w' !! vqr = Some f ∧
       vqr_han f = atomic_AddInt64 (qHandle w) 1 ∧
       handle_log w' = vqr_han f :: handle_log w ∧
       map_read query_maps (queries vc) w' !! vqr_han f = Some vqr.
Proof.
  unfold VoltConn_QueryAsync. destruct (isOpen vc); simpl; [| done].
  unfold bind at 1. rewrite next_handle_spec.
  intros H.
  apply bind_Ret_inv in H as (c & w1 & Hreg & H).
  apply bind_Ret_inv in H as (p & w2 & Hnew & H).
  apply bind_Ret_inv in H as ([] & w3 & Hasg & H).
  apply bind_Ret_inv in H as (err & w4 & Hser & H).
  destruct err as [e|].
  { apply bind_Ret_inv in H as (? & ? & _ & H). done. }
  injection H as <- <-.
  pose proof (keeps_core_registerQuery _ _ _ w1 ltac:(by rewrite Hreg))
    as (Hq1 & Hl1 & _ & _ & Hm1 & Hh1 & _).
  pose proof (keeps_core_serializeQuery serializeStatement _ _ _ _ _ _ w4
                ltac:(by rewrite Hser)) as (_ & Hl4 & _ & _ & Hm4 & Hh4 & _).
  unfold newVoltQueryResult, alloc in Hnew. injection Hnew as <- <-.
  unfold VoltConn_registerQuery, map_assign in Hasg. simpl in Hasg.
  destruct (query_maps w1 !! queries vc) as [o|] eqn:Ho; [| done].
  injection Hasg as <-.
  eexists. rewrite Hh4. simpl. split; [apply lookup_insert_eq |]. simpl.
  split; [done |]. split.
  - rewrite Hl4. simpl. by rewrite Hl1.
  - unfold map_read. rewrite Hm4. simpl. rewrite lookup_insert_eq. simpl.
    apply lookup_insert_eq.
Qed.

Lemma ExecAsync_files_under_new_handle {driver_Value : Type}
    (serializeStatement : string → Z → list driver_Value → list Z * option error)
    vc query args w ver w' :
  VoltConn_ExecAsync serializeStatement vc query args w
    = Ret (Some ver, None) w' →
  ∃ f, ver_heap w' !! ver = Some f ∧
       ver_han f = atomic_AddInt64 (qHandle w) 1 ∧
       handle_log w' = ver_han f :: handle_log w ∧
       map_read exec_maps (execs vc) w' !! ver_han f = Some ver.
Proof.
  unfold VoltConn_ExecAsync. destruct (isOpen vc); simpl; [| done].
  unfold bind at 1. rewrite next_handle_spec.
  intros H.
  apply bind_Ret_inv in H as (c & w1 & Hreg & H).
  apply bind_Ret_inv in H as (p & w2 & Hnew & H).
  apply bind_Ret_inv in H as ([] & w3 & Hasg & H).
  apply bind_Ret_inv in H as (err & w4 & Hser & H).
  destruct err as [e|].
  { apply bind_Ret_inv in H as (? & ? & _ & H). done. }
  injection H as <- <-.
  pose proof (keeps_core_registerExec _ _ _ w1 ltac:(by rewrite Hreg))
    as (Hq1 & Hl1 & _ & Hm1 & _ & _ & Hh1).
  pose proof (keeps_core_serializeQuery serializeStatement _ _ _ _ _ _ w4
                ltac:(by rewrite Hser)) as (_ & Hl4 & _ & Hm4 & _ & _ & Hh4).
  unfold newVoltExecResult, alloc in Hnew. injection Hnew as <- <-.
  unfold VoltConn_registerExec, map_assign in Hasg. simpl in Hasg.
  destruct (exec_maps w1 !! execs vc) as [o|] eqn:Ho; [| done].
  injection Hasg as <-.
  eexists. rewrite Hh4. simpl. split; [apply lookup_insert_eq |]. simpl.
  split; [done |]. split.
  - rewrite Hl4. simpl. by rewrite Hl1.
  - unfold map_read. rewrite Hm4. simpl. rewrite lookup_insert_eq. simpl.
    apply lookup_insert_eq.
Qed.



(** ** Drain *)

Lemma swap_remove_spec {A} (s : list A) i s' w o :
  swap_remove s i w = Ret s' o →
  o = w ∧ (i < length s)%nat ∧
  (∀ x, x ∈ s' → x ∈ s) ∧
  (∀ j x, s !! j = Some x → j ≠ i → x ∈ s').
Proof.
  unfold swap_remove.
  destruct (s !! (length s - 1)%nat) as [z|] eqn:Hlast; [| done].
  destruct (decide (i < length s)%nat) as [Hi|]; [| done].
  intros [= <- <-]. split; [done |]. split; [done |]. split.
  - intros x Hx. apply list_elem_of_lookup in Hx as [j Hj].
    apply lookup_take_Some in Hj as [Hj Hlt].
    destruct (decide (j = i)) as [-> | Hne].
    + rewrite list_lookup_insert_eq in Hj by done. simplify_eq.
      by eapply list_elem_of_lookup_2.
    + rewrite list_lookup_insert_ne in Hj by done.
      by eapply list_elem_of_lookup_2.
  - intros j x Hj Hne.
    pose proof (lookup_lt_Some _ _ _ Hj) as Hjlen.
    destruct (decide (j = length s - 1)%nat) as [-> | Hnl].
    + assert (x = z) as -> by congruence.
      apply (list_elem_of_lookup_2 _ i).
      apply lookup_take_Some. split; [| lia].
      by rewrite list_lookup_insert_eq.
    + apply (list_elem_of_lookup_2 _ j).
      apply lookup_take_Some. split; [| lia].
      by rewrite list_lookup_insert_ne.
Qed.

Lemma setRows_resolves p rows w w' :
  VoltQueryResult_setRows p rows w = Ret tt w' → resolves p w w'.
Proof.
  intros H. destruct (vqr_heap w !! p) as [f|] eqn:Hf.
  - rewrite (setRows_spec _ _ _ _ Hf) in H.
    apply map_delete_query_frame in H as (Hh & _ & _ & _ & _ & _ & _ & _ & He & _).
    exists f. eexists. split; [done |]. rewrite Hh, He. done.
  - unfold VoltQueryResult_setRows, bind, deref in H. by rewrite Hf in H.
Qed.

Lemma query_setError_resolves p err w w' :
  VoltQueryResult_setError p err w = Ret tt w' → resolves p w w'.
Proof.
  intros H. destruct (vqr_heap w !! p) as [f|] eqn:Hf.
  - rewrite (query_setError_spec _ _ _ _ Hf) in H.
    apply map_delete_query_frame in H as (Hh & _ & _ & _ & _ & _ & _ & _ & He & _).
    exists f. eexists. split; [done |]. rewrite Hh, He. done.
  - unfold VoltQueryResult_setError, bind, deref in H. by rewrite Hf in H.
Qed.

Lemma Drain_deliver_resolves p val ok w w' :
  Drain_deliver p val ok w = Ret tt w' → resolves p w w'.
Proof.
  unfold Drain_deliver.
  destruct ok; simpl; [| apply query_setError_resolves].
  destruct (rv_Kind val); [| apply query_setError_resolves].
  destruct (assert_driver_Rows (rv_Interface val)) as [rows []]; simpl;
    [| apply query_setError_resolves].
  destruct rows as [| vrows | tag]; simpl; [done | | done].
  unfold bind, ret. simpl.
  destruct (VoltRows_error vrows);
    [apply query_setError_resolves | apply setRows_resolves].
Qed.

Lemma resolves_resolved p w w' : resolves p w w' → is_resolved_query w' p.
Proof.
  intros (f & f' & _ & Hh & Hact & _). exists f'. rewrite Hh.
  split; [apply lookup_insert_eq | done].
Qed.

Lemma resolves_mono p q w w' :
  resolves p w w' → is_resolved_query w q → is_resolved_query w' q.
Proof.
  intros Hres Hq. destruct (decide (q = p)) as [-> | Hne].
  - by eapply resolves_resolved.
  - destruct Hres as (f & f' & _ & Hh & _). destruct Hq as (g & Hg & Hact).
    exists g. rewrite Hh. by rewrite lookup_insert_ne.
Qed.

Lemma Drain_loop_spec vqrs sched :
  ∀ idxs cases w w',
    Drain_loop sched vqrs idxs cases w = Ret tt w' →
    (∀ q, is_resolved_query w q → is_resolved_query w' q) ∧
    (∀ j, j ∈ idxs → ∃ p, vqrs !! j = Some p ∧ is_resolved_query w' p) ∧
    ∃ evs, events w' = evs ++ events w ∧
           Forall (λ e, ∃ cs, e = EvSelect cs ∧ ∀ c, c ∈ cs → c ∈ cases) evs.
Proof.
  induction sched as [| r sched' IH]; intros idxs cases w w' H.
  - destruct idxs; simpl in H; [| by destruct (too_many_cases cases)].
    injection H as <-.
    split; [done |]. split; [by intros j Hj; apply elem_of_nil in Hj |].
    exists []. by split.
  - destruct idxs as [| i0 idxs0]; simpl in H.
    { injection H as <-.
      split; [done |]. split; [by intros j Hj; apply elem_of_nil in Hj |].
      exists []. by split. }
    destruct (too_many_cases cases); [done |].
    unfold bind at 1 in H. simpl in H.
    destruct ((i0 :: idxs0) !! sel_chosen r) as [idx|] eqn:Hidx; [| done].
    apply bind_Ret_inv in H as (idxs' & w1 & Hsw1 & H).
    apply swap_remove_spec in Hsw1 as (-> & _ & _ & Hkeep).
    apply bind_Ret_inv in H as (cases' & w2 & Hsw2 & H).
    apply swap_remove_spec in Hsw2 as (-> & _ & Hsub & _).
    destruct (vqrs !! idx) as [chosenQuery|] eqn:Hq; [| done].
    apply bind_Ret_inv in H as ([] & w3 & Hdel & H).
    apply Drain_deliver_resolves in Hdel.
    destruct (IH _ _ _ _ H) as (Hmono & Hall & evs & Hev & Hevs).
    split; [| split].
    + intros q Hres. apply Hmono. eapply resolves_mono; [done |].
      destruct Hres as (g & Hg & Hact). by exists g.
    + intros j Hj. apply list_elem_of_lookup in Hj as [pos Hpos].
      destruct (decide (pos = sel_chosen r)) as [-> | Hne].
      * assert (j = idx) as -> by congruence.
        exists chosenQuery. split; [done |].
        apply Hmono. by eapply resolves_resolved.
      * apply Hall. by eapply Hkeep.
    + exists (evs ++ [EvSelect cases]). split.
      * rewrite Hev. destruct Hdel as (_ & _ & _ & _ & _ & ->). simpl.
        by rewrite <- app_assoc.
      * apply Forall_app. split.
        -- eapply Forall_impl; [exact Hevs |].
           intros e (cs & -> & Hcs). exists cs. split; [done |].
           intros c Hc. apply Hsub. by apply Hcs.
        -- apply Forall_singleton. by exists cases.
Qed.

Lemma Drain_collect_spec vqrs :
  ∀ i idxs0 cases0 idxs cases w w',
    Drain_collect vqrs i idxs0 cases0 w = Ret (idxs, cases) w' →
    (∀ j p, vqrs !! j = Some p → is_resolved_query w p ∨ (i + j)%nat ∈ idxs) ∧
    (∀ x, x ∈ idxs0 → x ∈ idxs) ∧
    (∀ c, c ∈ cases → c ∈ cases0 ∨
       ∃ p f, p ∈ vqrs ∧ vqr_heap w !! p = Some f ∧
              vqr_active f = true ∧ vqr_ch f = c) ∧
    (∀ x, x ∈ idxs → x ∈ idxs0 ∨
       ∃ j p, x = (i + j)%nat ∧ vqrs !! j = Some p ∧ is_active_query w p).
Proof.
  induction vqrs as [| vqr rest IH]; intros i idxs0 cases0 idxs cases w w' H.
  - simpl in H. injection H as <- <- <-.
    split; [by intros j p Hj; rewrite lookup_nil in Hj |]. by eauto.
  - rewrite Drain_collect_cons in H.
    destruct (vqr_heap w !! vqr) as [f|] eqn:Hf; [| done].
    destruct (vqr_active f) eqn:Hact.
    + destruct (IH _ _ _ _ _ _ _ H) as (H1 & H2 & H3 & H4).
      split; [| split; [| split]].
      * intros [| j] p Hj; simpl in Hj.
        -- right. apply H2. rewrite Nat.add_0_r.
           apply elem_of_app. right. by apply list_elem_of_singleton.
        -- destruct (H1 j p Hj) as [? | Hin]; [by left | right].
           by replace (i + S j)%nat with (S i + j)%nat by lia.
      * intros x Hx. apply H2. apply elem_of_app. by left.
      * intros c Hc. destruct (H3 c Hc) as [Hin | (p & g & Hp & Hg)].
        -- apply elem_of_app in Hin as [Hin | Hin]; [by left | right].
           apply list_elem_of_singleton in Hin as ->.
           exists vqr, f. split; [apply elem_of_cons; by left | done].
        -- right. exists p, g. split; [apply elem_of_cons; by right | done].
      * intros x Hx. destruct (H4 x Hx) as [Hin | (j & p & -> & Hj & Hp)].
        -- apply elem_of_app in Hin as [Hin | Hin]; [by left | right].
           apply list_elem_of_singleton in Hin as ->.
           exists 0%nat, vqr. split; [lia |]. split; [done | by exists f].
        -- right. exists (S j), p. split; [lia | done].
    + destruct (IH _ _ _ _ _ _ _ H) as (H1 & H2 & H3 & H4).
      split; [| split; [| split]].
      * intros [| j] p Hj; simpl in Hj.
        -- left. simplify_eq. by exists f.
        -- destruct (H1 j p Hj) as [? | Hin]; [by left | right].
           by replace (i + S j)%nat with (S i + j)%nat by lia.
      * done.
      * intros c Hc. destruct (H3 c Hc) as [Hin | (p & g & Hp & Hg)];
          [by left | right].
        exists p, g. split; [apply elem_of_cons; by right | done].
      * intros x Hx. destruct (H4 x Hx) as [Hin | (j & p & -> & Hj & Hp)];
          [by left | right].
        exists (S j), p. split; [lia | done].
Qed.

Lemma Drain_collect_all_resolved vqrs :
  ∀ i idxs cases w,
    Forall (is_resolved_query w) vqrs →
    Drain_collect vqrs i idxs cases w = Ret (idxs, cases) w.
Proof.
  induction vqrs as [| vqr rest IH]; intros i idxs cases w Hall; [done |].
  apply Forall_cons in Hall as [(f & Hf & Hact) Hrest].
  rewrite Drain_collect_cons, Hf, Hact. by apply IH.
Qed.

(** *** Drain returns once the schedule has served every pending result *)

Lemma swap_remove_returns {A} (s : list A) i w :
  (i < length s)%nat →
  ∃ s', swap_remove s i w = Ret s' w ∧ length s' = (length s - 1)%nat.
Proof.
  intros Hi. unfold swap_remove.
  destruct (lookup_lt_is_Some_2 s (length s - 1)%nat ltac:(lia)) as [z ->].
  destruct (decide (i < length s)%nat); [| done].
  eexists. split; [reflexivity |].
  rewrite length_take, length_insert. lia.
Qed.

Lemma Drain_deliver_returns p r w :
  is_Some (vqr_heap w !! p) → delivery_panics r = false →
  ∃ w', Drain_deliver p (sel_val r) (sel_ok r) w = Ret tt w'.
Proof.
  intros [f Hf] Hnp.
  destruct (query_resolve_unguarded p f w Hf) as [Hrows Herr].
  assert (∀ err, ∃ w', VoltQueryResult_setError p err w = Ret tt w') as Herr'.
  { intros err. destruct (Herr err) as (w' & _ & H & _). eauto. }
  unfold Drain_deliver, delivery_panics in *.
  destruct (sel_ok r); simpl in *; [| apply Herr'].
  destruct (rv_Kind (sel_val r)); [| apply Herr'].
  destruct (rv_Interface (sel_val r)) as [[| vrows | tag] | tag]; simpl;
    [apply Herr' | | done | apply Herr'].
  unfold bind, ret. simpl. destruct (VoltRows_error vrows); [apply Herr' |].
  destruct (Hrows (RowsVolt vrows)) as (w' & _ & H & _). eauto.
Qed.

Lemma too_many_cases_false cases :
  Z.of_nat (length cases) ≤ reflect_Select_max → too_many_cases cases = false.
Proof. intros H. unfold too_many_cases. by apply Z.ltb_ge. Qed.

Lemma too_many_cases_true cases :
  reflect_Select_max < Z.of_nat (length cases) → too_many_cases cases = true.
Proof. intros H. unfold too_many_cases. by apply Z.ltb_lt. Qed.

Lemma Drain_loop_returns vqrs sched :
  ∀ idxs cases w,
    length idxs = length cases →
    Z.of_nat (length cases) ≤ reflect_Select_max →
    (∀ idx, idx ∈ idxs → ∃ p, vqrs !! idx = Some p ∧ is_Some (vqr_heap w !! p)) →
    sched_serves (length idxs) sched →
    ∃ w', Drain_loop sched vqrs idxs cases w = Ret tt w'.
Proof.
  induction sched as [| r rest IH]; intros idxs cases w Hlen Hmax Hvalid Hserves.
  - destruct idxs; [by eexists | done].
  - destruct idxs as [| i0 idxs0]; [by eexists |].
    destruct Hserves as (Hchosen & Hnp & Hrest). simpl.
    rewrite (too_many_cases_false _ Hmax).
    unfold bind at 1. simpl.
    destruct (lookup_lt_is_Some_2 (i0 :: idxs0) (sel_chosen r) Hchosen)
      as [idx Hidx].
    simpl in Hidx. rewrite Hidx.
    destruct (swap_remove_returns (i0 :: idxs0) (sel_chosen r)
                (log_event (EvSelect cases) w) Hchosen) as (idxs' & Hsw1 & Hl1).
    simpl in Hsw1. rewrite (bind_Ret _ _ _ _ _ Hsw1).
    destruct (swap_remove_returns cases (sel_chosen r)
                (log_event (EvSelect cases) w)) as (cases' & Hsw2 & Hl2).
    { rewrite <- Hlen. exact Hchosen. }
    rewrite (bind_Ret _ _ _ _ _ Hsw2).
    destruct (Hvalid idx) as (q & Hq & Hsome).
    { by eapply list_elem_of_lookup_2. }
    rewrite Hq.
    destruct (Drain_deliver_returns q r (log_event (EvSelect cases) w) Hsome Hnp)
      as (w3 & Hdel).
    rewrite (bind_Ret _ _ _ _ _ Hdel).
    apply IH.
    + rewrite Hl1, Hl2. by rewrite Hlen.
    + rewrite Hl2. lia.
    + intros j Hj. apply swap_remove_spec in Hsw1 as (_ & _ & Hsub & _).
      destruct (Hvalid j (Hsub j Hj)) as (p & Hp & [g Hg]).
      exists p. split; [done |].
      apply Drain_deliver_resolves in Hdel as (f & f' & _ & Hh & _).
      rewrite Hh. simpl in Hg.
      destruct (decide (p = q)) as [-> | Hne].
      * rewrite lookup_insert_eq. by eexists.
      * rewrite lookup_insert_ne by done. by eexists.
    + rewrite Hl1. simpl. by rewrite Nat.sub_0_r.
Qed.

Lemma Drain_loop_too_many sched vqrs idxs cases w :
  idxs ≠ [] → reflect_Select_max < Z.of_nat (length cases) →
  Drain_loop sched vqrs idxs cases w
    = Panic "reflect.Select: too many cases (max 65536)".
Proof.
  intros Hne Hmany. destruct idxs as [| i0 idxs0]; [done |].
  destruct sched; simpl; by rewrite (too_many_cases_true _ Hmany).
Qed.

Lemma Drain_collect_lengths vqrs :
  ∀ i idxs0 cases0 idxs cases w w',
    Drain_collect vqrs i idxs0 cases0 w = Ret (idxs, cases) w' →
    length idxs0 = length cases0 → length idxs = length cases.
Proof.
  induction vqrs as [| vqr rest IH]; intros i idxs0 cases0 idxs cases w w' H Hl.
  - simpl in H. by injection H as <- <- _.
  - rewrite Drain_collect_cons in H.
    destruct (vqr_heap w !! vqr) as [f|]; [| done].
    destruct (vqr_active f); eapply IH; try exact H; [| done].
    rewrite !length_app. simpl. by rewrite Hl.
Qed.

(** C5.  For every schedule of completions: when [Drain] returns, every
    result of the given collection is resolved, and each [reflect.Select] it
    made waited only on channels of results that were active on entry.  If
    all results are resolved on entry, [Drain] returns at once, whatever the
    schedule (also the empty one), with the world untouched.  The cases
    [Drain] collects are those of the results active on entry and of no
    other, so a result resolved on entry is never received for.  With at
    most 65536 results active on entry, the number of cases
    [reflect.Select] accepts, [Drain] does return as soon as the schedule
    serves each collected case; with more it panics in its first
    [reflect.Select], whatever the schedule. *)
Theorem Drain_returns_when_all_resolved
    (vc : VoltConn) (vqrs : list loc) (sched : list SelectResult) (w : World) :
  (∀ w', VoltConn_Drain vc vqrs sched w = Ret tt w' →
     Forall (is_resolved_query w') vqrs ∧
     ∃ evs, events w' = evs ++ events w ∧
       Forall (λ e, ∃ cs, e = EvSelect cs ∧
                 ∀ c, c ∈ cs →
                   ∃ p f, p ∈ vqrs ∧ vqr_heap w !! p = Some f ∧
                          vqr_active f = true ∧ vqr_ch f = c) evs) ∧
  (Forall (is_resolved_query w) vqrs →
     VoltConn_Drain vc vqrs sched w = Ret tt w) ∧
  (∀ idxs cases,
     Drain_collect vqrs 0 [] [] w = Ret (idxs, cases) w →
     (∀ idx, idx ∈ idxs → ∃ p, vqrs !! idx = Some p ∧ is_active_query w p) ∧
     (Z.of_nat (length idxs) ≤ reflect_Select_max →
      sched_serves (length idxs) sched →
      ∃ w', VoltConn_Drain vc vqrs sched w = Ret tt w') ∧
     (reflect_Select_max < Z.of_nat (length idxs) →
      ∃ msg, VoltConn_Drain vc vqrs sched w = Panic msg)).
Proof.
  split; [| split].
  - intros w' H. unfold VoltConn_Drain in H.
    apply bind_Ret_inv in H as ([idxs cases] & w1 & Hcol & Hloop).
    pose proof (Drain_collect_world _ _ _ _ _ _ _ Hcol) as ->.
    apply Drain_collect_spec in Hcol as (Hcover & _ & Hcases & _).
    apply Drain_loop_spec in Hloop as (Hmono & Hall & evs & Hev & Hevs).
    split.
    + apply Forall_forall. intros p Hp.
      apply list_elem_of_lookup in Hp as [j Hj].
      destruct (Hcover j p Hj) as [Hres | Hin]; [by apply Hmono |].
      destruct (Hall j Hin) as (p' & Hp' & Hres). by simplify_eq.
    + exists evs. split; [done |].
      eapply Forall_impl; [exact Hevs |].
      intros e (cs & -> & Hcs). exists cs. split; [done |].
      intros c Hc. destruct (Hcases c (Hcs c Hc)) as [Hnil | Hch]; [| done].
      by apply elem_of_nil in Hnil.
  - intros Hall. unfold VoltConn_Drain.
    rewrite (bind_Ret _ _ _ _ _ (Drain_collect_all_resolved _ _ _ _ _ Hall)).
    by destruct sched.
  - intros idxs cases Hcol.
    assert (∀ idx, idx ∈ idxs →
              ∃ p, vqrs !! idx = Some p ∧ is_active_query w p) as Hactive.
    { intros idx Hidx.
      apply Drain_collect_spec in Hcol as (_ & _ & _ & Hidxs).
      destruct (Hidxs idx Hidx) as [Hnil | (j & p & -> & Hj & Hp)].
      - by apply elem_of_nil in Hnil.
      - by exists p. }
    split; [exact Hactive |].
    pose proof (Drain_collect_lengths _ _ _ _ _ _ _ _ Hcol eq_refl) as Hlen.
    split.
    + intros Hmax Hserves. unfold VoltConn_Drain.
      rewrite (bind_Ret _ _ _ _ _ Hcol).
      apply Drain_loop_returns; [done | by rewrite <- Hlen | | done].
      intros idx Hidx.
      destruct (Hactive idx Hidx) as (p & Hp & f & Hf & _).
      exists p. split; [done | by eexists].
    + intros Hmany. unfold VoltConn_Drain.
      rewrite (bind_Ret _ _ _ _ _ Hcol). eexists.
      apply Drain_loop_too_many; [| by rewrite <- Hlen].
      intros ->. simpl in Hmany. unfold reflect_Select_max in Hmany. lia.
Qed.

Lemma Drain_returns_when_all_resolved_witness :
  (∃ w', VoltConn_Drain demo_conn [1; 2; 3]%positive demo_sched demo_three
           = Ret tt w' ∧
         Forall (is_resolved_query w') [1; 2; 3]%positive ∧
         events w' = [EvSelect [1%positive]; EvSelect [1%positive; 3%positive];
                      EvRecv 2%positive]) ∧
  (∃ w', VoltConn_Drain demo_conn [1; 3]%positive [] demo_three = Blocked w') ∧
  VoltConn_Drain demo_conn [2]%positive [] demo_three = Ret tt demo_three.
Proof.
  destruct (Drain_returns_when_all_resolved demo_conn [1; 2; 3]%positive
              demo_sched demo_three) as (Hpost & _ & Hlive).
  destruct (Drain_returns_when_all_resolved demo_conn [2]%positive
              [] demo_three) as (_ & Hskip & _).
  split; [| split].
  - destruct (Hlive [0; 2]%nat [1; 3]%positive eq_refl) as (_ & Hret & _).
    destruct Hret as [w' Hw'];
      [unfold reflect_Select_max; simpl; lia | repeat split; simpl; lia |].
    exists w'. split; [exact Hw' |].
    destruct (Hpost w' Hw') as [Hres _]. split; [exact Hres |].
    assert (events (world_of (VoltConn_Drain demo_conn [1; 2; 3]%positive
                                demo_sched demo_three))
            = [EvSelect [1%positive]; EvSelect [1%positive; 3%positive];
               EvRecv 2%positive]) as Hev by reflexivity.
    by rewrite Hw' in Hev.
  - eexists. vm_compute. reflexivity.
  - apply Hskip. repeat constructor; eexists; split; reflexivity.
Defined.

(** * Further properties of conn.go *)

(** ** The slice idiom of Drain *)

Lemma insert_Permutation {A} (t : list A) i x z :
  t !! i = Some x → x :: <[i := z]> t ≡ₚ z :: t.
Proof.
  intros Hi. pose proof (lookup_lt_Some _ _ _ Hi) as Hlt.
  rewrite insert_take_drop by done.
  rewrite <- (take_drop_middle t i x Hi) at 3.
  rewrite <- !Permutation_middle. apply perm_swap.
Qed.

(** X2.  The idiom [s[i] = s[len(s)-1]; s = s[:len(s)-1]] removes exactly the
    element at index [i]: what is left is the slice without that one
    element, up to order, and one shorter.  With [i] out of range it
    panics. *)
Theorem swap_remove_removes_one {A} (s : list A) (i : nat) (w : World) :
  (∀ x, s !! i = Some x →
     ∃ s', swap_remove s i w = Ret s' w ∧ s ≡ₚ x :: s' ∧
           S (length s') = length s) ∧
  (s !! i = None → ∃ msg, swap_remove s i w = Panic msg).
Proof.
  split.
  - intros x Hi. pose proof (lookup_lt_Some _ _ _ Hi) as Hlt.
    unfold swap_remove.
    destruct (lookup_lt_is_Some_2 s (length s - 1)%nat ltac:(lia)) as [z Hz].
    rewrite Hz. destruct (decide (i < length s)%nat); [| done].
    eexists. split; [reflexivity |]. split.
    + assert (s = take (length s - 1) s ++ [z]) as Hs.
      { rewrite <- (take_S_r _ _ _ Hz).
        replace (S (length s - 1)) with (length s) by lia.
        by rewrite firstn_all. }
      destruct (decide (i = length s - 1)%nat) as [-> | Hne].
      * assert (x = z) as -> by congruence.
        rewrite list_insert_id by done. rewrite Hs at 1.
        by rewrite Permutation_app_comm.
      * rewrite take_insert_lt by lia.
        rewrite Hs at 1. rewrite Permutation_app_comm. simpl.
        symmetry. apply insert_Permutation.
        rewrite lookup_take_lt by lia. done.
    + rewrite length_take, length_insert. lia.
  - intros Hi. apply lookup_ge_None in Hi. unfold swap_remove.
    destruct (s !! (length s - 1)%nat); [| by eexists].
    destruct (decide (i < length s)%nat); [lia | by eexists].
Qed.

(** ** What a delivery does to a result *)

Lemma map_delete_query_effect m k w w' :
  map_delete query_maps set_query_maps m k w = Ret tt w' →
  query_maps w' =
    match query_maps w !! m with
    | Some o => <[m := delete k o]> (query_maps w)
    | None => query_maps w
    end.
Proof.
  unfold map_delete. destruct (query_maps w !! m); by intros [= <-].
Qed.

Lemma setRows_effect p rows w w' :
  VoltQueryResult_setRows p rows w = Ret tt w' →
  ∃ f, vqr_heap w !! p = Some f ∧
    vqr_heap w' =
      <[p := {| vqr_conn := vqr_conn f; vqr_han := vqr_han f;
                vqr_ch := vqr_ch f; vqr_rows := rows; vqr_err := vqr_err f;
                vqr_active := false |}]> (vqr_heap w) ∧
    query_maps w' =
      match query_maps w !! queries (vqr_conn f) with
      | Some o => <[queries (vqr_conn f) := delete (vqr_han f) o]> (query_maps w)
      | None => query_maps w
      end ∧
    events w' = events w ∧ only_queries_changed w w'.
Proof.
  intros H. destruct (vqr_heap w !! p) as [f|] eqn:Hf.
  - rewrite (setRows_spec _ _ _ _ Hf) in H. exists f. split; [done |].
    pose proof (map_delete_query_effect _ _ _ _ H) as Hm.
    apply map_delete_query_frame in H
      as (Hh & Hv & He & Hc & Hl & Hs & Hq & Hlog & Hev & Hcc).
    split; [by rewrite Hh |]. split; [exact Hm |]. split; [exact Hev |].
    repeat split; done.
  - unfold VoltQueryResult_setRows, bind, deref in H. by rewrite Hf in H.
Qed.

Lemma query_setError_effect p err w w' :
  VoltQueryResult_setError p err w = Ret tt w' →
  ∃ f, vqr_heap w !! p = Some f ∧
    vqr_heap w' =
      <[p := {| vqr_conn := vqr_conn f; vqr_han := vqr_han f;
                vqr_ch := vqr_ch f; vqr_rows := vqr_rows f; vqr_err := err;
                vqr_active := false |}]> (vqr_heap w) ∧
    query_maps w' =
      match query_maps w !! queries (vqr_conn f) with
      | Some o => <[queries (vqr_conn f) := delete (vqr_han f) o]> (query_maps w)
      | None => query_maps w
      end ∧
    events w' = events w ∧ only_queries_changed w w'.
Proof.
  intros H. destruct (vqr_heap w !! p) as [f|] eqn:Hf.
  - rewrite (query_setError_spec _ _ _ _ Hf) in H. exists f. split; [done |].
    pose proof (map_delete_query_effect _ _ _ _ H) as Hm.
    apply map_delete_query_frame in H
      as (Hh & Hv & He & Hc & Hl & Hs & Hq & Hlog & Hev & Hcc).
    split; [by rewrite Hh |]. split; [exact Hm |]. split; [exact Hev |].
    repeat split; done.
  - unfold VoltQueryResult_setError, bind, deref in H. by rewrite Hf in H.
Qed.

(** One delivery of [Drain]: the result it is stored on keeps its
    connection, handle and channel, holds [drained_outcome] and is
    resolved; its handle leaves the owning map. *)
Lemma Drain_deliver_effect p val ok w w' :
  Drain_deliver p val ok w = Ret tt w' →
  ∃ f, vqr_heap w !! p = Some f ∧
    vqr_heap w' =
      <[p := {| vqr_conn := vqr_conn f; vqr_han := vqr_han f;
                vqr_ch := vqr_ch f;
                vqr_rows := (drained_outcome f val ok).1;
                vqr_err := (drained_outcome f val ok).2;
                vqr_active := false |}]> (vqr_heap w) ∧
    query_maps w' =
      match query_maps w !! queries (vqr_conn f) with
      | Some o => <[queries (vqr_conn f) := delete (vqr_han f) o]> (query_maps w)
      | None => query_maps w
      end ∧
    events w' = events w ∧ only_queries_changed w w'.
Proof.
  unfold Drain_deliver, drained_outcome.
  destruct ok; simpl; [| apply query_setError_effect].
  destruct (rv_Kind val); [| apply query_setError_effect].
  destruct (rv_Interface val) as [[| vrows | tag] | tag]; simpl;
    [apply query_setError_effect | | done | apply query_setError_effect].
  unfold bind, ret. simpl. unfold VoltRows_error.
  destruct (vr_err vrows); [apply query_setError_effect | apply setRows_effect].
Qed.

(** ** Drain keeps its two slices aligned *)

Lemma swap_remove_lookup {A} (s s' : list A) i w w' :
  swap_remove s i w = Ret s' w' →
  length s' = (length s - 1)%nat ∧
  ∀ k y, s' !! k = Some y →
    (k = i ∧ s !! (length s - 1)%nat = Some y) ∨ (k ≠ i ∧ s !! k = Some y).
Proof.
  unfold swap_remove.
  destruct (s !! (length s - 1)%nat) as [z|] eqn:Hz; [| done].
  destruct (decide (i < length s)%nat) as [Hi|]; [| done].
  intros [= <- _]. split.
  - rewrite length_take, length_insert. lia.
  - intros k y Hk. apply lookup_take_Some in Hk as [Hk Hlt].
    destruct (decide (k = i)) as [-> | Hne].
    + left. rewrite list_lookup_insert_eq in Hk by done. by simplify_eq.
    + right. by rewrite list_lookup_insert_ne in Hk.
Qed.

Lemma aligned_swap_remove w vqrs idxs cases i idxs' cases' w1 w2 w3 w4 :
  aligned w vqrs idxs cases →
  swap_remove idxs i w1 = Ret idxs' w2 →
  swap_remove cases i w3 = Ret cases' w4 →
  aligned w vqrs idxs' cases'.
Proof.
  intros [Hlen Hal] Hi Hc.
  apply swap_remove_lookup in Hi as [Hli Hi].
  apply swap_remove_lookup in Hc as [Hlc Hc].
  split; [lia |].
  intros k idx c Hk Hkc.
  destruct (Hi _ _ Hk) as [[-> Hx] | [Hne Hx]];
    destruct (Hc _ _ Hkc) as [[? Hy] | [? Hy]]; try done.
  - rewrite <- Hlen in Hy. by eapply Hal.
  - by eapply Hal.
Qed.

Lemma aligned_heap w w' vqrs idxs cases :
  aligned w vqrs idxs cases →
  (∀ p f, vqr_heap w !! p = Some f →
     ∃ f', vqr_heap w' !! p = Some f' ∧ vqr_ch f' = vqr_ch f) →
  aligned w' vqrs idxs cases.
Proof.
  intros [Hlen Hal] Hheap. split; [done |].
  intros k idx c Hk Hkc.
  destruct (Hal _ _ _ Hk Hkc) as (p & f & Hp & Hf & Hch).
  destruct (Hheap _ _ Hf) as (f' & Hf' & Hch').
  exists p, f'. split; [done |]. split; [done | congruence].
Qed.

Lemma Drain_collect_aligned rest :
  ∀ pre idxs0 cases0 idxs cases w w',
    aligned w (pre ++ rest) idxs0 cases0 →
    Drain_collect rest (length pre) idxs0 cases0 w = Ret (idxs, cases) w' →
    aligned w (pre ++ rest) idxs cases.
Proof.
  induction rest as [| vqr rest IH]; intros pre idxs0 cases0 idxs cases w w' Hal H.
  - simpl in H. by injection H as <- <- _.
  - rewrite Drain_collect_cons in H.
    destruct (vqr_heap w !! vqr) as [f|] eqn:Hf; [| done].
    replace (pre ++ vqr :: rest) with ((pre ++ [vqr]) ++ rest) in *
      by by rewrite <- app_assoc.
    replace (S (length pre)) with (length (pre ++ [vqr])) in H
      by (rewrite length_app; simpl; lia).
    destruct (vqr_active f); eapply IH; try exact H; [| done].
    destruct Hal as [Hlen Hal]. split.
    { rewrite !length_app. simpl. lia. }
    intros k idx c Hk Hkc.
    apply lookup_app_Some in Hk as [Hk | [Hge Hk]].
    + pose proof (lookup_lt_Some _ _ _ Hk) as Hlt.
      rewrite lookup_app_l in Hkc by lia. by eapply Hal.
    + apply list_lookup_singleton_Some in Hk as [Hk0 <-].
      rewrite lookup_app_r in Hkc by lia.
      apply list_lookup_singleton_Some in Hkc as [_ <-].
      exists vqr, f. split; [| done].
      rewrite lookup_app_l by (rewrite length_app; simpl; lia).
      by rewrite lookup_app_r, Nat.sub_diag.
Qed.

(** X3.  The slices [idxs] and [cases] that [Drain] builds go together, and
    every turn of its second loop keeps them so: the value [reflect.Select]
    received on case [chosen] is stored on the result that owns that
    channel (it becomes resolved, holding the rows or the error of the
    delivery), and the loop goes on with the two slices still aligned. *)
Theorem Drain_stores_on_channel_owner (vqrs : list loc) (w : World) :
  (∀ idxs cases,
     Drain_collect vqrs 0 [] [] w = Ret (idxs, cases) w →
     aligned w vqrs idxs cases) ∧
  (∀ idxs cases r sched w',
     aligned w vqrs idxs cases → idxs ≠ [] →
     Drain_loop (r :: sched) vqrs idxs cases w = Ret tt w' →
     ∃ c p f idxs' cases' w1,
       cases !! sel_chosen r = Some c ∧
       p ∈ vqrs ∧ vqr_heap w !! p = Some f ∧ vqr_ch f = c ∧
       vqr_heap w1 !! p =
         Some {| vqr_conn := vqr_conn f; vqr_han := vqr_han f;
                 vqr_ch := vqr_ch f;
                 vqr_rows := (drained_outcome f (sel_val r) (sel_ok r)).1;
                 vqr_err := (drained_outcome f (sel_val r) (sel_ok r)).2;
                 vqr_active := false |} ∧
       aligned w1 vqrs idxs' cases' ∧
       Drain_loop sched vqrs idxs' cases' w1 = Ret tt w').
Proof.
  split.
  - intros idxs cases H.
    apply (Drain_collect_aligned vqrs [] [] [] idxs cases w w); [| done].
    split; [done |]. intros k idx c Hk. by rewrite lookup_nil in Hk.
  - intros idxs cases r sched w' Hal Hne H.
    destruct idxs as [| i0 idxs0]; [done |]. simpl in H.
    destruct (too_many_cases cases); [done |].
    unfold bind at 1 in H. simpl in H.
    destruct ((i0 :: idxs0) !! sel_chosen r) as [idx|] eqn:Hidx; [| done].
    apply bind_Ret_inv in H as (idxs' & w1 & Hsw1 & H).
    pose proof (swap_remove_spec _ _ _ _ _ Hsw1) as (-> & _ & _ & _).
    apply bind_Ret_inv in H as (cases' & w2 & Hsw2 & H).
    pose proof (swap_remove_spec _ _ _ _ _ Hsw2) as (-> & Hlt & _ & _).
    destruct (vqrs !! idx) as [chosenQuery|] eqn:Hq; [| done].
    apply bind_Ret_inv in H as ([] & w3 & Hdel & H).
    destruct (lookup_lt_is_Some_2 cases (sel_chosen r) Hlt) as [c Hc].
    destruct Hal as [Hlen Hal].
    destruct (Hal _ _ _ Hidx Hc) as (p & f & Hp & Hf & Hch).
    assert (p = chosenQuery) as -> by congruence.
    apply Drain_deliver_effect in Hdel as (f0 & Hf0 & Hheap & _).
    simpl in Hf0. assert (f0 = f) as -> by congruence.
    exists c, chosenQuery, f, idxs', cases', w3.
    split; [done |]. split; [by eapply list_elem_of_lookup_2 |].
    split; [done |]. split; [done |].
    split; [rewrite Hheap; apply lookup_insert_eq |].
    split; [| done].
    eapply aligned_swap_remove; [| exact Hsw1 | exact Hsw2].
    eapply (aligned_heap w); [by split |].
    intros q g Hg. rewrite Hheap.
    destruct (decide (q = chosenQuery)) as [-> | Hneq].
    + rewrite lookup_insert_eq. eexists. split; [done |]. simpl. congruence.
    + rewrite lookup_insert_ne by done. by exists g.
Qed.

Lemma Drain_stores_on_channel_owner_witness :
  aligned demo_three [1; 2; 3]%positive [0; 2]%nat [1; 3]%positive ∧
  ∃ c p f idxs' cases' w1,
    [1; 3]%positive !! 1%nat = Some c ∧
    p ∈ [1; 2; 3]%positive ∧ vqr_heap demo_three !! p = Some f ∧
    vqr_ch f = c ∧
    vqr_heap w1 !! p =
      Some {| vqr_conn := vqr_conn f; vqr_han := vqr_han f; vqr_ch := vqr_ch f;
              vqr_rows := RowsVolt demo_rows; vqr_err := vqr_err f;
              vqr_active := false |} ∧
    aligned w1 [1; 2; 3]%positive idxs' cases' ∧
    Drain_loop (drop 1 demo_sched) [1; 2; 3]%positive idxs' cases' w1
      = Ret tt (world_of (Drain_loop demo_sched [1; 2; 3]%positive
                            [0; 2]%nat [1; 3]%positive demo_three)).
Proof.
  destruct (Drain_stores_on_channel_owner [1; 2; 3]%positive demo_three)
    as [Hcollect Hstep].
  assert (aligned demo_three [1; 2; 3]%positive [0; 2]%nat [1; 3]%positive)
    as Hal by (apply Hcollect; vm_compute; reflexivity).
  split; [exact Hal |].
  apply (Hstep [0; 2]%nat [1; 3]%positive
           {| sel_chosen := 1;
              sel_val := {| rv_Kind := KInterface;
                            rv_Interface := DynRows (RowsVolt demo_rows) |};
              sel_ok := true |}
           (drop 1 demo_sched) _ Hal); [discriminate | vm_compute; reflexivity].
Defined.

(** ** Reading a pending result *)

(** X4.  [Rows()] on a result that is still active receives once on the
    result's channel.  Rows without an error are stored and returned with a
    nil error; rows that carry an error give [(nil, that error)] and the
    error is stored; either way the result is resolved and its handle is
    out of the owning connection's [queries] map.  A closed channel, a nil
    value or rows of a foreign type make [Rows()] panic at the type
    assertion, and with nothing ever sent the call stays blocked. *)
Theorem Rows_on_pending_result (vqr : loc) (f : VoltQueryResult) (w : World) :
  vqr_heap w !! vqr = Some f → vqr_active f = true →
  (∀ r, ∃ w',
     VoltQueryResult_Rows vqr (Delivered (RowsVolt r)) w
       = Ret (match vr_err r with
              | None => (RowsVolt r, None)
              | Some e => (RowsNil, Some e)
              end) w' ∧
     vqr_heap w' !! vqr =
       Some {| vqr_conn := vqr_conn f; vqr_han := vqr_han f; vqr_ch := vqr_ch f;
               vqr_rows := match vr_err r with
                           | None => RowsVolt r
                           | Some _ => vqr_rows f
                           end;
               vqr_err := match vr_err r with
                          | None => vqr_err f
                          | Some e => Some e
                          end;
               vqr_active := false |} ∧
     map_read query_maps (queries (vqr_conn f)) w' !! vqr_han f = None ∧
     events w' = EvRecv (vqr_ch f) :: events w ∧
     only_queries_changed w w') ∧
  (∃ msg, VoltQueryResult_Rows vqr ChanClosed w = Panic msg) ∧
  (∃ msg, VoltQueryResult_Rows vqr (Delivered RowsNil) w = Panic msg) ∧
  (∀ tag, ∃ msg,
     VoltQueryResult_Rows vqr (Delivered (RowsForeign tag)) w = Panic msg) ∧
  VoltQueryResult_Rows vqr NeverReady w
    = Blocked (log_event (EvRecv (vqr_ch f)) w).
Proof.
  intros Hf Hact.
  assert (∀ d, VoltQueryResult_Rows vqr d w =
            (let! rows := chan_recv RowsNil (vqr_ch f) d in
             let! vrows := assert_VoltRows rows in
             match VoltRows_error vrows with
             | Some err =>
                 VoltQueryResult_setError vqr (Some err) ;; ret (RowsNil, Some err)
             | None =>
                 VoltQueryResult_setRows vqr rows ;;
                 let! f' := deref vqr_heap vqr in ret (vqr_rows f', None)
             end) w) as Hunfold.
  { intros d. unfold VoltQueryResult_Rows.
    rewrite (bind_Ret _ _ _ _ _ (deref_Ret vqr_heap _ _ _ Hf)).
    by rewrite Hact. }
  split; [| split; [| split; [| split]]].
  - intros r. rewrite Hunfold. unfold bind at 1. simpl.
    unfold bind at 1. simpl. unfold VoltRows_error.
    assert (vqr_heap (log_event (EvRecv (vqr_ch f)) w) !! vqr = Some f)
      as Hf' by done.
    destruct (vr_err r) as [e|].
    + destruct (query_resolve_unguarded vqr f _ Hf') as [_ Herr].
      destruct (Herr (Some e)) as (w' & f' & Hret & _).
      exists w'. rewrite (bind_Ret _ _ _ _ _ Hret). split; [done |].
      pose proof (query_setError_leaves_map _ _ _ _ _ Hf' Hret) as [_ Hgone].
      apply query_setError_effect in Hret as (f0 & Hf0 & Hh & _ & Hev & Hoq).
      assert (f0 = f) as -> by (simpl in Hf0; congruence).
      split; [rewrite Hh; apply lookup_insert_eq |].
      split; [exact Hgone |]. split; [by rewrite Hev |]. exact Hoq.
    + destruct (query_resolve_unguarded vqr f _ Hf') as [Hrows _].
      destruct (Hrows (RowsVolt r)) as (w' & f' & Hret & _).
      exists w'. rewrite (bind_Ret _ _ _ _ _ Hret).
      pose proof (setRows_leaves_map _ _ _ _ _ Hf' Hret) as [_ Hgone].
      apply setRows_effect in Hret as (f0 & Hf0 & Hh & _ & Hev & Hoq).
      assert (f0 = f) as -> by (simpl in Hf0; congruence).
      assert (vqr_heap w' !! vqr =
                Some {| vqr_conn := vqr_conn f; vqr_han := vqr_han f;
                        vqr_ch := vqr_ch f; vqr_rows := RowsVolt r;
                        vqr_err := vqr_err f; vqr_active := false |}) as Hnew
        by (rewrite Hh; apply lookup_insert_eq).
      rewrite (bind_Ret _ _ _ _ _ (deref_Ret vqr_heap _ _ _ Hnew)).
      split; [done |]. split; [exact Hnew |].
      split; [exact Hgone |]. split; [by rewrite Hev |]. exact Hoq.
  - rewrite Hunfold. by eexists.
  - rewrite Hunfold. by eexists.
  - intros tag. rewrite Hunfold. by eexists.
  - by rewrite Hunfold.
Qed.

Lemma Rows_on_pending_result_witness :
  (∃ w',
     VoltQueryResult_Rows 1%positive (Delivered (RowsVolt demo_rows))
       demo_asked_once = Ret (RowsVolt demo_rows, None) w' ∧
     map_read query_maps 1%positive w' !! 1 = None) ∧
  (∃ w',
     VoltQueryResult_Rows 1%positive (Delivered (RowsVolt demo_rows_failed))
       demo_asked_once = Ret (RowsNil, Some "procedure failed"%string) w') ∧
  (∃ msg, VoltQueryResult_Rows 1%positive ChanClosed demo_asked_once = Panic msg).
Proof.
  destruct (Rows_on_pending_result 1%positive
              {| vqr_conn := demo_conn; vqr_han := 1; vqr_ch := 1%positive;
                 vqr_rows := RowsNil; vqr_err := None; vqr_active := true |}
              demo_asked_once ltac:(vm_compute; reflexivity) eq_refl)
    as (Hrows & Hclosed & _).
  split; [| split; [| exact Hclosed]].
  - destruct (Hrows demo_rows) as (w' & Hret & _ & Hgone & _).
    exists w'. split; [exact Hret | exact Hgone].
  - destruct (Hrows demo_rows_failed) as (w' & Hret & _).
    exists w'. exact Hret.
Defined.

(** X5.  [Result()] on an exec result that is still active receives once on
    its channel, stores what it received and returns it with a nil error;
    the result is resolved and its handle is out of the owning connection's
    [execs] map.  A closed channel yields the nil result, again with a nil
    error; with nothing ever sent the call stays blocked. *)
Theorem Result_on_pending_result (ver : loc) (f : VoltExecResult) (w : World) :
  ver_heap w !! ver = Some f → ver_active f = true →
  (∀ d x, (d = Delivered x ∨ (d = ChanClosed ∧ x = ResultNil)) →
     ∃ w',
       VoltExecResult_Result ver d w = Ret (x, None) w' ∧
       ver_heap w' !! ver =
         Some {| ver_conn := ver_conn f; ver_han := ver_han f;
                 ver_ch := ver_ch f; ver_result := x; ver_err := ver_err f;
                 ver_active := false |} ∧
       map_read exec_maps (execs (ver_conn f)) w' !! ver_han f = None ∧
       events w' = EvRecv (ver_ch f) :: events w ∧
       qHandle w' = qHandle w ∧ vqr_heap w' = vqr_heap w ∧
       query_maps w' = query_maps w ∧ listeners w' = listeners w ∧
       streams w' = streams w) ∧
  VoltExecResult_Result ver NeverReady w
    = Blocked (log_event (EvRecv (ver_ch f)) w).
Proof.
  intros Hf Hact.
  assert (∀ d, VoltExecResult_Result ver d w =
            (let! result := chan_recv ResultNil (ver_ch f) d in
             VoltExecResult_setResult ver result ;;
             let! f' := deref ver_heap ver in ret (ver_result f', None)) w)
    as Hunfold.
  { intros d. unfold VoltExecResult_Result.
    rewrite (bind_Ret _ _ _ _ _ (deref_Ret ver_heap _ _ _ Hf)).
    by rewrite Hact. }
  split; [| by rewrite Hunfold].
  intros d x Hd. rewrite Hunfold.
  assert (chan_recv ResultNil (ver_ch f) d w
          = Ret x (log_event (EvRecv (ver_ch f)) w)) as Hrecv.
  { destruct Hd as [-> | [-> ->]]; reflexivity. }
  rewrite (bind_Ret _ _ _ _ _ Hrecv).
  unfold VoltExecResult_setResult, VoltConn_removeExec, map_delete.
  unfold bind, deref, store, ret, panic. simpl. rewrite Hf, Hact. simpl.
  destruct (exec_maps w !! execs (ver_conn f)) as [o|] eqn:Hm; simpl.
  - rewrite lookup_insert_eq. eexists. split; [reflexivity |]. simpl.
    split; [apply lookup_insert_eq |]. split; [| done].
    unfold map_read. simpl. rewrite lookup_insert_eq. simpl.
    apply lookup_delete_eq.
  - rewrite lookup_insert_eq. eexists. split; [reflexivity |]. simpl.
    split; [apply lookup_insert_eq |]. split; [| done].
    unfold map_read. simpl. by rewrite Hm.
Qed.

Lemma Result_on_pending_result_witness :
  ∃ w',
    VoltExecResult_Result 1%positive (Delivered (ResultVolt demo_result))
      (world_of (via 1%positive
                   (λ vc, VoltConn_ExecAsync demo_serialize vc "Q" [8]) demo_open))
      = Ret (ResultVolt demo_result, None) w' ∧
    map_read exec_maps 1%positive w' !! 1 = None.
Proof.
  destruct (Result_on_pending_result 1%positive
              {| ver_conn := demo_conn; ver_han := 1; ver_ch := 1%positive;
                 ver_result := ResultNil; ver_err := None; ver_active := true |}
              (world_of (via 1%positive
                 (λ vc, VoltConn_ExecAsync demo_serialize vc "Q" [8]) demo_open))
              ltac:(vm_compute; reflexivity) eq_refl) as [Hres _].
  destruct (Hres (Delivered (ResultVolt demo_result)) (ResultVolt demo_result)
              ltac:(by left)) as (w' & Hret & _ & Hgone & _).
  exists w'. split; [exact Hret | exact Hgone].
Defined.

(** ** What Drain leaves alone *)

Lemma only_queries_changed_refl w : only_queries_changed w w.
Proof. by repeat split. Qed.

Lemma only_queries_changed_trans w1 w2 w3 :
  only_queries_changed w1 w2 → only_queries_changed w2 w3 →
  only_queries_changed w1 w3.
Proof.
  unfold only_queries_changed.
  intros (?&?&?&?&?&?&?&?) (?&?&?&?&?&?&?&?). repeat split; congruence.
Qed.

Lemma swap_remove_not_Blocked {A} (s : list A) i w w' :
  swap_remove s i w ≠ Blocked w'.
Proof.
  unfold swap_remove. destruct (s !! (length s - 1)%nat); [| done].
  by destruct (decide (i < length s)%nat).
Qed.

Lemma map_delete_not_Blocked heap set m k w w' :
  map_delete heap set m k w ≠ Blocked w'.
Proof. unfold map_delete. by destruct (heap w !! m). Qed.

Lemma setRows_not_Blocked p rows w w' :
  VoltQueryResult_setRows p rows w ≠ Blocked w'.
Proof.
  unfold VoltQueryResult_setRows, bind, deref, store, VoltConn_removeQuery.
  destruct (vqr_heap w !! p); [| done]. apply map_delete_not_Blocked.
Qed.

Lemma query_setError_not_Blocked p err w w' :
  VoltQueryResult_setError p err w ≠ Blocked w'.
Proof.
  unfold VoltQueryResult_setError, bind, deref, store, VoltConn_removeQuery.
  destruct (vqr_heap w !! p); [| done]. apply map_delete_not_Blocked.
Qed.

Lemma Drain_deliver_not_Blocked p val ok w w' :
  Drain_deliver p val ok w ≠ Blocked w'.
Proof.
  unfold Drain_deliver.
  destruct ok; simpl; [| apply query_setError_not_Blocked].
  destruct (rv_Kind val); [| apply query_setError_not_Blocked].
  destruct (assert_driver_Rows (rv_Interface val)) as [rows []]; simpl;
    [| apply query_setError_not_Blocked].
  destruct rows as [| vrows | tag]; simpl; [done | | done].
  unfold bind, ret. simpl.
  destruct (VoltRows_error vrows);
    [apply query_setError_not_Blocked | apply setRows_not_Blocked].
Qed.

Lemma Drain_frame_refl T w w' :
  only_queries_changed w w' → vqr_heap w' = vqr_heap w →
  query_maps w' = query_maps w → Drain_frame T w w'.
Proof.
  intros Ho Hh Hm. split; [done |]. split; [by rewrite Hh |].
  split; [unfold map_read; by rewrite Hm |].
  intros q f' Hq. rewrite Hh in Hq. exists f'. by repeat split.
Qed.

Lemma Drain_frame_trans T w1 w2 w3 :
  Drain_frame T w1 w2 → Drain_frame T w2 w3 → Drain_frame T w1 w3.
Proof.
  intros (Ho1 & Hh1 & Hm1 & Hi1) (Ho2 & Hh2 & Hm2 & Hi2).
  split; [by eapply only_queries_changed_trans |].
  split; [intros q Hq; by rewrite Hh2, Hh1 |].
  split; [intros m k p Hp; by apply Hm1, Hm2 |].
  intros q f3 Hq. destruct (Hi2 _ _ Hq) as (f2 & Hf2 & ? & ? & ?).
  destruct (Hi1 _ _ Hf2) as (f1 & Hf1 & ? & ? & ?).
  exists f1. split; [done |]. repeat split; congruence.
Qed.

Lemma Drain_deliver_frame (T : loc → Prop) p val ok w w' :
  T p → Drain_deliver p val ok w = Ret tt w' → Drain_frame T w w'.
Proof.
  intros HT H.
  apply Drain_deliver_effect in H as (f & Hf & Hh & Hm & _ & Ho).
  split; [done |]. split; [| split].
  - intros q Hq. rewrite Hh. apply lookup_insert_ne. by intros <-.
  - intros m k p' Hp. unfold map_read in *. rewrite Hm in Hp.
    destruct (query_maps w !! queries (vqr_conn f)) as [o|] eqn:Ho'; [| done].
    destruct (decide (m = queries (vqr_conn f))) as [-> | Hne].
    + rewrite lookup_insert_eq in Hp. simpl in Hp. rewrite Ho'. simpl.
      by apply lookup_delete_Some in Hp as [_ Hp].
    + by rewrite lookup_insert_ne in Hp.
  - intros q f' Hq. rewrite Hh in Hq.
    destruct (decide (q = p)) as [-> | Hne].
    + rewrite lookup_insert_eq in Hq. injection Hq as <-.
      exists f. by repeat split.
    + rewrite lookup_insert_ne in Hq by done. exists f'. by repeat split.
Qed.

Lemma Drain_loop_frame vqrs (T : loc → Prop) sched :
  ∀ idxs cases w w',
    (∀ idx p, idx ∈ idxs → vqrs !! idx = Some p → T p) →
    after (Drain_loop sched vqrs idxs cases w) w' →
    Drain_frame T w w'.
Proof.
  induction sched as [| r sched' IH]; intros idxs cases w w' HT H.
  - destruct idxs; simpl in H;
      [| destruct (too_many_cases cases); [done |]; simpl in H];
      subst w'; apply Drain_frame_refl; (done || apply only_queries_changed_refl).
  - destruct idxs as [| i0 idxs0]; simpl in H.
    { subst w'. apply Drain_frame_refl; (done || apply only_queries_changed_refl). }
    destruct (too_many_cases cases); [done |].
    unfold bind at 1 in H. simpl in H.
    destruct ((i0 :: idxs0) !! sel_chosen r) as [idx|] eqn:Hidx; [| done].
    apply bind_after_inv in H as [H | (idxs' & w1 & Hsw1 & H)];
      [by apply swap_remove_not_Blocked in H |].
    apply swap_remove_spec in Hsw1 as (-> & _ & Hsub & _).
    apply bind_after_inv in H as [H | (cases' & w2 & Hsw2 & H)];
      [by apply swap_remove_not_Blocked in H |].
    apply swap_remove_spec in Hsw2 as (-> & _ & _ & _).
    destruct (vqrs !! idx) as [chosenQuery|] eqn:Hq; [| done].
    apply bind_after_inv in H as [H | ([] & w3 & Hdel & H)];
      [by apply Drain_deliver_not_Blocked in H |].
    assert (T chosenQuery) as HTq.
    { eapply HT; [| exact Hq]. by eapply list_elem_of_lookup_2. }
    pose proof (Drain_deliver_frame T _ _ _ _ _ HTq Hdel) as Hstep.
    assert (Drain_frame T w w3) as Hstep'.
    { destruct Hstep as (Ho & Hh & Hm & Hi). split; [exact Ho |].
      split; [exact Hh |]. split; [exact Hm | exact Hi]. }
    eapply Drain_frame_trans; [exact Hstep' |].
    eapply IH; [| exact H]. intros j p Hj Hp. eapply HT; [| exact Hp].
    by apply Hsub.
Qed.

Lemma Drain_collect_not_Blocked vqrs idx idxs cases w w' :
  Drain_collect vqrs idx idxs cases w ≠ Blocked w'.
Proof.
  revert idx idxs cases. induction vqrs as [| vqr rest IH]; intros idx idxs cases.
  - done.
  - rewrite Drain_collect_cons. destruct (vqr_heap w !! vqr) as [f|]; [| done].
    destruct (vqr_active f); apply IH.
Qed.

Lemma Drain_frame_of_Drain vc vqrs sched w w' :
  after (VoltConn_Drain vc vqrs sched w) w' →
  Drain_frame (λ p, p ∈ vqrs ∧ is_active_query w p) w w'.
Proof.
  intros H. unfold VoltConn_Drain in H.
  apply bind_after_inv in H as [H | ([idxs cases] & w1 & Hcol & H)];
    [by apply Drain_collect_not_Blocked in H |].
  pose proof (Drain_collect_world _ _ _ _ _ _ _ Hcol) as ->.
  apply Drain_collect_spec in Hcol as (_ & _ & _ & Hidxs).
  eapply Drain_loop_frame; [| exact H].
  intros idx p Hidx Hp.
  destruct (Hidxs idx Hidx) as [Hnil | (j & p' & -> & Hj & Hact)].
  - by apply elem_of_nil in Hnil.
  - simpl in Hp. assert (p' = p) as -> by congruence.
    split; [by eapply list_elem_of_lookup_2 | done].
Qed.

Lemma Drain_touches_only_listed_results_aux vc vqrs sched w w' q :
  after (VoltConn_Drain vc vqrs sched w) w' →
  q ∉ vqrs ∨ is_resolved_query w q →
  vqr_heap w' !! q = vqr_heap w !! q.
Proof.
  intros H Hq. apply Drain_frame_of_Drain in H as (_ & Hh & _).
  apply Hh. intros [Hin (f & Hf & Hact)].
  destruct Hq as [Hq | (g & Hg & Hres)]; [done | congruence].
Qed.

(** X6.  Whatever [Drain] leaves behind, on return or while it waits, it has
    touched only results of the given slice that were active on entry:
    every other query result is exactly as it was, no result has changed
    its connection, handle or channel, the [queries] maps have only lost
    entries, and the handle counter, the connection structs, the exec
    results and their maps, the listeners and the streams are untouched. *)
Theorem Drain_touches_only_listed_results
    (vc : VoltConn) (vqrs : list loc) (sched : list SelectResult) (w w' : World) :
  after (VoltConn_Drain vc vqrs sched w) w' →
  only_queries_changed w w' ∧
  (∀ q, q ∉ vqrs ∨ is_resolved_query w q →
        vqr_heap w' !! q = vqr_heap w !! q) ∧
  (∀ m k p, map_read query_maps m w' !! k = Some p →
            map_read query_maps m w !! k = Some p) ∧
  (∀ q f', vqr_heap w' !! q = Some f' →
           ∃ f, vqr_heap w !! q = Some f ∧ same_identity f f').
Proof.
  intros H. pose proof (Drain_frame_of_Drain _ _ _ _ _ H) as (Ho & _ & Hm & Hi).
  split; [exact Ho |]. split; [| split; [exact Hm | exact Hi]].
  intros q Hq. by eapply Drain_touches_only_listed_results_aux.
Qed.

Lemma Drain_touches_only_listed_results_witness :
  qHandle demo_three_drained = qHandle demo_three ∧
  streams demo_three_drained = streams demo_three ∧
  listeners demo_three_drained = listeners demo_three ∧
  vqr_heap demo_three_drained !! 2%positive = vqr_heap demo_three !! 2%positive.
Proof.
  destruct (Drain_touches_only_listed_results demo_conn [1; 2; 3]%positive
              demo_sched demo_three demo_three_drained)
    as ((Hq & _ & _ & _ & _ & Hl & Hs & _) & Hh & _).
  { unfold demo_three_drained. apply after_world_of. vm_compute. reflexivity. }
  split; [exact Hq |]. split; [exact Hs |]. split; [exact Hl |].
  apply Hh. right.
  exists {| vqr_conn := demo_conn; vqr_han := 2; vqr_ch := 2%positive;
            vqr_rows := RowsVolt demo_rows; vqr_err := None;
            vqr_active := false |}.
  split; [vm_compute; reflexivity | reflexivity].
Defined.

(** ** Drain, then read *)

Lemma Drain_resolves_all vc vqrs sched w w' :
  VoltConn_Drain vc vqrs sched w = Ret tt w' →
  ∀ p, p ∈ vqrs → is_resolved_query w' p.
Proof.
  intros H p Hp. unfold VoltConn_Drain in H.
  apply bind_Ret_inv in H as ([idxs cases] & w1 & Hcol & Hloop).
  pose proof (Drain_collect_world _ _ _ _ _ _ _ Hcol) as ->.
  apply Drain_collect_spec in Hcol as (Hcover & _).
  apply Drain_loop_spec in Hloop as (Hmono & Hall & _).
  apply list_elem_of_lookup in Hp as [j Hj].
  destruct (Hcover j p Hj) as [Hres | Hin]; [by apply Hmono |].
  destruct (Hall j Hin) as (p' & Hp' & Hres). by simplify_eq.
Qed.

(** X7.  Once [Drain] has returned, [Rows()] on any result of the drained
    slice returns at once, whatever its channel holds, with the outcome the
    result stores, and changes nothing; for a result that was already
    resolved when [Drain] started this is the outcome it had then. *)
Theorem Rows_after_Drain_is_immediate
    (vc : VoltConn) (vqrs : list loc) (sched : list SelectResult) (w w' : World) :
  VoltConn_Drain vc vqrs sched w = Ret tt w' →
  ∀ p d, p ∈ vqrs →
    (∃ f, vqr_heap w' !! p = Some f ∧ vqr_active f = false ∧
          VoltQueryResult_Rows p d w' = Ret (query_outcome f) w') ∧
    (is_resolved_query w p →
     result_of (VoltQueryResult_Rows p d w')
       = result_of (VoltQueryResult_Rows p d w)).
Proof.
  intros H p d Hp.
  destruct (Drain_resolves_all _ _ _ _ _ H p Hp) as (f & Hf & Hact).
  split.
  - exists f. split; [done |]. split; [done |]. by apply Rows_resolved.
  - intros (g & Hg & Hgact).
    assert (after (VoltConn_Drain vc vqrs sched w) w') as Hafter by by rewrite H.
    pose proof (Drain_touches_only_listed_results_aux _ _ _ _ _ p Hafter
                  ltac:(right; by exists g)) as Heq.
    rewrite Heq in Hf. assert (f = g) as -> by congruence.
    by rewrite (Rows_resolved p g d w' ltac:(by rewrite Heq) Hgact),
               (Rows_resolved p g d w Hg Hgact).
Qed.

Lemma Rows_after_Drain_is_immediate_witness :
  VoltQueryResult_Rows 1%positive NeverReady demo_three_drained
    = Ret (RowsNil, Some "procedure failed"%string) demo_three_drained ∧
  result_of (VoltQueryResult_Rows 2%positive NeverReady demo_three_drained)
    = result_of (VoltQueryResult_Rows 2%positive NeverReady demo_three).
Proof.
  assert (VoltConn_Drain demo_conn [1; 2; 3]%positive demo_sched demo_three
          = Ret tt demo_three_drained) as Hdrain
    by (unfold demo_three_drained; vm_compute; reflexivity).
  split.
  - destruct (Rows_after_Drain_is_immediate demo_conn [1; 2; 3]%positive
                demo_sched demo_three demo_three_drained Hdrain
                1%positive NeverReady ltac:(by apply elem_of_cons; left))
      as [(f & Hf & _ & Hret) _].
    rewrite Hret. f_equal.
    assert (vqr_heap demo_three_drained !! 1%positive
            = Some {| vqr_conn := demo_conn; vqr_han := 1; vqr_ch := 1%positive;
                      vqr_rows := RowsNil;
                      vqr_err := Some "procedure failed"%string;
                      vqr_active := false |}) as Hv
      by (unfold demo_three_drained; vm_compute; reflexivity).
    rewrite Hf in Hv. by injection Hv as ->.
  - apply (Rows_after_Drain_is_immediate demo_conn [1; 2; 3]%positive
             demo_sched demo_three demo_three_drained Hdrain
             2%positive NeverReady).
    + apply elem_of_cons. right. apply elem_of_cons. by left.
    + exists {| vqr_conn := demo_conn; vqr_han := 2; vqr_ch := 2%positive;
                vqr_rows := RowsVolt demo_rows; vqr_err := None;
                vqr_active := false |}.
      split; [vm_compute; reflexivity | reflexivity].
Defined.

(** ** Handles are taken before anything can fail *)

Lemma keeps_handles_bind {A B} (m : M A) (k : A → M B) :
  keeps_handles m → (∀ a, keeps_handles (k a)) → keeps_handles (bind m k).
Proof.
  intros Hm Hk w w' H.
  apply bind_after_inv in H as [H | (a & w1 & H1 & H2)].
  - apply Hm. by rewrite H.
  - destruct (Hm w w1 ltac:(by rewrite H1)) as [<- <-].
    exact (Hk a w1 w' H2).
Qed.

Lemma keeps_core_handles {A} (m : M A) : keeps_core m → keeps_handles m.
Proof. intros Hm w w' H. by destruct (Hm w w' H) as (? & ? & _). Qed.

Lemma keeps_handles_newVoltQueryResult vc h c :
  keeps_handles (newVoltQueryResult vc h c).
Proof. intros w w'. simpl. by intros <-. Qed.

Lemma keeps_handles_newVoltExecResult vc h c :
  keeps_handles (newVoltExecResult vc h c).
Proof. intros w w'. simpl. by intros <-. Qed.

Lemma keeps_handles_map_assign_query m k v :
  keeps_handles (map_assign query_maps set_query_maps m k v).
Proof.
  intros w w'. unfold map_assign. destruct (query_maps w !! m); [| done].
  simpl. by intros <-.
Qed.

Lemma keeps_handles_map_assign_exec m k v :
  keeps_handles (map_assign exec_maps set_exec_maps m k v).
Proof.
  intros w w'. unfold map_assign. destruct (exec_maps w !! m); [| done].
  simpl. by intros <-.
Qed.

Section HandleUse.

Context {driver_Value : Type}.
Variable serializeStatement :
  string → Z → list driver_Value → list Z * option error.

Ltac handles_walk :=
  repeat first
    [ solve [apply keeps_core_handles; frame_walk]
    | solve [apply keeps_core_handles, keeps_core_serializeQuery]
    | apply keeps_handles_newVoltQueryResult
    | apply keeps_handles_newVoltExecResult
    | apply keeps_handles_map_assign_query
    | apply keeps_handles_map_assign_exec
    | apply keeps_handles_bind; [| intros ?]
    | match goal with
      | |- keeps_handles (match ?x with _ => _ end) => destruct x
      end ].

Lemma after_next_handle {A} (k : Z → M A) w w' :
  (∀ h, keeps_handles (k h)) →
  after (bind next_handle k w) w' →
  qHandle w' = atomic_AddInt64 (qHandle w) 1 ∧
  handles_issued w' = handles_issued w ++ [atomic_AddInt64 (qHandle w) 1].
Proof.
  intros Hk H. unfold bind in H. rewrite next_handle_spec in H.
  destruct (Hk _ _ _ H) as [-> Hlog]. split; [done |].
  unfold handles_issued. rewrite Hlog. simpl. by rewrite reverse_cons.
Qed.

(** X8.  On an open connection each of [Exec], [ExecAsync], [Query] and
    [QueryAsync] takes exactly one handle from the process-wide counter, and
    takes it first: whether the call then returns a result, returns the
    serializer's error, or waits for ever on its channel, the counter has
    advanced by one and the handle is not given back. *)
Theorem open_call_takes_one_handle
    (vc : VoltConn) (query : string) (args : list driver_Value) (w w' : World) :
  isOpen vc = true →
  (∃ d, after (VoltConn_Exec serializeStatement vc query args d w) w') ∨
  after (VoltConn_ExecAsync serializeStatement vc query args w) w' ∨
  (∃ d, after (VoltConn_Query serializeStatement vc query args d w) w') ∨
  after (VoltConn_QueryAsync serializeStatement vc query args w) w' →
  qHandle w' = atomic_AddInt64 (qHandle w) 1 ∧
  handles_issued w' = handles_issued w ++ [atomic_AddInt64 (qHandle w) 1].
Proof.
  intros Hopen H.
  destruct H as [[d H] | [H | [[d H] | H]]]; revert H;
    unfold VoltConn_Exec, VoltConn_ExecAsync, VoltConn_Query,
      VoltConn_QueryAsync, VoltConn_registerExec, VoltConn_registerQuery;
    rewrite Hopen; simpl; apply after_next_handle; intros h; handles_walk.
Qed.

End HandleUse.

Lemma open_call_takes_one_handle_witness :
  qHandle (demo_refused_query demo_open) = 1 ∧
  handles_issued (demo_refused_query demo_open) = [1].
Proof.
  assert (after (VoltConn_Query demo_serialize demo_conn "" [] NeverReady
                   demo_open) (demo_refused_query demo_open)) as Hrun
    by (vm_compute; reflexivity).
  destruct (open_call_takes_one_handle demo_serialize demo_conn ""%string []
              demo_open (demo_refused_query demo_open) eq_refl
              ltac:(right; right; left; by exists NeverReady))
    as [Hq Hlog].
  split; [rewrite Hq | rewrite Hlog]; vm_compute; reflexivity.
Defined.

(** ** When the serializer refuses the call *)

Section Refused.

Context {driver_Value : Type}.
Variable serializeStatement :
  string → Z → list driver_Value → list Z * option error.

(** X9.  When the serializer refuses the request, the synchronous calls
    [Query] and [Exec] return its error together with a zero [VoltRows] /
    [VoltResult] (not nil) without waiting on the channel, and undo their
    registration: the listener no longer knows the handle, nothing has been
    written to any stream, and the connections' maps and all pending
    results are as before.  Only the handle and the channel are used up. *)
Theorem refused_sync_call_leaves_no_trace
    (vc : VoltConn) (query : string) (args : list driver_Value)
    (nl : NetworkListener) (e : error) (w : World) :
  isOpen vc = true →
  listeners w !! netListener vc = Some nl →
  snd (serializeStatement query (atomic_AddInt64 (qHandle w) 1) args) = Some e →
  (∀ d, ∃ w',
     VoltConn_Query serializeStatement vc query args d w
       = Ret (RowsVolt VoltRows_zero, Some e) w' ∧
     listeners w' !! netListener vc
       = Some (set_nl_queries
                 (delete (atomic_AddInt64 (qHandle w) 1) (nl_queries nl)) nl) ∧
     streams w' = streams w ∧ events w' = events w ∧
     query_maps w' = query_maps w ∧ exec_maps w' = exec_maps w ∧
     vqr_heap w' = vqr_heap w ∧ ver_heap w' = ver_heap w ∧
     chan_count w' = Pos.succ (chan_count w)) ∧
  (∀ d, ∃ w',
     VoltConn_Exec serializeStatement vc query args d w
       = Ret (ResultVolt VoltResult_zero, Some e) w' ∧
     listeners w' !! netListener vc
       = Some (set_nl_execs
                 (delete (atomic_AddInt64 (qHandle w) 1) (nl_execs nl)) nl) ∧
     streams w' = streams w ∧ events w' = events w ∧
     query_maps w' = query_maps w ∧ exec_maps w' = exec_maps w ∧
     vqr_heap w' = vqr_heap w ∧ ver_heap w' = ver_heap w ∧
     chan_count w' = Pos.succ (chan_count w)).
Proof.
  intros Hopen Hnl Hser. split; intros d.
  - unfold VoltConn_Query, VoltConn_serializeQuery,
      NetworkListener_registerQuery, NetworkListener_removeQuery.
    rewrite Hopen. simpl. unfold bind at 1. rewrite next_handle_spec.
    destruct (serializeStatement query _ args) as [call err].
    simpl in Hser. subst err.
    unfold bind, deref, store, make_chan, ret. simpl. rewrite Hnl. simpl.
    rewrite lookup_insert_eq. eexists. split; [reflexivity |]. simpl.
    rewrite lookup_insert_eq. unfold set_nl_queries. simpl.
    by rewrite delete_insert_eq.
  - unfold VoltConn_Exec, VoltConn_serializeQuery,
      NetworkListener_registerExec, NetworkListener_removeExec.
    rewrite Hopen. simpl. unfold bind at 1. rewrite next_handle_spec.
    destruct (serializeStatement query _ args) as [call err].
    simpl in Hser. subst err.
    unfold bind, deref, store, make_chan, ret. simpl. rewrite Hnl. simpl.
    rewrite lookup_insert_eq. eexists. split; [reflexivity |]. simpl.
    rewrite lookup_insert_eq. unfold set_nl_execs. simpl.
    by rewrite delete_insert_eq.
Qed.

(** The order in which [range] walks the map, as for [ExecutingQueries]. *)
Variable map_range : nat → gmap Z loc → list (Z * loc).
Hypothesis map_range_perm : ∀ seed m, map_range seed m ≡ₚ map_to_list m.

(** X10.  When the serializer refuses the request, [QueryAsync] and
    [ExecAsync] return (nil, error) but have already filed a fresh pending
    result in the connection's map, and only deregister with the listener:
    the result stays in the map, active, under a handle the listener will
    never deliver to.  The caller holds no pointer to it, yet
    [ExecutingQueries] lists it. *)
Theorem refused_async_call_stays_filed
    (vc : VoltConn) (query : string) (args : list driver_Value)
    (nl : NetworkListener) (e : error) (w : World) :
  isOpen vc = true →
  listeners w !! netListener vc = Some nl →
  snd (serializeStatement query (atomic_AddInt64 (qHandle w) 1) args) = Some e →
  (∀ o, query_maps w !! queries vc = Some o →
     ∃ p w',
       VoltConn_QueryAsync serializeStatement vc query args w
         = Ret (None, Some e) w' ∧
       vqr_heap w !! p = None ∧
       vqr_heap w' !! p
         = Some {| vqr_conn := vc; vqr_han := atomic_AddInt64 (qHandle w) 1;
                   vqr_ch := chan_count w; vqr_rows := RowsNil;
                   vqr_err := None; vqr_active := true |} ∧
       map_read query_maps (queries vc) w'
         = <[atomic_AddInt64 (qHandle w) 1 := p]> o ∧
       listeners w' !! netListener vc
         = Some (set_nl_queries
                   (delete (atomic_AddInt64 (qHandle w) 1) (nl_queries nl)) nl) ∧
       streams w' = streams w ∧
       ∀ seed, ∃ l,
         VoltConn_ExecutingQueries map_range vc seed w' = Ret l w' ∧ p ∈ l) ∧
  (∀ o, exec_maps w !! execs vc = Some o →
     ∃ p w',
       VoltConn_ExecAsync serializeStatement vc query args w
         = Ret (None, Some e) w' ∧
       ver_heap w !! p = None ∧
       ver_heap w' !! p
         = Some {| ver_conn := vc; ver_han := atomic_AddInt64 (qHandle w) 1;
                   ver_ch := chan_count w; ver_result := ResultNil;
                   ver_err := None; ver_active := true |} ∧
       map_read exec_maps (execs vc) w'
         = <[atomic_AddInt64 (qHandle w) 1 := p]> o ∧
       listeners w' !! netListener vc
         = Some (set_nl_execs
                   (delete (atomic_AddInt64 (qHandle w) 1) (nl_execs nl)) nl) ∧
       streams w' = streams w).
Proof.
  intros Hopen Hnl Hser. split; intros o Ho.
  - exists (fresh (dom (vqr_heap w))).
    unfold VoltConn_QueryAsync, VoltConn_serializeQuery, VoltConn_registerQuery,
      NetworkListener_registerQuery, NetworkListener_removeQuery,
      newVoltQueryResult.
    rewrite Hopen. simpl. unfold bind at 1. rewrite next_handle_spec.
    destruct (serializeStatement query _ args) as [call err].
    simpl in Hser. subst err.
    unfold bind, deref, store, make_chan, alloc, map_assign, ret. simpl.
    rewrite Hnl. simpl. rewrite Ho. simpl. rewrite lookup_insert_eq.
    eexists. split; [reflexivity |].
    split; [apply not_elem_of_dom, is_fresh |].
    split; [apply lookup_insert_eq |].
    match goal with
    | |- map_read query_maps (queries vc) ?W = ?m ∧ _ =>
        assert (map_read query_maps (queries vc) W = m) as Hmap
          by (unfold map_read; simpl; by rewrite lookup_insert_eq)
    end.
    split; [exact Hmap |].
    split. { simpl. rewrite lookup_insert_eq. unfold set_nl_queries. simpl.
             by rewrite delete_insert_eq. }
    split; [done |].
    intros seed. eexists. split; [reflexivity |].
    apply list_elem_of_fmap.
    exists (atomic_AddInt64 (qHandle w) 1, fresh (dom (vqr_heap w))).
    split; [done |]. rewrite map_range_perm. apply elem_of_map_to_list.
    rewrite Hmap. apply lookup_insert_eq.
  - exists (fresh (dom (ver_heap w))).
    unfold VoltConn_ExecAsync, VoltConn_serializeQuery, VoltConn_registerExec,
      NetworkListener_registerExec, NetworkListener_removeExec,
      newVoltExecResult.
    rewrite Hopen. simpl. unfold bind at 1. rewrite next_handle_spec.
    destruct (serializeStatement query _ args) as [call err].
    simpl in Hser. subst err.
    unfold bind, deref, store, make_chan, alloc, map_assign, ret. simpl.
    rewrite Hnl. simpl. rewrite Ho. simpl. rewrite lookup_insert_eq.
    eexists. split; [reflexivity |]. simpl.
    split; [apply not_elem_of_dom, is_fresh |].
    split; [apply lookup_insert_eq |].
    split. { unfold map_read. simpl. by rewrite lookup_insert_eq. }
    split; [| done].
    rewrite lookup_insert_eq. unfold set_nl_execs. simpl.
    by rewrite delete_insert_eq.
Qed.

End Refused.

Lemma refused_sync_call_leaves_no_trace_witness :
  ∃ w',
    VoltConn_Query demo_serialize demo_conn "" [] NeverReady demo_open
      = Ret (RowsVolt VoltRows_zero, Some "no procedure"%string) w' ∧
    (listeners w' !! 1%positive) ≫= (λ nl, nl_queries nl !! 1) = None ∧
    streams w' = streams demo_open.
Proof.
  destruct (refused_sync_call_leaves_no_trace demo_serialize demo_conn "" []
              {| nl_reader := Some 1%positive; nl_execs := ∅; nl_queries := ∅;
                 nl_wg := WaitGroup_Add 1 WaitGroup_zero;
                 nl_stopRequested := false; nl_loopRunning := true |}
              "no procedure"%string demo_open
              eq_refl ltac:(vm_compute; reflexivity) eq_refl)
    as [Hq _].
  destruct (Hq NeverReady) as (w' & Hret & Hnl & Hst & _).
  exists w'. split; [exact Hret |]. split; [| exact Hst].
  change (netListener demo_conn) with 1%positive in Hnl. by rewrite Hnl.
Defined.

Lemma refused_async_call_stays_filed_witness :
  ∃ p w',
    VoltConn_QueryAsync demo_serialize demo_conn "" [] demo_open
      = Ret (None, Some "no procedure"%string) w' ∧
    map_read query_maps 1%positive w' !! 1 = Some p ∧
    (listeners w' !! 1%positive) ≫= (λ nl, nl_queries nl !! 1) = None ∧
    ∃ l, VoltConn_ExecutingQueries demo_range demo_conn 0 w' = Ret l w' ∧ p ∈ l.
Proof.
  destruct (refused_async_call_stays_filed demo_serialize demo_range
              ltac:(reflexivity) demo_conn "" []
              {| nl_reader := Some 1%positive; nl_execs := ∅; nl_queries := ∅;
                 nl_wg := WaitGroup_Add 1 WaitGroup_zero;
                 nl_stopRequested := false; nl_loopRunning := true |}
              "no procedure"%string demo_open
              eq_refl ltac:(vm_compute; reflexivity) eq_refl)
    as [Hq _].
  destruct (Hq ∅ ltac:(vm_compute; reflexivity))
    as (p & w' & Hret & _ & _ & Hmap & Hnl & _ & Hlist).
  exists p, w'. split; [exact Hret |].
  change (queries demo_conn) with 1%positive in Hmap.
  change (netListener demo_conn) with 1%positive in Hnl.
  split; [rewrite Hmap; apply lookup_insert_eq |].
  split; [by rewrite Hnl |]. apply (Hlist 0%nat).
Defined.

(** ** The snapshot of the pending queries *)

Section Snapshot.

Context {driver_Value : Type}.
Variable serializeStatement :
  string → Z → list driver_Value → list Z * option error.
Variable map_range : nat → gmap Z loc → list (Z * loc).
Hypothesis map_range_perm : ∀ seed m, map_range seed m ≡ₚ map_to_list m.

Lemma range_values seed (m : gmap Z loc) p :
  p ∈ (map_range seed m).*2 ↔ ∃ k, m !! k = Some p.
Proof.
  split.
  - by apply range_elem.
  - intros [k Hk]. apply list_elem_of_fmap. exists (k, p). split; [done |].
    rewrite map_range_perm. by apply elem_of_map_to_list.
Qed.

Lemma range_empty seed : map_range seed ∅ = [].
Proof.
  apply Permutation_nil_r. by rewrite map_range_perm, map_to_list_empty.
Qed.

Lemma held_values_distinct w m o :
  queries_hold_active w → query_maps w !! m = Some o →
  NoDup (map_to_list o).*2.
Proof.
  intros Hq Hm. apply NoDup_fmap_2_strong; [| apply NoDup_map_to_list].
  intros [k1 p1] [k2 p2] H1 H2 Heq. simpl in Heq. subst p2.
  apply elem_of_map_to_list in H1, H2.
  destruct (Hq m o k1 p1 Hm H1) as (f1 & Hf1 & _ & Hk1 & _).
  destruct (Hq m o k2 p1 Hm H2) as (f2 & Hf2 & _ & Hk2 & _).
  congruence.
Qed.

(** X11.  In every world the process can reach, [ExecutingQueries] returns,
    without changing anything, a slice that lists each result filed in the
    connection's [queries] map exactly once: no result appears twice, the
    length is the size of the map, and a connection whose map is nil yields
    the empty slice. *)
Theorem ExecutingQueries_lists_each_pending_once
    (vc : VoltConn) (seed : nat) (w : World) :
  reachable serializeStatement map_range w →
  ∃ l, VoltConn_ExecutingQueries map_range vc seed w = Ret l w ∧
       NoDup l ∧
       length l = size (map_read query_maps (queries vc) w) ∧
       (∀ p, p ∈ l ↔ ∃ k, map_read query_maps (queries vc) w !! k = Some p) ∧
       (query_maps w !! queries vc = None → l = []).
Proof.
  intros Hreach. destruct (reachable_Inv _ _ _ Hreach) as (Hq & _).
  eexists. split; [reflexivity |]. split; [| split; [| split]].
  - rewrite (fmap_Permutation _ _ _ (map_range_perm seed _)).
    unfold map_read. destruct (query_maps w !! queries vc) as [o|] eqn:Hm.
    + by eapply held_values_distinct.
    + change (default ∅ None) with (∅ : gmap Z loc).
      rewrite map_to_list_empty. constructor.
  - rewrite length_fmap, (map_range_perm seed _). apply length_map_to_list.
  - intros p. apply range_values.
  - intros Hnil. unfold map_read. rewrite Hnil.
    change (default ∅ None) with (∅ : gmap Z loc).
    by rewrite range_empty.
Qed.

(** X12.  In every world the process can reach, when [DrainAll] returns it
    has returned exactly the results that were filed in the connection's
    [queries] map, each of them is now resolved, and the map is empty: an
    [ExecutingQueries] straight after it yields the empty slice. *)
Theorem DrainAll_empties_the_map
    (vc : VoltConn) (seed : nat) (sched : list SelectResult)
    (l : list loc) (w w' : World) :
  reachable serializeStatement map_range w →
  VoltConn_DrainAll map_range vc seed sched w = Ret l w' →
  (∀ p, p ∈ l ↔ ∃ k, map_read query_maps (queries vc) w !! k = Some p) ∧
  Forall (is_resolved_query w') l ∧
  map_read query_maps (queries vc) w' = ∅ ∧
  ∀ seed', VoltConn_ExecutingQueries map_range vc seed' w' = Ret [] w'.
Proof.
  intros Hreach H.
  pose proof (reachable_Inv _ _ _ Hreach) as HI.
  pose proof (preserves_DrainAll map_range vc seed sched w w' HI
                ltac:(by rewrite H)) as (Hq' & _).
  unfold VoltConn_DrainAll in H.
  apply bind_Ret_inv in H as (l0 & w1 & Hsnap & H).
  apply bind_Ret_inv in H as ([] & w2 & Hdrain & H).
  injection H as <- <-.
  unfold VoltConn_ExecutingQueries in Hsnap. injection Hsnap as <- <-.
  assert (map_read query_maps (queries vc) w2 = ∅) as Hempty.
  { apply map_empty. intros k.
    destruct (map_read query_maps (queries vc) w2 !! k) as [p|] eqn:Hk; [| done].
    exfalso.
    pose proof (Drain_frame_of_Drain _ _ _ _ _ ltac:(by rewrite Hdrain))
      as (_ & _ & Hsub & _).
    pose proof (Hsub _ _ _ Hk) as Hk0.
    destruct (Drain_resolves_all _ _ _ _ _ Hdrain p
                ltac:(apply range_values; by exists k)) as (f & Hf & Hres).
    unfold map_read in Hk.
    destruct (query_maps w2 !! queries vc) as [o|] eqn:Hm; simpl in Hk;
      [| by rewrite lookup_empty in Hk].
    destruct (Hq' _ _ _ _ Hm Hk) as (f' & Hf' & Hact & _). congruence. }
  split; [intros p; apply range_values |].
  split; [apply Forall_forall; intros p Hp;
          by apply (Drain_resolves_all _ _ _ _ _ Hdrain) |].
  split; [exact Hempty |].
  intros seed'. unfold VoltConn_ExecutingQueries. rewrite Hempty.
  by rewrite range_empty.
Qed.

End Snapshot.

Lemma ExecutingQueries_lists_each_pending_once_witness :
  ∃ l, VoltConn_ExecutingQueries demo_range demo_conn 0 demo_pending
         = Ret l demo_pending ∧
       NoDup l ∧
       length l = size (map_read query_maps 1%positive demo_pending).
Proof.
  destruct (ExecutingQueries_lists_each_pending_once demo_serialize demo_range
              (λ _ _, reflexivity _) demo_conn 0%nat demo_pending
              demo_pending_reachable) as (l & Hret & Hnd & Hlen & _).
  exists l. split; [exact Hret |]. split; [exact Hnd | exact Hlen].
Defined.

Lemma DrainAll_empties_the_map_witness :
  Forall (is_resolved_query demo_pending_drained) [2%positive] ∧
  map_read query_maps 1%positive demo_pending_drained = ∅ ∧
  VoltConn_ExecutingQueries demo_range demo_conn 0 demo_pending_drained
    = Ret [] demo_pending_drained.
Proof.
  assert (VoltConn_DrainAll demo_range demo_conn 0 demo_one_arrival demo_pending
          = Ret [2%positive] demo_pending_drained) as Hrun
    by (unfold demo_pending_drained; vm_compute; reflexivity).
  destruct (DrainAll_empties_the_map demo_serialize demo_range
              (λ _ _, reflexivity _) demo_conn 0%nat demo_one_arrival
              [2%positive] demo_pending demo_pending_drained
              demo_pending_reachable Hrun) as (_ & Hres & Hempty & Hnext).
  split; [exact Hres |]. split; [exact Hempty | exact (Hnext 0%nat)].
Defined.

(** ** What an asynchronous call sets up *)

Section Wiring.

Context {driver_Value : Type}.
Variable serializeStatement :
  string → Z → list driver_Value → list Z * option error.

(** X13.  On an open connection whose listener, maps and writer exist, and
    for a request the serializer accepts, [QueryAsync] and [ExecAsync]
    return a pending result and a nil error without waiting, whatever the
    state of the stream.  The result is a fresh object, active, carrying the
    handle just taken and a copy of the receiver; it is filed in the
    connection's map under that handle, and the channel it will read is
    the one the listener holds for that handle.  The request is the only
    thing written, and only if the stream still takes writes. *)
Theorem async_call_wires_result_to_listener
    (vc : VoltConn) (query : string) (args : list driver_Value)
    (nl : NetworkListener) (s : loc) (st : Stream) (w : World) :
  isOpen vc = true →
  listeners w !! netListener vc = Some nl →
  writer vc = Some s →
  streams w !! s = Some st →
  snd (serializeStatement query (atomic_AddInt64 (qHandle w) 1) args) = None →
  (∀ o, query_maps w !! queries vc = Some o →
     ∃ p w',
       VoltConn_QueryAsync serializeStatement vc query args w
         = Ret (Some p, None) w' ∧
       vqr_heap w !! p = None ∧
       vqr_heap w' = <[p := {| vqr_conn := vc;
                               vqr_han := atomic_AddInt64 (qHandle w) 1;
                               vqr_ch := chan_count w; vqr_rows := RowsNil;
                               vqr_err := None; vqr_active := true |}]>
                       (vqr_heap w) ∧
       query_maps w' = <[queries vc := <[atomic_AddInt64 (qHandle w) 1 := p]> o]>
                         (query_maps w) ∧
       listeners w' = <[netListener vc :=
                          set_nl_queries
                            (<[atomic_AddInt64 (qHandle w) 1 := chan_count w]>
                               (nl_queries nl)) nl]> (listeners w) ∧
       (∀ s', s' ≠ s → streams w' !! s' = streams w !! s') ∧
       st_out <$> streams w' !! s
         = Some (if Stream_failing st then st_out st
                 else (let call := fst (serializeStatement query
                                          (atomic_AddInt64 (qHandle w) 1) args) in
                       writeInt [] (wrap32 (Z.of_nat (length call))) ++ call)
                      :: st_out st)) ∧
  (∀ o, exec_maps w !! execs vc = Some o →
     ∃ p w',
       VoltConn_ExecAsync serializeStatement vc query args w
         = Ret (Some p, None) w' ∧
       ver_heap w !! p = None ∧
       ver_heap w' = <[p := {| ver_conn := vc;
                               ver_han := atomic_AddInt64 (qHandle w) 1;
                               ver_ch := chan_count w; ver_result := ResultNil;
                               ver_err := None; ver_active := true |}]>
                       (ver_heap w) ∧
       exec_maps w' = <[execs vc := <[atomic_AddInt64 (qHandle w) 1 := p]> o]>
                        (exec_maps w) ∧
       listeners w' = <[netListener vc :=
                          set_nl_execs
                            (<[atomic_AddInt64 (qHandle w) 1 := chan_count w]>
                               (nl_execs nl)) nl]> (listeners w) ∧
       (∀ s', s' ≠ s → streams w' !! s' = streams w !! s') ∧
       st_out <$> streams w' !! s
         = Some (if Stream_failing st then st_out st
                 else (let call := fst (serializeStatement query
                                          (atomic_AddInt64 (qHandle w) 1) args) in
                       writeInt [] (wrap32 (Z.of_nat (length call))) ++ call)
                      :: st_out st)).
Proof.
  intros Hopen Hnl Hwr Hst Hser. split; intros o Ho.
  - exists (fresh (dom (vqr_heap w))).
    unfold VoltConn_QueryAsync, VoltConn_serializeQuery, VoltConn_registerQuery,
      NetworkListener_registerQuery, newVoltQueryResult.
    rewrite Hopen, Hwr. simpl. unfold bind at 1. rewrite next_handle_spec.
    destruct (serializeStatement query _ args) as [call err].
    simpl in Hser. subst err.
    unfold io_Copy, Stream_Write, bind, deref, store, make_chan, alloc,
      map_assign, ret. simpl.
    rewrite Hnl. simpl. rewrite Ho. simpl. rewrite Hst.
    destruct (Stream_failing st) eqn:Hfail; simpl;
      (eexists; split; [reflexivity |]; simpl;
       split; [apply not_elem_of_dom, is_fresh |];
       split; [done |]; split; [done |]; split; [done |]; split;
       [intros s' Hs'; try done; by rewrite lookup_insert_ne
       | first [by rewrite Hst | by rewrite lookup_insert_eq]]).
  - exists (fresh (dom (ver_heap w))).
    unfold VoltConn_ExecAsync, VoltConn_serializeQuery, VoltConn_registerExec,
      NetworkListener_registerExec, newVoltExecResult.
    rewrite Hopen, Hwr. simpl. unfold bind at 1. rewrite next_handle_spec.
    destruct (serializeStatement query _ args) as [call err].
    simpl in Hser. subst err.
    unfold io_Copy, Stream_Write, bind, deref, store, make_chan, alloc,
      map_assign, ret. simpl.
    rewrite Hnl. simpl. rewrite Ho. simpl. rewrite Hst.
    destruct (Stream_failing st) eqn:Hfail; simpl;
      (eexists; split; [reflexivity |]; simpl;
       split; [apply not_elem_of_dom, is_fresh |];
       split; [done |]; split; [done |]; split; [done |]; split;
       [intros s' Hs'; try done; by rewrite lookup_insert_ne
       | first [by rewrite Hst | by rewrite lookup_insert_eq]]).
Qed.

End Wiring.

Lemma async_call_wires_result_to_listener_witness :
  ∃ p w',
    VoltConn_QueryAsync demo_serialize demo_conn "P" [7] demo_open
      = Ret (Some p, None) w' ∧
    (vqr_ch <$> vqr_heap w' !! p)
      = (listeners w' !! 1%positive) ≫= (λ nl, nl_queries nl !! 1) ∧
    st_out <$> streams w' !! 1%positive = Some [[0; 0; 0; 2; 1; 7]].
Proof.
  destruct (async_call_wires_result_to_listener demo_serialize demo_conn "P" [7]
              {| nl_reader := Some 1%positive; nl_execs := ∅; nl_queries := ∅;
                 nl_wg := WaitGroup_Add 1 WaitGroup_zero;
                 nl_stopRequested := false; nl_loopRunning := true |}
              1%positive demo_stream demo_open
              eq_refl ltac:(vm_compute; reflexivity) eq_refl
              ltac:(vm_compute; reflexivity) eq_refl)
    as [Hq _].
  destruct (Hq ∅ ltac:(vm_compute; reflexivity))
    as (p & w' & Hret & _ & Hheap & _ & Hnl & _ & Hout).
  exists p, w'. split; [exact Hret |]. split; [| exact Hout].
  rewrite Hheap, Hnl.
  change (netListener demo_conn) with 1%positive.
  by rewrite !lookup_insert_eq.
Defined.

(** ** What a synchronous call does once the serializer has accepted *)

Section SyncCall.

Context {driver_Value : Type}.
Variable serializeStatement :
  string → Z → list driver_Value → list Z * option error.


End SyncCall.


(** ** Frames *)

Lemma writeInt_bytes (v : Z) :
  writeInt [] v
  = [ (v mod 2 ^ 32) / 2 ^ 24 mod 256; (v mod 2 ^ 32) / 2 ^ 16 mod 256;
      (v mod 2 ^ 32) / 2 ^ 8 mod 256; (v mod 2 ^ 32) mod 256 ].
Proof.
  unfold writeInt. simpl app.
  change 255 with (Z.ones 8).
  rewrite !Z.land_ones, !Z.shiftr_div_pow2 by lia.
  reflexivity.
Qed.

Lemma be_uint_writeInt (v : Z) :
  0 ≤ v < 2 ^ 32 → be_uint (writeInt [] v) = v.
Proof.
  intros Hv. rewrite writeInt_bytes. unfold be_uint. simpl fold_left.
  rewrite (Z.mod_small v (2 ^ 32)) by lia.
  change (2 ^ 24) with 16777216. change (2 ^ 16) with 65536.
  change (2 ^ 8) with 256. change (2 ^ 32) with 4294967296 in Hv.
  Z.div_mod_to_equations. lia.
Qed.

Lemma writeInt_length (v : Z) : length (writeInt [] v) = 4%nat.
Proof. by rewrite writeInt_bytes. Qed.

Lemma writeInt_in_range (v : Z) : Forall (λ b, 0 ≤ b < 256) (writeInt [] v).
Proof.
  rewrite writeInt_bytes.
  repeat constructor; apply Z.mod_pos_bound; lia.
Qed.

Lemma wrap32_small (z : Z) : 0 ≤ z < 2 ^ 31 → wrap32 z = z.
Proof.
  intros Hz. unfold wrap32. rewrite Z.mod_small; lia.
Qed.

Lemma frame_prefix (n : Z) (body : list Z) :
  0 ≤ n < 2 ^ 31 →
  take 4 (writeInt [] (wrap32 n) ++ body) = writeInt [] (wrap32 n) ∧
  drop 4 (writeInt [] (wrap32 n) ++ body) = body ∧
  be_uint (writeInt [] (wrap32 n)) = n.
Proof.
  intros Hn. rewrite wrap32_small by done.
  rewrite writeInt_bytes. simpl take. simpl drop.
  split; [done |]. split; [done |].
  rewrite <- writeInt_bytes. apply be_uint_writeInt. lia.
Qed.

Section Frames.

Context {driver_Value : Type}.
Variable serializeStatement :
  string → Z → list driver_Value → list Z * option error.
Variable protoVersion passwordHashVersion : Z.

(** X15.  On a stream that takes writes, [serializeQuery] and
    [writeLoginMessage] each put exactly one message on the stream, in one
    write.  Its first four bytes are the big-endian length of everything
    that follows them: the serialized call for a request; the protocol
    version, the password hash version and the login payload for the login
    message (the two version bytes are counted).  This holds for payloads
    below 2^31 bytes, the range of the [int32] conversion. *)
Theorem frames_carry_their_length (s : loc) (st : Stream) (w : World) :
  streams w !! s = Some st →
  Stream_failing st = false →
  (∀ vc procedure handle args call,
     serializeStatement procedure handle args = (call, None) →
     Z.of_nat (length call) < 2 ^ 31 →
     ∃ msg w',
       VoltConn_serializeQuery serializeStatement vc (Some s) procedure handle
         args w = Ret None w' ∧
       streams w' = <[s := {| st_isTCP := st_isTCP st; st_closed := st_closed st;
                              st_peerGone := st_peerGone st;
                              st_out := msg :: st_out st |}]> (streams w) ∧
       Forall (λ b, 0 ≤ b < 256) (take 4 msg) ∧
       be_uint (take 4 msg) = Z.of_nat (length (drop 4 msg)) ∧
       drop 4 msg = call) ∧
  (∀ buf,
     Z.of_nat (length buf) + 2 < 2 ^ 31 →
     ∃ msg w',
       writeLoginMessage protoVersion passwordHashVersion (Some s) buf w
         = Ret tt w' ∧
       streams w' = <[s := {| st_isTCP := st_isTCP st; st_closed := st_closed st;
                              st_peerGone := st_peerGone st;
                              st_out := msg :: st_out st |}]> (streams w) ∧
       Forall (λ b, 0 ≤ b < 256) (take 4 msg) ∧
       be_uint (take 4 msg) = Z.of_nat (length (drop 4 msg)) ∧
       drop 4 msg = protoVersion :: passwordHashVersion :: buf).
Proof.
  intros Hst Hfail. split.
  - intros vc procedure handle args call Hser Hlen.
    destruct (frame_prefix (Z.of_nat (length call)) call ltac:(lia))
      as (Htake & Hdrop & Hbe).
    exists (writeInt [] (wrap32 (Z.of_nat (length call))) ++ call).
    unfold VoltConn_serializeQuery. rewrite Hser.
    unfold io_Copy, Stream_Write, bind, deref, store, ret.
    rewrite Hst, Hfail. eexists. split; [reflexivity |].
    split; [done |]. rewrite Htake, Hdrop, Hbe.
    split; [apply writeInt_in_range | done].
  - intros buf Hlen.
    destruct (frame_prefix (Z.of_nat (length buf) + 2)
                (protoVersion :: passwordHashVersion :: buf) ltac:(lia))
      as (Htake & Hdrop & Hbe).
    exists (writeInt [] (wrap32 (Z.of_nat (length buf) + 2))
              ++ protoVersion :: passwordHashVersion :: buf).
    unfold writeLoginMessage, writeProtoVersion, writePasswordHashVersion.
    unfold io_Copy, Stream_Write, bind, deref, store, ret.
    rewrite Hst, Hfail. cbv zeta.
    assert (((writeInt [] (wrap32 (Z.of_nat (length buf) + 2))
                ++ [protoVersion]) ++ [passwordHashVersion]) ++ buf
            = writeInt [] (wrap32 (Z.of_nat (length buf) + 2))
                ++ protoVersion :: passwordHashVersion :: buf) as ->
      by (by rewrite <- !app_assoc).
    eexists. split; [reflexivity |].
    split; [done |]. rewrite Htake, Hdrop, Hbe.
    split; [apply writeInt_in_range |]. split; [| done].
    simpl length. lia.
Qed.

End Frames.

Lemma frames_carry_their_length_witness :
  ∃ msg w',
    VoltConn_serializeQuery demo_serialize demo_conn (Some 1%positive) "P" 5 [7]
      demo_open = Ret None w' ∧
    st_out <$> streams w' !! 1%positive = Some [msg] ∧
    be_uint (take 4 msg) = 2 ∧ drop 4 msg = [5; 7].
Proof.
  destruct (frames_carry_their_length demo_serialize 0 1 1%positive demo_stream
              demo_open ltac:(vm_compute; reflexivity) eq_refl) as [Hreq _].
  destruct (Hreq demo_conn "P"%string 5 [7] [5; 7] eq_refl ltac:(simpl; lia))
    as (msg & w' & Hret & Hstr & _ & Hbe & Hdrop).
  exists msg, w'. split; [exact Hret |].
  split; [by rewrite Hstr, lookup_insert_eq |].
  split; [by rewrite Hbe, Hdrop | exact Hdrop].
Defined.

(** ** Opening a connection *)

Section Opening.

Variable net_ResolveTCPAddr : string → option error.
Variable serializeLoginMessage : string → string → list Z * option error.
Variable deserializeLoginResponse :
  list Z → option connectionData * option error.
Variable protoVersion passwordHashVersion : Z.

Lemma writeLoginMessage_fresh_stream (gone : bool) (login : list Z) (w : World) :
  let s := fresh (dom (streams w)) in
  ∃ out,
    writeLoginMessage protoVersion passwordHashVersion (Some s) login
      (set_streams (<[s := {| st_isTCP := true; st_closed := false;
                              st_peerGone := gone; st_out := [] |}]>
                      (streams w)) w)
    = Ret tt (set_streams (<[s := {| st_isTCP := true; st_closed := false;
                                     st_peerGone := gone; st_out := out |}]>
                             (streams w)) w) ∧
    out = if gone then []
          else [writeInt [] (wrap32 (Z.of_nat (length login) + 2))
                  ++ protoVersion :: passwordHashVersion :: login].
Proof.
  intros s. unfold writeLoginMessage, writeProtoVersion,
    writePasswordHashVersion, io_Copy, Stream_Write, bind, deref, store, ret.
  cbv zeta. simpl. rewrite lookup_insert_eq. unfold Stream_failing. simpl.
  destruct gone; simpl.
  - by eexists.
  - eexists. split; [| reflexivity]. simpl. rewrite insert_insert_eq.
    reflexivity.
Qed.

(** X16.  Whatever [OpenConn] returns, it returns a connection or an error
    and never both or neither, and it leaves the handle counter alone.  When
    it returns an error no connection, listener or map has been created.  A
    resolver failure is reported as "Error resolving <connInfo>." whatever
    the resolver said, and nothing has happened.  Once the dial has
    succeeded, a later failure (the login serializer, the read of the
    response, its decoding) returns with the dialled TCP stream still open:
    the error paths do not close it. *)
Theorem OpenConn_failure_leaves_socket_open
    (connInfo : string) (dial : DialOutcome) (r : ReadOutcome)
    (res : option loc) (err : option error) (w w' : World) :
  OpenConn net_ResolveTCPAddr serializeLoginMessage deserializeLoginResponse
    protoVersion passwordHashVersion connInfo dial r w = Ret (res, err) w' →
  (res = None ↔ is_Some err) ∧
  qHandle w' = qHandle w ∧
  (is_Some err →
     conn_heap w' = conn_heap w ∧ listeners w' = listeners w ∧
     query_maps w' = query_maps w ∧ exec_maps w' = exec_maps w) ∧
  (is_Some (net_ResolveTCPAddr connInfo) →
     err = Some ("Error resolving " +:+ connInfo +:+ ".") ∧ w' = w) ∧
  (net_ResolveTCPAddr connInfo = None →
     ∀ gone, dial = DialOk gone →
       streams w !! fresh (dom (streams w)) = None ∧
       ∃ st, streams w' !! fresh (dom (streams w)) = Some st ∧
             st_isTCP st = true ∧ st_closed st = false ∧
             st_peerGone st = gone).
Proof.
  unfold OpenConn. intros H.
  destruct (net_ResolveTCPAddr connInfo) as [e0|] eqn:Hres.
  { injection H as <- <- <-.
    repeat split; try done; try (by intros [? ?]); by eexists. }
  destruct dial as [gone | e1].
  2: { injection H as <- <- <-.
       repeat split; try done; try (by intros [? ?]); by eexists. }
  unfold bind at 1 in H. unfold alloc in H.
  assert (streams w !! fresh (dom (streams w)) = None) as Hfresh
    by apply not_elem_of_dom, is_fresh.
  destruct (serializeLoginMessage "" "") as [login [e2|]].
  { injection H as <- <- <-.
    repeat split; try done; try (by intros [? ?]); try (by eexists).
    simplify_eq. eexists. split; [simpl; apply lookup_insert_eq | done]. }
  destruct (writeLoginMessage_fresh_stream gone login w) as (out & Hwrite & _).
  unfold bind at 1 in H. cbv zeta in Hwrite. rewrite Hwrite in H.
  unfold readLoginResponse, readMessage in H.
  destruct r as [buf | e3 |]; [| | done].
  2: { injection H as <- <- <-.
       repeat split; try done; try (by intros [? ?]); try (by eexists).
       simplify_eq. eexists. split; [simpl; apply lookup_insert_eq | done]. }
  unfold bind at 1 2 in H. unfold ret at 1 in H.
  destruct (deserializeLoginResponse buf) as [cd [e4|]].
  { injection H as <- <- <-.
    repeat split; try done; try (by intros [? ?]); try (by eexists).
    simplify_eq. eexists. split; [simpl; apply lookup_insert_eq | done]. }
  unfold newVoltConn, newListener, NetworkListener_start, bind, alloc, deref,
    store, ret in H.
  simpl in H. rewrite lookup_insert_eq in H. injection H as <- <- <-.
  split; [split; [done | by intros [? ?]] |].
  split; [done |]. split; [by intros [? ?] |].
  split; [by intros [? ?] |].
  intros _ gone' [= <-]. split; [done |]. eexists.
  split; [simpl; apply lookup_insert_eq | done].
Qed.

(** X17.  When the address resolves, the dial succeeds, the login message
    serializes and the response arrives and decodes, [OpenConn] returns a
    fresh connection and a nil error: the struct is open, reads and writes
    through the dialled stream, has two fresh empty maps and a started
    listener on the same stream, and its [connData] is nil, the decoded
    login data having been dropped.  Nothing checks the write of the login
    message: with a peer that is already gone nothing is sent and the call
    still succeeds.  If the response never arrives the call waits for
    ever. *)
Theorem OpenConn_returns_wired_connection
    (connInfo : string) (gone : bool) (buf login : list Z)
    (cd : option connectionData) (w : World) :
  net_ResolveTCPAddr connInfo = None →
  serializeLoginMessage "" "" = (login, None) →
  deserializeLoginResponse buf = (cd, None) →
  (∃ p s vc w',
     OpenConn net_ResolveTCPAddr serializeLoginMessage deserializeLoginResponse
       protoVersion passwordHashVersion connInfo (DialOk gone) (ReadOk buf) w
       = Ret (Some p, None) w' ∧
     conn_heap w !! p = None ∧ streams w !! s = None ∧
     conn_heap w' = <[p := vc]> (conn_heap w) ∧
     reader vc = Some s ∧ writer vc = Some s ∧ connData vc = None ∧
     isOpen vc = true ∧ nlwg vc = WaitGroup_zero ∧
     query_maps w !! queries vc = None ∧
     query_maps w' = <[queries vc := ∅]> (query_maps w) ∧
     exec_maps w !! execs vc = None ∧
     exec_maps w' = <[execs vc := ∅]> (exec_maps w) ∧
     listeners w !! netListener vc = None ∧
     listeners w' = <[netListener vc :=
                        {| nl_reader := Some s; nl_execs := ∅; nl_queries := ∅;
                           nl_wg := WaitGroup_Add 1 WaitGroup_zero;
                           nl_stopRequested := false;
                           nl_loopRunning := true |}]> (listeners w) ∧
     streams w' = <[s := {| st_isTCP := true; st_closed := false;
                            st_peerGone := gone;
                            st_out :=
                              if gone then []
                              else [writeInt [] (wrap32 (Z.of_nat (length login) + 2))
                                      ++ protoVersion :: passwordHashVersion
                                      :: login] |}]> (streams w)) ∧
  (∃ w',
     OpenConn net_ResolveTCPAddr serializeLoginMessage deserializeLoginResponse
       protoVersion passwordHashVersion connInfo (DialOk gone) ReadNever w
       = Blocked w').
Proof.
  intros Hres Hlogin Hdec.
  assert (streams w !! fresh (dom (streams w)) = None) as Hfresh
    by apply not_elem_of_dom, is_fresh.
  destruct (writeLoginMessage_fresh_stream gone login w) as (out & Hwrite & ->).
  cbv zeta in Hwrite.
  split.
  - exists (fresh (dom (conn_heap w))), (fresh (dom (streams w))).
    unfold OpenConn. rewrite Hres. unfold bind at 1. unfold alloc at 1.
    rewrite Hlogin. unfold bind at 1. rewrite Hwrite.
    unfold readLoginResponse, readMessage. unfold bind at 1 2.
    unfold ret at 1. rewrite Hdec.
    unfold newVoltConn, newListener, NetworkListener_start, bind, alloc, deref,
      store, ret.
    simpl. rewrite lookup_insert_eq. eexists. eexists.
    split; [reflexivity |]. simpl.
    split; [apply not_elem_of_dom, is_fresh |]. split; [done |].
    split; [done |]. repeat (split; [done |]).
    split; [apply not_elem_of_dom, is_fresh |]. split; [done |].
    split; [apply not_elem_of_dom, is_fresh |]. split; [done |].
    split; [apply not_elem_of_dom, is_fresh |].
    split; [by rewrite insert_insert_eq | done].
  - unfold OpenConn. rewrite Hres. unfold bind at 1. unfold alloc at 1.
    rewrite Hlogin. unfold bind at 1. rewrite Hwrite.
    unfold readLoginResponse, readMessage, bind. by eexists.
Qed.

End Opening.

Lemma OpenConn_failure_leaves_socket_open_witness :
  ∃ w',
    OpenConn demo_resolve demo_login demo_decode 1 0 "db:21212"
      (DialOk false) (ReadErr "connection reset") World_init
      = Ret (None, Some "connection reset"%string) w' ∧
    conn_heap w' = conn_heap World_init ∧
    ∃ st, streams w' !! fresh (dom (streams World_init)) = Some st ∧
          st_closed st = false.
Proof.
  exists (world_of
            (OpenConn demo_resolve demo_login demo_decode 1 0 "db:21212"
               (DialOk false) (ReadErr "connection reset") World_init)).
  assert (OpenConn demo_resolve demo_login demo_decode 1 0 "db:21212"
            (DialOk false) (ReadErr "connection reset") World_init
          = Ret (None, Some "connection reset"%string)
              (world_of
                 (OpenConn demo_resolve demo_login demo_decode 1 0 "db:21212"
                    (DialOk false) (ReadErr "connection reset") World_init)))
    as Hrun by (vm_compute; reflexivity).
  destruct (OpenConn_failure_leaves_socket_open _ _ _ _ _ _ _ _ _ _ _ _ Hrun)
    as (_ & _ & Hsame & _ & Hstream).
  split; [exact Hrun |].
  destruct (Hsame ltac:(by eexists)) as (Hconn & _).
  split; [exact Hconn |].
  destruct (Hstream eq_refl false eq_refl) as (_ & st & Hst & _ & Hopen & _).
  by exists st.
Defined.

Lemma OpenConn_returns_wired_connection_witness :
  ∃ p vc w',
    OpenConn demo_resolve demo_login demo_decode 1 0 "db:21212"
      (DialOk true) (ReadOk [4]) World_init = Ret (Some p, None) w' ∧
    conn_heap w' = <[p := vc]> (conn_heap World_init) ∧
    isOpen vc = true ∧ connData vc = None ∧ reader vc = writer vc.
Proof.
  destruct (OpenConn_returns_wired_connection demo_resolve demo_login
              demo_decode 1 0 "db:21212" true [4] [10; 11; 12]
              (Some {| hostId := 4; connId := 0; leaderAddr := 0;
                       buildString := "v" |})
              World_init eq_refl eq_refl eq_refl)
    as [(p & s & vc & w' & Hrun & _ & _ & Hheap & Hrd & Hwr & Hcd & Hopen & _) _].
  exists p, vc, w'. split; [exact Hrun |]. split; [exact Hheap |].
  split; [exact Hopen |]. split; [exact Hcd |]. by rewrite Hrd, Hwr.
Defined.

(** ** [Close] and the pending results *)

(** X18.  [Close] resolves nothing.  Whatever it leaves behind, on return or
    while it waits, the pending results, the two maps of every connection,
    the connection structs and the handle counter are exactly as before:
    a result that was active is still active and still filed, and a reader
    of it to whom nothing is delivered still waits for ever. *)
Theorem Close_resolves_nothing (p : loc) (w w' : World) :
  after (via p VoltConn_Close w) w' →
  vqr_heap w' = vqr_heap w ∧ ver_heap w' = ver_heap w ∧
  query_maps w' = query_maps w ∧ exec_maps w' = exec_maps w ∧
  conn_heap w' = conn_heap w ∧ qHandle w' = qHandle w ∧
  (∀ q f, vqr_heap w !! q = Some f → vqr_active f = true →
     VoltQueryResult_Rows q NeverReady w'
       = Blocked (log_event (EvRecv (vqr_ch f)) w')) ∧
  (∀ q f, ver_heap w !! q = Some f → ver_active f = true →
     VoltExecResult_Result q NeverReady w'
       = Blocked (log_event (EvRecv (ver_ch f)) w')).
Proof.
  intros H.
  assert (same_core w w') as (Hq & _ & Hc & He & Hm & Hv & Hr).
  { revert H. unfold via. revert w w'.
    change (keeps_core (let! vc := deref conn_heap p in VoltConn_Close vc)).
    apply keeps_core_bind; [apply keeps_core_deref |].
    intros vc. apply keeps_core_Close. }
  repeat (split; [done |]). split.
  - intros q f Hf Hact. rewrite <- Hv in Hf.
    unfold VoltQueryResult_Rows.
    rewrite (bind_Ret _ _ _ _ _ (deref_Ret vqr_heap _ _ _ Hf)).
    by rewrite Hact.
  - intros q f Hf Hact. rewrite <- Hr in Hf.
    unfold VoltExecResult_Result.
    rewrite (bind_Ret _ _ _ _ _ (deref_Ret ver_heap _ _ _ Hf)).
    by rewrite Hact.
Qed.

Lemma Close_resolves_nothing_witness :
  vqr_heap demo_asked_then_closed = vqr_heap demo_asked_once ∧
  query_maps demo_asked_then_closed = query_maps demo_asked_once ∧
  VoltQueryResult_Rows 1%positive NeverReady demo_asked_then_closed
    = Blocked (log_event (EvRecv 1%positive) demo_asked_then_closed).
Proof.
  assert (after (via 1%positive VoltConn_Close demo_asked_once)
            demo_asked_then_closed) as Hrun
    by (unfold demo_asked_then_closed; apply after_world_of;
        vm_compute; reflexivity).
  destruct (Close_resolves_nothing 1%positive demo_asked_once
              demo_asked_then_closed Hrun)
    as (Hv & _ & Hm & _ & _ & _ & Hrows & _).
  split; [exact Hv |]. split; [exact Hm |].
  apply (Hrows 1%positive
           {| vqr_conn := demo_conn; vqr_han := 1; vqr_ch := 1%positive;
              vqr_rows := RowsNil; vqr_err := None; vqr_active := true |}).
  - vm_compute. reflexivity.
  - reflexivity.
Defined.
